(** * boat-ride-api: the route normalization pipeline

    A shallow embedding of [app/utils/geo.py] and
    [app/services/route_normalizer.py], with the Pydantic field constraints of
    [app/models/route_models.py] that the pipeline runs into.

    Number model.  Python's [float] is embedded as the real numbers [R]: every
    arithmetic line of the source is read with exact arithmetic and the [math]
    functions are the real [sin], [cos], [asin], [sqrt] and [atan].  The one
    place where the range of a double decides whether the code raises, the
    point estimate of [pick_spacing_m], keeps its [OverflowError].  Module
    [Binary64] at the end of the definitions re-reads the resampler and the
    distance with IEEE binary64 arithmetic ([PrimFloat]), for the places
    where rounding decides a property.

    Loops.  [for] loops over a list are structural recursions.  The one
    unbounded [while] loop of the source (the target generator of
    [resample_even_spacing]) takes a fuel argument and answers [Diverge] when it
    runs out. *)

From Stdlib Require Import String Ascii.
From Stdlib Require Import Reals Lra Lia List ZArith Bool.
From Stdlib Require Import Permutation Sorted.
From Stdlib Require PrimFloat OrderedTypeEx.
Import ListNotations.
Open Scope R_scope.

(* ================================================================== *)
(** ** Outcomes: a returned value, a raised [ValueError], or divergence *)
(* ================================================================== *)

(** The exceptions of the pipeline, one constructor per raise site. *)
Inductive error : Type :=
| RouteTooSparse          (* "Route collapses to <2 unique points after de-dupe" *)
| DuplicatePointAdjacent  (* "Adjacent duplicate points not allowed" *)
| SegmentTooLong          (* "Segment too long (> 50000.0 m)" *)
| RouteTooShort           (* "Route too short (< 25.0 m)" *)
| RouteTooLong            (* "Route too long (> 500000.0 m)" *)
| ZeroLengthRoute         (* "Route length is zero" *)
| IndexError              (* indexing an empty list *)
| EmptySequence           (* min() / max() of an empty list *)
| ValidationError         (* a Pydantic field constraint fails *)
| OverflowError.          (* [int()] of an infinite float; not a [ValueError] *)

Inductive outcome (A : Type) : Type :=
| Return (a : A)
| Raise (e : error)
| Diverge.

Arguments Return {A} a.
Arguments Raise {A} e.
Arguments Diverge {A}.

Definition bind {A B : Type} (m : outcome A) (k : A -> outcome B) : outcome B :=
  match m with
  | Return a => k a
  | Raise e => Raise e
  | Diverge => Diverge
  end.

Notation "x <- m ;; k" := (bind m (fun x => k))
  (at level 61, m at next level, right associativity).
Notation "m ;;; k" := (bind m (fun _ => k))
  (at level 61, right associativity).

(* ================================================================== *)
(** ** app/utils/geo.py *)
(* ================================================================== *)

(** A coordinate pair, [(lon, lat)] as in the source. *)
Definition point : Type := (R * R)%type.

Definition point_eq_dec (p q : point) : {p = q} + {p <> q}.
Proof.
  destruct p as [x1 y1], q as [x2 y2].
  destruct (Req_dec_T x1 x2) as [Hx | Hx]; [| right; congruence].
  destruct (Req_dec_T y1 y2) as [Hy | Hy]; [| right; congruence].
  left; congruence.
Defined.

(** [math.radians], [math.degrees]. *)
Definition radians (x : R) : R := x * (PI / 180).
Definition degrees (x : R) : R := x * (180 / PI).

(** [math.atan2 y x], by quadrant. *)
Definition atan2 (y x : R) : R :=
  if Rlt_dec 0 x then atan (y / x)
  else if Rlt_dec x 0 then
         (if Rle_dec 0 y then atan (y / x) + PI else atan (y / x) - PI)
  else if Rlt_dec 0 y then PI / 2
  else if Rlt_dec y 0 then - (PI / 2)
  else 0.

(** Python's [x % y] on floats: the remainder has the sign of [y]. *)
Definition pymod (x y : R) : R := x - y * IZR (Zfloor (x / y)).

Definition haversine_m (a_lon a_lat b_lon b_lat : R) : R :=
  let r := 6371000 in
  let phi1 := radians a_lat in
  let phi2 := radians b_lat in
  let dphi := radians (b_lat - a_lat) in
  let dlmb := radians (b_lon - a_lon) in
  let s := sin (dphi / 2) ^ 2 + cos phi1 * cos phi2 * sin (dlmb / 2) ^ 2 in
  2 * r * asin (sqrt s).

Definition bearing_deg_true (a_lon a_lat b_lon b_lat : R) : R :=
  let phi1 := radians a_lat in
  let phi2 := radians b_lat in
  let dlmb := radians (b_lon - a_lon) in
  let y := sin dlmb * cos phi2 in
  let x := cos phi1 * sin phi2 - sin phi1 * cos phi2 * cos dlmb in
  let brng := degrees (atan2 y x) in
  pymod (brng + 360) 360.

(** The distance between two coordinate pairs, as every caller unpacks them. *)
Definition dist (a b : point) : R :=
  haversine_m (fst a) (snd a) (fst b) (snd b).

(** The loop of [polyline_length_m]: [prev] is [points_lonlat[i - 1]]. *)
Fixpoint polyline_loop (total : R) (prev : point) (rest : list point) : R :=
  match rest with
  | [] => total
  | b :: rest' => polyline_loop (total + dist prev b) b rest'
  end.

Definition polyline_length_m (points_lonlat : list point) : R :=
  match points_lonlat with
  | [] => 0
  | a :: rest => polyline_loop 0 a rest
  end.

Record bbox : Type := BBox {
  min_lat : R;
  min_lon : R;
  max_lat : R;
  max_lon : R
}.

(** [min(xs)] and [max(xs)] of a non-empty list [x :: xs]. *)
Definition list_min (x : R) (xs : list R) : R := fold_left Rmin xs x.
Definition list_max (x : R) (xs : list R) : R := fold_left Rmax xs x.

Definition bbox_wgs84 (points_lonlat : list point) : outcome bbox :=
  let lons := map fst points_lonlat in
  let lats := map snd points_lonlat in
  match lats, lons with
  | la :: las, lo :: los =>
      Return (BBox (list_min la las) (list_min lo los)
                   (list_max la las) (list_max lo los))
  | _, _ => Raise EmptySequence
  end.

(* ================================================================== *)
(** ** app/models/route_models.py: the normalized contract *)
(* ================================================================== *)

Record NormalizedPoint : Type := MkPoint {
  i : nat;
  lat : R;
  lon : R;
  cum_dist_m : R;
  seg_dist_m : R;
  bearing : R                          (* field [bearing_deg_true] *)
}.

Record NormalizedRouteBody : Type := MkBody {
  spacing_m : R;
  total_distance_m : R;
  point_count : nat;
  body_bbox : bbox;                    (* field [bbox_wgs84] *)
  points : list NormalizedPoint
}.

(** [route_version] is the constant "1.0" and [created_at_utc] is read off
    the clock when the object is built; neither is modelled. *)
Record NormalizedRoute : Type := MkRoute {
  route_id : string;
  normalized : NormalizedRouteBody;
  source_raw_hash : option string
}.

(** [Field(ge=0)], [Field(ge=0, lt=360)] of [NormalizedPoint]. *)
Definition new_NormalizedPoint (idx : nat) (la lo seg cum brg : R)
  : outcome NormalizedPoint :=
  if Rle_dec 0 cum then
    if Rle_dec 0 seg then
      if Rle_dec 0 brg then
        if Rlt_dec brg 360 then Return (MkPoint idx la lo cum seg brg)
        else Raise ValidationError
      else Raise ValidationError
    else Raise ValidationError
  else Raise ValidationError.

(** The index check of [validate_point_count]: [p.i == idx] under [enumerate]. *)
Fixpoint contiguous_from (idx : nat) (pts : list NormalizedPoint) : bool :=
  match pts with
  | [] => true
  | p :: pts' => Nat.eqb (i p) idx && contiguous_from (S idx) pts'
  end.

(** [Field(gt=0)], [Field(ge=0)], [Field(ge=2)] and [validate_point_count]
    of [NormalizedRouteBody]. *)
Definition new_NormalizedRouteBody (spacing total : R) (count : nat) (bb : bbox)
  (pts : list NormalizedPoint) : outcome NormalizedRouteBody :=
  if Rlt_dec 0 spacing then
    if Rle_dec 0 total then
      if (2 <=? count)%nat then
        if Nat.eqb count (length pts) then
          if (2 <=? length pts)%nat then
            if contiguous_from 0 pts
            then Return (MkBody spacing total count bb pts)
            else Raise ValidationError
          else Raise ValidationError
        else Raise ValidationError
      else Raise ValidationError
    else Raise ValidationError
  else Raise ValidationError.

(* ================================================================== *)
(** ** app/services/route_normalizer.py: guardrails and spacing *)
(* ================================================================== *)

Definition DEFAULT_SPACING_M : R := 250.
Definition MAX_POINTS : Z := 2500.
Definition MIN_ROUTE_M : R := 25.
Definition MAX_ROUTE_M : R := 500000.
Definition MAX_SEGMENT_M : R := 50000.

(** The de-dupe loop of [validate_route_guardrails]; [prev] is [deduped[-1]]
    and the result is what the loop appends after it. *)
Fixpoint dedupe_after (prev : point) (rest : list point) : list point :=
  match rest with
  | [] => []
  | p :: rest' =>
      if point_eq_dec p prev then dedupe_after prev rest'
      else p :: dedupe_after p rest'
  end.

Definition dedupe (points_lonlat : list point) : list point :=
  match points_lonlat with
  | [] => []
  | p0 :: rest => p0 :: dedupe_after p0 rest
  end.

(** The segment sanity loop; [prev] is [deduped[i - 1]]. *)
Fixpoint check_segments (prev : point) (rest : list point) : outcome unit :=
  match rest with
  | [] => Return tt
  | b :: rest' =>
      let seg := dist prev b in
      if Rle_dec seg 0 then Raise DuplicatePointAdjacent
      else if Rgt_dec seg MAX_SEGMENT_M then Raise SegmentTooLong
      else check_segments b rest'
  end.

Definition validate_route_guardrails (points_lonlat : list point) : outcome unit :=
  match points_lonlat with
  | [] => Raise IndexError
  | _ :: _ =>
      let deduped := dedupe points_lonlat in
      if (length deduped <? 2)%nat then Raise RouteTooSparse
      else
        match deduped with
        | [] => Return tt
        | a :: rest => check_segments a rest
        end ;;;
        let total := polyline_length_m deduped in
        if Rlt_dec total MIN_ROUTE_M then Raise RouteTooShort
        else if Rgt_dec total MAX_ROUTE_M then Raise RouteTooLong
        else Return tt
  end.

(** [requested_spacing_m or DEFAULT_SPACING_M]: [None] and [0.0] are falsy. *)
Definition spacing_or_default (requested_spacing_m : option R) : R :=
  match requested_spacing_m with
  | None => DEFAULT_SPACING_M
  | Some s => if Req_dec_T s 0 then DEFAULT_SPACING_M else s
  end.

(** The least magnitude that binary64 rounds to an infinity: halfway between
    the largest double, [2^1024 - 2^971], and [2^1024]. *)
Definition FLOAT_OVERFLOW : Z := (2 ^ 1024 - 2 ^ 970)%Z.

(** [int(total_distance_m // spacing) + 2].  The floor division gives an
    infinity when the quotient is beyond the doubles, and [int] of an
    infinity raises [OverflowError]. *)
Definition est_points (total_distance_m spacing : R) : outcome Z :=
  let q := Zfloor (total_distance_m / spacing) in
  if (FLOAT_OVERFLOW <=? Z.abs q)%Z then Raise OverflowError
  else Return (q + 2)%Z.

Definition pick_spacing_m (total_distance_m : R) (requested_spacing_m : option R)
  : outcome R :=
  let spacing := spacing_or_default requested_spacing_m in
  if Rle_dec total_distance_m 0 then Return spacing
  else
    est <- est_points total_distance_m spacing ;;
    if (est <=? MAX_POINTS)%Z then Return spacing
    else Return (total_distance_m / IZR (Z.max 2 (MAX_POINTS - 1))).

(* ================================================================== *)
(** ** app/services/route_normalizer.py: the resampler *)
(* ================================================================== *)

(** An entry of [segs]: [(a_lon, a_lat, b_lon, b_lat, seg_len)]. *)
Record segment : Type := MkSeg {
  a_lon : R;
  a_lat : R;
  b_lon : R;
  b_lat : R;
  seg_len : R                          (* [s[-1]] *)
}.

(** An entry of the result: [(lat, lon, seg_dist_m, cum_dist_m)]. *)
Record sample : Type := MkSample {
  s_lat : R;
  s_lon : R;
  s_seg_dist : R;
  s_cum_dist : R
}.

(** The loop that fills [segs]; [prev] is [points_lonlat[i - 1]]. *)
Fixpoint build_segs (prev : point) (rest : list point) : list segment :=
  match rest with
  | [] => []
  | b :: rest' =>
      MkSeg (fst prev) (snd prev) (fst b) (snd b) (dist prev b)
        :: build_segs b rest'
  end.

Definition segments (points_lonlat : list point) : list segment :=
  match points_lonlat with
  | [] => []
  | a :: rest => build_segs a rest
  end.

(** [sum(xs)], from the left, starting at 0. *)
Definition sum_list (xs : list R) : R := fold_left Rplus xs 0.

(** [while d < total: targets.append(d); d += spacing_m]. *)
Fixpoint targets_loop (fuel : nat) (spacing total d : R) (targets : list R)
  : outcome (list R) :=
  match fuel with
  | O => Diverge
  | S fuel' =>
      if Rlt_dec d total
      then targets_loop fuel' spacing total (d + spacing) (targets ++ [d])
      else Return targets
  end.

Definition build_targets (fuel : nat) (spacing total : R) : outcome (list R) :=
  targets <- targets_loop fuel spacing total spacing [0] ;;
  Return (if Req_dec_T (last targets 0) total then targets
          else targets ++ [total]).

(** The inner [while] of the emitting loop.  The cursor [seg_idx] is carried
    as the suffix [segs[seg_idx:]], so [seg_idx < len(segs)] reads "the suffix
    is not empty" and [seg_idx += 1] drops its head. *)
Fixpoint advance (rest : list segment) (seg_start_cum t : R)
  : list segment * R :=
  match rest with
  | [] => ([], seg_start_cum)
  | s :: rest' =>
      if Rlt_dec (seg_start_cum + seg_len s) t
      then advance rest' (seg_start_cum + seg_len s) t
      else (rest, seg_start_cum)
  end.

(** The [(lon, lat)] chosen for target [t] once the cursor has stopped;
    [seg_last] is [segs[-1]]. *)
Definition locate (seg_last : segment) (rest : list segment)
  (seg_start_cum t : R) : R * R :=
  match rest with
  | [] => (b_lon seg_last, b_lat seg_last)
  | s :: _ =>
      if Req_dec_T (seg_len s) 0 then (b_lon s, b_lat s)
      else
        let frac := (t - seg_start_cum) / seg_len s in
        (a_lon s + frac * (b_lon s - a_lon s),
         a_lat s + frac * (b_lat s - a_lat s))
  end.

(** [for t in targets: ...], with the loop state [seg_idx] (as a suffix),
    [seg_start_cum], [last_cum] and [out]. *)
Fixpoint emit (seg_last : segment) (rest : list segment)
  (seg_start_cum last_cum : R) (out : list sample) (targets : list R)
  : list sample :=
  match targets with
  | [] => out
  | t :: targets' =>
      let '(rest1, start1) := advance rest seg_start_cum t in
      let '(lo, la) := locate seg_last rest1 start1 t in
      let seg_dist := match out with [] => 0 | _ :: _ => t - last_cum end in
      emit seg_last rest1 start1 t (out ++ [MkSample la lo seg_dist t]) targets'
  end.

Definition resample_even_spacing (fuel : nat) (points_lonlat : list point)
  (spacing : R) : outcome (list sample) :=
  let segs := segments points_lonlat in
  let total := sum_list (map seg_len segs) in
  if Req_dec_T total 0 then Raise ZeroLengthRoute
  else
    targets <- build_targets fuel spacing total ;;
    match segs with
    | [] => Raise IndexError
    | s0 :: _ => Return (emit (last segs s0) segs 0 0 [] targets)
    end.

(** The bearing loop of [normalize_raw_route] over consecutive samples. *)
Fixpoint bearings_loop (samples : list sample) : list R :=
  match samples with
  | s1 :: (s2 :: _) as rest =>
      bearing_deg_true (s_lon s1) (s_lat s1) (s_lon s2) (s_lat s2)
        :: bearings_loop rest
  | _ => []
  end.

(** [if bearings: bearings.append(bearings[-1]) else: bearings.append(0.0)]. *)
Definition bearings_of (samples : list sample) : list R :=
  match bearings_loop samples with
  | [] => [0]
  | b :: bs => (b :: bs) ++ [last (b :: bs) 0]
  end.

(** The [enumerate(samples)] loop that fills [pts]. *)
Fixpoint build_points (idx : nat) (samples : list sample) (bearings : list R)
  : outcome (list NormalizedPoint) :=
  match samples with
  | [] => Return []
  | s :: samples' =>
      match nth_error bearings idx with
      | None => Raise IndexError
      | Some brg =>
          p <- new_NormalizedPoint idx (s_lat s) (s_lon s)
                 (s_seg_dist s) (s_cum_dist s) brg ;;
          ps <- build_points (S idx) samples' bearings ;;
          Return (p :: ps)
      end
  end.

(* ================================================================== *)
(** ** The raw contract and its JSON form *)
(* ================================================================== *)

(** A JSON-compatible Python value.  A [dict] is the list of its items in
    insertion order; Python keeps its keys unique. *)
#[warnings="-register-all"] Inductive json : Type :=
| JNull
| JBool (b : bool)
| JInt (n : Z)
| JFloat (x : R)
| JStr (s : string)
| JArr (items : list json)
| JObj (fields : list (string * json)).

Record RawRouteGeometry : Type := MkGeometry {
  geometry_type : string;              (* field [type], "LineString" *)
  coordinates : list point
}.

Record RawRouteProperties : Type := MkProperties {
  name : option string;
  source : option string;
  created_at_utc : option string;      (* the datetime, as ISO text *)
  notes : option string;
  client : option (list (string * json))
}.

Record RawRouteFeature : Type := MkFeature {
  route_version : string;
  feature_type : string;               (* field [type], "Feature" *)
  geometry : RawRouteGeometry;
  properties : RawRouteProperties
}.

Definition dump_opt_str (o : option string) : json :=
  match o with
  | None => JNull
  | Some s => JStr s
  end.

(** [raw.model_dump(mode="json")]: the fields in declaration order, tuples as
    arrays. *)
Definition model_dump (raw : RawRouteFeature) : json :=
  let g := geometry raw in
  let p := properties raw in
  JObj
    [ ("route_version"%string, JStr (route_version raw));
      ("type"%string, JStr (feature_type raw));
      ("geometry"%string,
        JObj [ ("type"%string, JStr (geometry_type g));
               ("coordinates"%string,
                 JArr (map (fun c => JArr [JFloat (fst c); JFloat (snd c)])
                           (coordinates g))) ]);
      ("properties"%string,
        JObj [ ("name"%string, dump_opt_str (name p));
               ("source"%string, dump_opt_str (source p));
               ("created_at_utc"%string, dump_opt_str (created_at_utc p));
               ("notes"%string, dump_opt_str (notes p));
               ("client"%string,
                 match client p with
                 | None => JNull
                 | Some d => JObj d
                 end) ]) ].

(** [sorted(items)] on (key, text) pairs with distinct keys: by key. *)
Fixpoint insert_item (kv : string * string) (l : list (string * string))
  : list (string * string) :=
  match l with
  | [] => [kv]
  | x :: l' =>
      if String.leb (fst kv) (fst x) then kv :: l
      else x :: insert_item kv l'
  end.

Definition sort_items (l : list (string * string)) : list (string * string) :=
  fold_right insert_item [] l.

(** [sep.join(parts)]. *)
Fixpoint join (sep : string) (parts : list string) : string :=
  match parts with
  | [] => EmptyString
  | [p] => p
  | p :: parts' => (p ++ sep ++ join sep parts')%string
  end.

Section Pipeline.

(** The library functions the hash goes through: the encoder's text for a
    float, an int and a string, and [hashlib.sha256(data).hexdigest()]. *)
Variable float_repr : R -> string.
Variable int_repr : Z -> string.
Variable encode_str : string -> string.
Variable sha256_hexdigest : string -> string.

(** [json.dumps(obj, separators=(",", ":"), sort_keys=True)]. *)
Fixpoint json_dumps (obj : json) : string :=
  match obj with
  | JNull => "null"
  | JBool true => "true"
  | JBool false => "false"
  | JInt n => int_repr n
  | JFloat x => float_repr x
  | JStr s => encode_str s
  | JArr items => "[" ++ join "," (map json_dumps items) ++ "]"
  | JObj fields =>
      let rendered := map (fun kv => (fst kv, json_dumps (snd kv))) fields in
      "{" ++ join ","
               (map (fun kv => encode_str (fst kv) ++ ":" ++ snd kv)
                    (sort_items rendered))
          ++ "}"
  end%string.

Definition stable_json_sha256 (obj : json) : string :=
  ("sha256:" ++ sha256_hexdigest (json_dumps obj))%string.

(* ================================================================== *)
(** ** app/services/route_normalizer.py: the orchestrator *)
(* ================================================================== *)

Definition normalize_raw_route (fuel : nat) (rid : string)
  (raw : RawRouteFeature) (spacing_req : option R) : outcome NormalizedRoute :=
  let points_lonlat := coordinates (geometry raw) in
  validate_route_guardrails points_lonlat ;;;
  let total := polyline_length_m points_lonlat in
  spacing <- pick_spacing_m total spacing_req ;;
  samples <- resample_even_spacing fuel points_lonlat spacing ;;
  let bearings := bearings_of samples in
  pts <- build_points 0 samples bearings ;;
  bb <- bbox_wgs84 (map (fun p => (lon p, lat p)) pts) ;;
  match rev pts with
  | [] => Raise IndexError
  | p_last :: _ =>
      body <- new_NormalizedRouteBody spacing (cum_dist_m p_last)
                (List.length pts) bb pts ;;
      let raw_hash := stable_json_sha256 (model_dump raw) in
      Return (MkRoute rid body (Some raw_hash))
  end.

End Pipeline.

(* ================================================================== *)
(** ** The resampler again, with binary64 arithmetic *)
(* ================================================================== *)

(** [resample_even_spacing] with every [+], [-], [*], [/], [<] and [==] read
    as the IEEE binary64 operation Python performs.  [math.sin], [math.cos]
    and [math.asin] are library functions outside [PrimFloat], so the
    resampler takes [haversine_m] as an argument. *)
Module Binary64.
Import PrimFloat.
Local Open Scope float_scope.
Set Warnings "-inexact-float".

Definition fpoint : Type := (float * float)%type.

Record segment : Type := MkSeg {
  a_lon : float;
  a_lat : float;
  b_lon : float;
  b_lat : float;
  seg_len : float
}.

Record sample : Type := MkSample {
  s_lat : float;
  s_lon : float;
  s_seg_dist : float;
  s_cum_dist : float
}.

Section Resampler.

Variable haversine_m : float -> float -> float -> float -> float.

Fixpoint build_segs (prev : fpoint) (rest : list fpoint) : list segment :=
  match rest with
  | [] => []
  | b :: rest' =>
      MkSeg (fst prev) (snd prev) (fst b) (snd b)
            (haversine_m (fst prev) (snd prev) (fst b) (snd b))
        :: build_segs b rest'
  end.

Definition segments (points_lonlat : list fpoint) : list segment :=
  match points_lonlat with
  | [] => []
  | a :: rest => build_segs a rest
  end.

(** [sum(xs)], added from the left.  (CPython 3.12 and later compensate the
    rounding of a float sum; on one segment, as in the sample below, both give
    the segment length.) *)
Definition sum_list (xs : list float) : float := fold_left add xs 0.

Fixpoint targets_loop (fuel : nat) (spacing total d : float)
  (targets : list float) : outcome (list float) :=
  match fuel with
  | O => Diverge
  | S fuel' =>
      if d <? total
      then targets_loop fuel' spacing total (d + spacing) (targets ++ [d])
      else Return targets
  end.

Definition build_targets (fuel : nat) (spacing total : float)
  : outcome (list float) :=
  targets <- targets_loop fuel spacing total spacing [0] ;;
  Return (if last targets 0 =? total then targets else targets ++ [total]).

Fixpoint advance (rest : list segment) (seg_start_cum t : float)
  : list segment * float :=
  match rest with
  | [] => ([], seg_start_cum)
  | s :: rest' =>
      if seg_start_cum + seg_len s <? t
      then advance rest' (seg_start_cum + seg_len s) t
      else (rest, seg_start_cum)
  end.

Definition locate (seg_last : segment) (rest : list segment)
  (seg_start_cum t : float) : float * float :=
  match rest with
  | [] => (b_lon seg_last, b_lat seg_last)
  | s :: _ =>
      if seg_len s =? 0 then (b_lon s, b_lat s)
      else
        let frac := (t - seg_start_cum) / seg_len s in
        (a_lon s + frac * (b_lon s - a_lon s),
         a_lat s + frac * (b_lat s - a_lat s))
  end.

Fixpoint emit (seg_last : segment) (rest : list segment)
  (seg_start_cum last_cum : float) (out : list sample) (targets : list float)
  : list sample :=
  match targets with
  | [] => out
  | t :: targets' =>
      let '(rest1, start1) := advance rest seg_start_cum t in
      let '(lo, la) := locate seg_last rest1 start1 t in
      let seg_dist := match out with [] => 0 | _ :: _ => t - last_cum end in
      emit seg_last rest1 start1 t (out ++ [MkSample la lo seg_dist t]) targets'
  end.

Definition resample_even_spacing (fuel : nat) (points_lonlat : list fpoint)
  (spacing : float) : outcome (list sample) :=
  let segs := segments points_lonlat in
  let total := sum_list (map seg_len segs) in
  if total =? 0 then Raise ZeroLengthRoute
  else
    targets <- build_targets fuel spacing total ;;
    match segs with
    | [] => Raise IndexError
    | s0 :: _ => Return (emit (last segs s0) segs 0 0 [] targets)
    end.

End Resampler.

(** [haversine_m] over binary64, with the three library functions it calls
    as arguments; [math.sqrt] is the IEEE square root and [math.radians]
    multiplies by the double [pi / 180]. *)
Section Haversine.

Variables sin cos asin : float -> float.

Definition pi : float := 0x1.921fb54442d18p+1.
Definition radians (x : float) : float := x * (pi / 180).

Definition haversine_m (a_lon a_lat b_lon b_lat : float) : float :=
  let r := 6371000 in
  let phi1 := radians a_lat in
  let phi2 := radians b_lat in
  let dphi := radians (b_lat - a_lat) in
  let dlmb := radians (b_lon - a_lon) in
  let sq x := x * x in                 (* [x ** 2] *)
  let s := sq (sin (dphi / 2)) + cos phi1 * cos phi2 * sq (sin (dlmb / 2)) in
  2 * r * asin (sqrt s).

End Haversine.



(** The range check of [validate_coords] on one [(lon, lat)]. *)
Definition in_range (p : fpoint) : bool :=
  (-180 <=? fst p) && (fst p <=? 180) && (-90 <=? snd p) && (snd p <=? 90).

(** The [(lon, lat)] of the last sample of a returned resampling. *)
Definition final_lonlat (r : outcome (list sample)) : option (float * float) :=
  match r with
  | Return samples =>
      match rev samples with
      | s :: _ => Some (s_lon s, s_lat s)
      | [] => None
      end
  | _ => None
  end.

(** A route of two points on the equator, 0.3 degrees of longitude apart, and
    what [haversine_m(-0.1, 0.0, 0.2, 0.0)] evaluates to in CPython:
    33358.477993367625.  The last sample only needs this length to be finite
    and positive: [total] is the one segment length, so [frac] is
    [total / seg_len = 1.0]. *)
Definition sample_points : list fpoint := [(-0.1, 0); (0.2, 0)].
Definition sample_len : float := 0x1.049cf4bb8bf35p+15.
Definition sample_haversine (_ _ _ _ : float) : float := sample_len.
Definition sample_spacing : float := 250.
Definition sample_last_lon : float := 0.2.
Definition sample_final : float * float := (0.20000000000000004, 0).


End Binary64.

(* ================================================================== *)
(** ** Vocabulary of the statements *)
(* ================================================================== *)

(** The two ends of a segment. *)
Definition seg_a (s : segment) : point := (a_lon s, a_lat s).
Definition seg_b (s : segment) : point := (b_lon s, b_lat s).

(** [seg_len s != 0]. *)
Definition nonzero (s : segment) : bool :=
  if Req_dec_T (seg_len s) 0 then false else true.

(** Consecutive segments share their end points, starting at [p]. *)
Fixpoint chain_from (p : point) (segs : list segment) : Prop :=
  match segs with
  | [] => True
  | s :: segs' => seg_a s = p /\ chain_from (seg_b s) segs'
  end.

(** A segment of non-negative length that is a single point when its length
    is 0. *)
Definition seg_ok (s : segment) : Prop :=
  0 <= seg_len s /\ (seg_len s = 0 -> seg_a s = seg_b s).

(** The pairs [(points[i - 1], points[i])]. *)
Fixpoint pairs_from (prev : point) (rest : list point) : list (point * point) :=
  match rest with
  | [] => []
  | b :: rest' => (prev, b) :: pairs_from b rest'
  end.

Definition adjacent_pairs (pts : list point) : list (point * point) :=
  match pts with
  | [] => []
  | a :: rest => pairs_from a rest
  end.

(** The cursor of the emitting loop after the targets [ts]. *)
Definition cursor_after (rest : list segment) (seg_start_cum : R)
  (ts : list R) : list segment * R :=
  fold_left (fun c t => advance (fst c) (snd c) t) ts (rest, seg_start_cum).

(** The last element of a list, if any. *)
Definition last_error {A : Type} (l : list A) : option A :=
  match rev l with
  | [] => None
  | x :: _ => Some x
  end.

(** A cursor of the emitting loop that sits on a suffix of [segs], with
    [seg_start_cum] the summed length of the segments before it. *)
Definition cursor_ok (segs rest : list segment) (start : R) : Prop :=
  exists pre, segs = pre ++ rest /\ start = sum_list (map seg_len pre).

(** The same raw feature with other coordinates. *)
Definition with_coordinates (raw : RawRouteFeature) (pts : list point)
  : RawRouteFeature :=
  MkFeature (route_version raw) (feature_type raw)
            (MkGeometry (geometry_type (geometry raw)) pts)
            (properties raw).

Definition outcome_map {A B : Type} (f : A -> B) (m : outcome A) : outcome B :=
  match m with
  | Return a => Return (f a)
  | Raise e => Raise e
  | Diverge => Diverge
  end.

(** The coordinate range the boundary layer admits ([validate_coords]). *)
Definition in_range (p : point) : Prop :=
  -180 <= fst p <= 180 /\ -90 <= snd p <= 90.

(** The same Python value up to the insertion order of the items of its
    dicts: arrays agree item by item, dicts agree after a reordering. *)
Inductive json_eqv : json -> json -> Prop :=
| eqv_null : json_eqv JNull JNull
| eqv_bool (b : bool) : json_eqv (JBool b) (JBool b)
| eqv_int (n : Z) : json_eqv (JInt n) (JInt n)
| eqv_float (x : R) : json_eqv (JFloat x) (JFloat x)
| eqv_str (s : string) : json_eqv (JStr s) (JStr s)
| eqv_arr (xs ys : list json) :
    items_eqv xs ys -> json_eqv (JArr xs) (JArr ys)
| eqv_obj (fs gs gs' : list (string * json)) :
    fields_eqv fs gs' -> Permutation gs' gs -> json_eqv (JObj fs) (JObj gs)
with items_eqv : list json -> list json -> Prop :=
| items_nil : items_eqv [] []
| items_cons (x y : json) (xs ys : list json) :
    json_eqv x y -> items_eqv xs ys -> items_eqv (x :: xs) (y :: ys)
with fields_eqv : list (string * json) -> list (string * json) -> Prop :=
| fields_nil : fields_eqv [] []
| fields_cons (k : string) (v w : json) (fs gs : list (string * json)) :
    json_eqv v w -> fields_eqv fs gs -> fields_eqv ((k, v) :: fs) ((k, w) :: gs).

Scheme json_eqv_mut := Minimality for json_eqv Sort Prop
  with items_eqv_mut := Minimality for items_eqv Sort Prop
  with fields_eqv_mut := Minimality for fields_eqv Sort Prop.

(** Every dict inside the value has pairwise distinct keys, as every Python
    dict has. *)
Fixpoint unique_keys (j : json) : Prop :=
  match j with
  | JArr items =>
      (fix all (l : list json) : Prop :=
         match l with
         | [] => True
         | x :: l' => unique_keys x /\ all l'
         end) items
  | JObj fields =>
      NoDup (map fst fields) /\
      (fix all (l : list (string * json)) : Prop :=
         match l with
         | [] => True
         | kv :: l' => unique_keys (snd kv) /\ all l'
         end) fields
  | _ => True
  end.

(** Items ordered by key. *)
Definition key_le (a b : string * string) : Prop :=
  String.leb (fst a) (fst b) = true.

(** ** Sample inputs *)

(** Two points on the prime meridian, 0.01 degrees of latitude apart (about
    1112 m), and the same route with its first point repeated. *)
Definition sample_points : list point := [(0, 0); (0, 1 / 100)].
Definition sample_points_dup : list point := [(0, 0); (0, 0); (0, 1 / 100)].

(** A requested spacing of [1e-310] metres, a denormal double. *)
Definition denormal_spacing : R := / IZR (10 ^ 310).

Definition sample_raw (pts : list point) : RawRouteFeature :=
  MkFeature "1.0" "Feature" (MkGeometry "LineString" pts)
            (MkProperties None (Some "mobile"%string) None None None).

(** A [client] dict submitted with its two keys in either order, and the
    sample route carrying it. *)
Definition sample_client_ab : list (string * json) :=
  [("app"%string, JStr "ios"); ("build"%string, JInt 7)].
Definition sample_client_ba : list (string * json) :=
  [("build"%string, JInt 7); ("app"%string, JStr "ios")].

Definition sample_raw_client (d : list (string * json)) : RawRouteFeature :=
  MkFeature "1.0" "Feature" (MkGeometry "LineString" sample_points)
            (MkProperties None (Some "mobile"%string) None None (Some d)).

(** Stand-ins for the encoder and digest functions at the sample inputs. *)
Definition no_text {A : Type} (_ : A) : string := EmptyString.
Definition same_text (s : string) : string := s.

(* ================================================================== *)
(** ** app/models/route_models.py: the validator of raw coordinates *)
(* ================================================================== *)

(** The loop of [validate_coords].  A [ValueError] raised inside a field
    validator reaches the caller as a Pydantic [ValidationError]. *)
Fixpoint check_coords (coords : list point) : outcome unit :=
  match coords with
  | [] => Return tt
  | (lo, la) :: coords' =>
      if Rle_dec (-180) lo then
        if Rle_dec lo 180 then
          if Rle_dec (-90) la then
            if Rle_dec la 90 then check_coords coords'
            else Raise ValidationError
          else Raise ValidationError
        else Raise ValidationError
      else Raise ValidationError
  end.

Definition validate_coords (coords : list point) : outcome (list point) :=
  if (List.length coords <? 2)%nat then Raise ValidationError
  else check_coords coords ;;; Return coords.

(* ================================================================== *)
(** ** app/api/routes/routes.py *)
(* ================================================================== *)

(** What a call of [create_route] ends in: the [CreateRouteResponse] it
    returns, the [HTTPException] it raises, an exception it lets through, or
    nothing. *)
Inductive answer : Type :=
| Created (rid : string) (route : NormalizedRoute)
| HTTPException (status_code : nat) (detail : error)
| Uncaught (e : error)
| NoAnswer.

(** The errors [except ValueError] catches: all of the pipeline's but
    [IndexError] and [OverflowError] ([ValidationError] is a [ValueError] in Pydantic 2, and so is
    what [min] raises on an empty list). *)
Definition is_ValueError (e : error) : bool :=
  match e with
  | IndexError | OverflowError => false
  | _ => true
  end.

Section Endpoint.

Variable float_repr : R -> string.
Variable int_repr : Z -> string.
Variable encode_str : string -> string.
Variable sha256_hexdigest : string -> string.

(** [create_route]; [uuid4] is the text of the fresh [uuid.uuid4()]. *)
Definition create_route (fuel : nat) (uuid4 : string) (raw : RawRouteFeature)
  : answer :=
  match normalize_raw_route float_repr int_repr encode_str sha256_hexdigest
          fuel uuid4 raw None with
  | Return route => Created uuid4 route
  | Raise e => if is_ValueError e then HTTPException 400 e else Uncaught e
  | Diverge => NoAnswer
  end.

End Endpoint.

(* ================================================================== *)
(** ** More vocabulary *)
(* ================================================================== *)

(** The quotient [total // spacing] is a finite double. *)
Definition finite_quotient (total spacing : R) : Prop :=
  (Z.abs (Zfloor (total / spacing)) < FLOAT_OVERFLOW)%Z.

(** What [est_points] and [pick_spacing_m] return where they return. *)
Definition naive_estimate (total spacing : R) : Z :=
  (Zfloor (total / spacing) + 2)%Z.

Definition selected_spacing (total : R) (req : option R) : R :=
  let spacing := spacing_or_default req in
  if Rle_dec total 0 then spacing
  else if (naive_estimate total spacing <=? MAX_POINTS)%Z then spacing
  else total / IZR (Z.max 2 (MAX_POINTS - 1)).


(** The differences [t1 - t0, t2 - t1, ...] along a list that follows [t0]. *)
Fixpoint steps (t0 : R) (ts : list R) : list R :=
  match ts with
  | [] => []
  | t :: ts' => (t - t0) :: steps t ts'
  end.

(** The bearing from each normalized point to the next one. *)
Fixpoint forward_bearings (pts : list NormalizedPoint) : list R :=
  match pts with
  | p :: (q :: _) as pts' =>
      bearing_deg_true (lon p) (lat p) (lon q) (lat q) :: forward_bearings pts'
  | _ => []
  end.

(** [(lo, la)] lies inside the box [bb]. *)
Definition in_box (bb : bbox) (lo la : R) : Prop :=
  min_lon bb <= lo <= max_lon bb /\ min_lat bb <= la <= max_lat bb.

(** A polyline with no two equal neighbours. *)
Definition no_repeats (pts : list point) : Prop :=
  Forall (fun ab => fst ab <> snd ab) (adjacent_pairs pts).

(* ================================================================== *)
(** * Properties *)
(* ================================================================== *)

(** Walk through the checks of a constructor that returned: every failed
    check raises, so each decision in [H] went the passing way. *)
Ltac pass_checks H :=
  repeat match type of H with
         | (if ?c then _ else _) = _ => destruct c; [| discriminate]
         end.

(** ** Geo primitives *)

Lemma radians_0 : radians 0 = 0.
Proof. unfold radians; lra. Qed.

(** A point is at distance 0 from itself. *)
Lemma haversine_self (x y : R) : haversine_m x y x y = 0.
Proof.
  unfold haversine_m.
  replace (y - y) with 0 by lra.
  replace (x - x) with 0 by lra.
  rewrite radians_0.
  replace (0 / 2) with 0 by lra.
  rewrite sin_0.
  replace (0 ^ 2 + cos (radians y) * cos (radians y) * 0 ^ 2) with 0 by lra.
  rewrite sqrt_0, asin_0; lra.
Qed.

Lemma dist_self (p : point) : dist p p = 0.
Proof. unfold dist; apply haversine_self. Qed.

(** Python's remainder by a positive modulus lands in [[0, y)]. *)
Lemma pymod_range (x y : R) : 0 < y -> 0 <= pymod x y < y.
Proof.
  intros Hy; unfold pymod.
  destruct (Zfloor_bound (x / y)) as [Hlo Hhi].
  assert (Hx : x = (x / y) * y) by (field; lra).
  split.
  - assert (y * IZR (Zfloor (x / y)) <= y * (x / y))
      by (apply Rmult_le_compat_l; lra).
    lra.
  - assert (y * (x / y) < y * (IZR (Zfloor (x / y)) + 1))
      by (apply Rmult_lt_compat_l; lra).
    lra.
Qed.

Lemma bearing_range (alon alat blon blat : R) :
  0 <= bearing_deg_true alon alat blon blat < 360.
Proof. unfold bearing_deg_true; apply pymod_range; lra. Qed.

(** ** Lists *)

Lemma last_error_snoc {A : Type} (l : list A) (x : A) :
  last_error (l ++ [x]) = Some x.
Proof. unfold last_error; rewrite rev_app_distr; reflexivity. Qed.

Lemma last_error_last {A : Type} (l : list A) (d x : A) :
  last_error l = Some x -> last l d = x.
Proof.
  unfold last_error; intros H.
  destruct (rev l) as [| y r] eqn:E; [discriminate |].
  injection H as ->.
  rewrite <- (rev_involutive l), E; simpl.
  apply last_last.
Qed.


Lemma last_error_cons {A : Type} (x y : A) (l : list A) :
  last_error (x :: y :: l) = last_error (y :: l).
Proof.
  unfold last_error; simpl.
  destruct (rev l ++ [y]) as [| z r] eqn:E.
  - destruct (rev l); discriminate.
  - reflexivity.
Qed.

Lemma fold_left_Rplus_acc (xs : list R) (acc : R) :
  fold_left Rplus xs acc = acc + fold_left Rplus xs 0.
Proof.
  revert acc; induction xs as [| x xs IH]; intros acc; simpl.
  - lra.
  - rewrite IH, (IH (0 + x)); lra.
Qed.

Lemma sum_list_cons (x : R) (xs : list R) :
  sum_list (x :: xs) = x + sum_list xs.
Proof.
  unfold sum_list; simpl.
  rewrite fold_left_Rplus_acc; lra.
Qed.

Lemma sum_list_app (xs ys : list R) :
  sum_list (xs ++ ys) = sum_list xs + sum_list ys.
Proof.
  induction xs as [| x xs IH]; simpl.
  - unfold sum_list at 2; simpl; lra.
  - rewrite !sum_list_cons, IH; lra.
Qed.

Lemma sum_list_nonneg (xs : list R) :
  Forall (fun x => 0 <= x) xs -> 0 <= sum_list xs.
Proof.
  induction 1 as [| x xs Hx _ IH].
  - unfold sum_list; simpl; lra.
  - rewrite sum_list_cons; lra.
Qed.

(** A sum of non-negative numbers that is not positive has only zeros. *)
Lemma sum_list_zero (xs : list R) :
  Forall (fun x => 0 <= x) xs -> sum_list xs <= 0 -> Forall (fun x => x = 0) xs.
Proof.
  induction 1 as [| x xs Hx Hxs IH]; intros Hs.
  - constructor.
  - rewrite sum_list_cons in Hs.
    pose proof (sum_list_nonneg xs Hxs).
    constructor; [lra | apply IH; lra].
Qed.

(** ** Segments of a polyline *)

Lemma polyline_loop_sum (rest : list point) (acc : R) (prev : point) :
  polyline_loop acc prev rest
  = acc + sum_list (map seg_len (build_segs prev rest)).
Proof.
  revert acc prev; induction rest as [| b rest IH]; intros acc prev; simpl.
  - unfold sum_list; simpl; lra.
  - rewrite IH, sum_list_cons; simpl; lra.
Qed.

(** The resampler's [total] is the polyline length. *)
Lemma polyline_length_segments (pts : list point) :
  polyline_length_m pts = sum_list (map seg_len (segments pts)).
Proof.
  destruct pts as [| a rest]; simpl.
  - reflexivity.
  - rewrite polyline_loop_sum; lra.
Qed.

Lemma chain_build_segs (rest : list point) (prev : point) :
  chain_from prev (build_segs prev rest).
Proof.
  revert prev; induction rest as [| b rest IH]; intros prev; simpl.
  - exact I.
  - split.
    + unfold seg_a; simpl; destruct prev; reflexivity.
    + replace (seg_b _) with b by (unfold seg_b; simpl; destruct b; reflexivity).
      apply IH.
Qed.

Lemma length_build_segs (rest : list point) (prev : point) :
  List.length (build_segs prev rest) = List.length rest.
Proof.
  revert prev; induction rest as [| b rest IH]; intros prev; simpl;
    [reflexivity | now rewrite IH].
Qed.

(** The end of the last segment is the last point. *)
Lemma last_build_segs (rest : list point) (prev : point) (s0 : segment) :
  rest <> [] ->
  seg_b (last (build_segs prev rest) s0) = last rest prev.
Proof.
  revert prev; induction rest as [| b rest IH]; intros prev Hne.
  - contradiction.
  - destruct rest as [| c rest'].
    + simpl; unfold seg_b; simpl; destruct b; reflexivity.
    + change (build_segs prev (b :: c :: rest'))
        with (MkSeg (fst prev) (snd prev) (fst b) (snd b) (dist prev b)
                :: build_segs b (c :: rest')).
      change (last (b :: c :: rest') prev) with (last (c :: rest') prev).
      assert (Hl : forall d, last (c :: rest') d = last (c :: rest') b).
      { intros d; clear; revert c; induction rest' as [| e r IHr]; intros c;
          [reflexivity |].
        change (last (c :: e :: r) d) with (last (e :: r) d).
        change (last (c :: e :: r) b) with (last (e :: r) b).
        apply IHr. }
      rewrite (Hl prev), <- IH by discriminate.
      destruct (build_segs b (c :: rest')) eqn:E; [discriminate E | reflexivity].
Qed.

(** What a passed segment check says about each adjacent pair. *)
Lemma check_segments_ok (rest : list point) (prev : point) :
  check_segments prev rest = Return tt <->
  Forall (fun ab => 0 < dist (fst ab) (snd ab) <= MAX_SEGMENT_M)
         (pairs_from prev rest).
Proof.
  revert prev; induction rest as [| b rest IH]; intros prev; simpl.
  - split; [constructor | reflexivity].
  - destruct (Rle_dec (dist prev b) 0) as [H0 | H0].
    + split; [discriminate |].
      intros H; inversion H; subst; simpl in *; lra.
    + destruct (Rgt_dec (dist prev b) MAX_SEGMENT_M) as [H1 | H1].
      * split; [discriminate |].
        intros H; inversion H; subst; simpl in *; lra.
      * rewrite IH; split.
        -- intros H; constructor; [simpl; lra | exact H].
        -- intros H; inversion H; assumption.
Qed.

(** Segments of the raw points, when the de-duplicated points pass the
    segment check: a raw segment of length 0 joins two equal points. *)
Lemma raw_segments_ok (rest : list point) (prev : point) :
  check_segments prev (dedupe_after prev rest) = Return tt ->
  Forall seg_ok (build_segs prev rest).
Proof.
  revert prev; induction rest as [| p rest IH]; intros prev H; simpl.
  - constructor.
  - simpl in H.
    destruct (point_eq_dec p prev) as [-> | Hne].
    + constructor; [| apply IH; exact H].
      unfold seg_ok, seg_a, seg_b; simpl.
      rewrite dist_self; split; [lra | reflexivity].
    + simpl in H.
      destruct (Rle_dec (dist prev p) 0) as [H0 | H0]; [discriminate |].
      destruct (Rgt_dec (dist prev p) MAX_SEGMENT_M); [discriminate |].
      constructor; [| apply IH; exact H].
      unfold seg_ok; simpl; split; [lra | intros; lra].
Qed.

(** The segments of the de-duplicated points are the raw segments of
    non-zero length. *)
Lemma dedupe_segments (rest : list point) (prev : point) :
  check_segments prev (dedupe_after prev rest) = Return tt ->
  build_segs prev (dedupe_after prev rest)
  = filter nonzero (build_segs prev rest).
Proof.
  revert prev; induction rest as [| p rest IH]; intros prev H; simpl.
  - reflexivity.
  - simpl in H.
    destruct (point_eq_dec p prev) as [-> | Hne].
    + unfold nonzero at 1; simpl.
      rewrite dist_self.
      destruct (Req_dec_T 0 0) as [_ | Hc]; [| contradiction].
      apply IH; exact H.
    + simpl in H |- *.
      destruct (Rle_dec (dist prev p) 0) as [H0 | H0]; [discriminate |].
      destruct (Rgt_dec (dist prev p) MAX_SEGMENT_M); [discriminate |].
      unfold nonzero at 1; simpl.
      destruct (Req_dec_T (dist prev p) 0) as [Hz | _]; [lra |].
      f_equal; apply IH; exact H.
Qed.

Lemma sum_filter_nonzero (segs : list segment) :
  sum_list (map seg_len (filter nonzero segs)) = sum_list (map seg_len segs).
Proof.
  induction segs as [| s segs IH]; simpl.
  - reflexivity.
  - unfold nonzero at 1.
    destruct (Req_dec_T (seg_len s) 0) as [Hz | Hz]; simpl.
    + rewrite sum_list_cons, IH; lra.
    + rewrite !sum_list_cons, IH; lra.
Qed.

(** What a passed guardrail validation says. *)
Lemma validate_ok_inv (pts : list point) :
  validate_route_guardrails pts = Return tt ->
  exists a rest,
    pts = a :: rest /\
    check_segments a (dedupe_after a rest) = Return tt /\
    (2 <= List.length (dedupe pts))%nat /\
    MIN_ROUTE_M <= polyline_length_m (dedupe pts) <= MAX_ROUTE_M.
Proof.
  unfold validate_route_guardrails.
  destruct pts as [| a rest]; [discriminate |].
  intros H; exists a, rest.
  destruct (List.length (dedupe (a :: rest)) <? 2)%nat eqn:Hlen;
    [discriminate |].
  apply Nat.ltb_ge in Hlen.
  change (dedupe (a :: rest)) with (a :: dedupe_after a rest) in *.
  destruct (check_segments a (dedupe_after a rest)) as [[] | e |] eqn:Hc;
    cbn [bind] in H; try discriminate.
  destruct (Rlt_dec _ MIN_ROUTE_M); [discriminate |].
  destruct (Rgt_dec _ MAX_ROUTE_M); [discriminate |].
  repeat split; try assumption; lra.
Qed.

Lemma dedupe_length_sum (pts : list point) :
  validate_route_guardrails pts = Return tt ->
  polyline_length_m (dedupe pts) = polyline_length_m pts.
Proof.
  intros H; destruct (validate_ok_inv pts H) as (a & rest & -> & Hc & _ & _).
  rewrite !polyline_length_segments; simpl.
  rewrite (dedupe_segments rest a Hc); apply sum_filter_nonzero.
Qed.

(** A validated route has a total length within the guardrails, so positive. *)
Lemma validate_total (pts : list point) :
  validate_route_guardrails pts = Return tt ->
  MIN_ROUTE_M <= sum_list (map seg_len (segments pts)) <= MAX_ROUTE_M.
Proof.
  intros H; rewrite <- polyline_length_segments, <- (dedupe_length_sum pts H).
  destruct (validate_ok_inv pts H) as (a & rest & _ & _ & _ & Hb); exact Hb.
Qed.

(** ** The target generator *)

(** The targets the loop appends are [d], [d + spacing], ... as long as they
    stay below [total]. *)
Lemma targets_loop_spec (fuel : nat) (spacing total : R) :
  forall (d : R) (acc ts : list R),
    targets_loop fuel spacing total d acc = Return ts ->
    exists n : nat,
      ts = acc ++ map (fun j => d + INR j * spacing) (seq 0 n) /\
      (forall j, (j < n)%nat -> d + INR j * spacing < total) /\
      ~ d + INR n * spacing < total.
Proof.
  induction fuel as [| fuel IH]; intros d acc ts H; simpl in H.
  - discriminate.
  - destruct (Rlt_dec d total) as [Hlt | Hge].
    + destruct (IH _ _ _ H) as (n & Hts & Hbelow & Hstop).
      exists (S n); split; [| split].
      * rewrite Hts, <- app_assoc; f_equal.
        cbn [seq map app].
        rewrite <- seq_shift, map_map.
        f_equal; [simpl; lra |].
        apply map_ext; intros j; rewrite S_INR; lra.
      * intros [| j] Hj; [simpl; lra |].
        specialize (Hbelow j ltac:(lia)).
        rewrite S_INR; lra.
      * rewrite S_INR; intros Hc; apply Hstop; lra.
    + injection H as <-.
      exists 0%nat; split; [| split].
      * simpl; now rewrite app_nil_r.
      * intros j Hj; lia.
      * simpl; lra.
Qed.

(** More fuel does not change a returned list of targets. *)
Lemma targets_loop_fuel_mono (fuel extra : nat) (spacing total : R) :
  forall (d : R) (acc ts : list R),
    targets_loop fuel spacing total d acc = Return ts ->
    targets_loop (fuel + extra) spacing total d acc = Return ts.
Proof.
  induction fuel as [| fuel IH]; intros d acc ts H; simpl in H |- *.
  - discriminate.
  - destruct (Rlt_dec d total); [apply IH |]; exact H.
Qed.

(** With a positive spacing the loop stops within [k] rounds once
    [k * spacing] covers what is left. *)
Lemma targets_loop_terminates (spacing total : R) (k : nat) :
  0 < spacing ->
  forall (d : R) (acc : list R) (fuel : nat),
    total - d <= INR k * spacing ->
    (k < fuel)%nat ->
    exists ts, targets_loop fuel spacing total d acc = Return ts.
Proof.
  intros Hs; induction k as [| k IH]; intros d acc fuel Hk Hf;
    (destruct fuel as [| fuel]; [lia |]); simpl.
  - destruct (Rlt_dec d total) as [Hlt | Hge]; [simpl in Hk; lra |].
    now exists acc.
  - destruct (Rlt_dec d total) as [Hlt | Hge]; [| now exists acc].
    apply IH; [| lia].
    rewrite S_INR in Hk; lra.
Qed.

Lemma nat_above (r : R) : exists k : nat, r <= INR k.
Proof.
  destruct (archimed r) as [Hup _].
  exists (Z.to_nat (up r)).
  destruct (Z_lt_le_dec (up r) 0) as [Hneg | Hpos].
  - apply IZR_lt in Hneg.
    pose proof (pos_INR (Z.to_nat (up r))); lra.
  - rewrite INR_IZR_INZ, Z2Nat.id by exact Hpos; lra.
Qed.

(** The list of targets of a route of positive length: 0, the multiples of
    the spacing below the total, and the total. *)
Lemma build_targets_spec (fuel : nat) (spacing total : R) (ts : list R) :
  0 < total ->
  build_targets fuel spacing total = Return ts ->
  exists n : nat,
    ts = (0 :: map (fun j => spacing + INR j * spacing) (seq 0 n)) ++ [total] /\
    (forall j, (j < n)%nat -> spacing + INR j * spacing < total) /\
    ~ spacing + INR n * spacing < total /\
    ((0 < n)%nat -> 0 < spacing).
Proof.
  intros Htot H; unfold build_targets in H.
  destruct (targets_loop fuel spacing total spacing [0]) as [l | e |] eqn:Hl;
    simpl in H; try discriminate.
  injection H as <-.
  destruct (targets_loop_spec _ _ _ _ _ _ Hl) as (n & -> & Hbelow & Hstop).
  exists n.
  assert (Hpos : (0 < n)%nat -> 0 < spacing).
  { intros Hn.
    pose proof (Hbelow 0%nat Hn) as H0; simpl in H0.
    destruct (Rlt_dec 0 spacing) as [Hp | Hnp]; [exact Hp | exfalso].
    apply Hstop.
    assert (0 <= INR n) by apply pos_INR.
    assert (INR n * spacing <= 0) by nra.
    lra. }
  assert (Hlast : last ([0] ++ map (fun j => spacing + INR j * spacing) (seq 0 n)) 0
                  <> total).
  { destruct n as [| n].
    - simpl; lra.
    - rewrite seq_S, map_app, app_assoc; simpl map.
      rewrite last_last.
      pose proof (Hbelow n ltac:(lia)); simpl in *; lra. }
  destruct (Req_dec_T _ total) as [Heq | _]; [contradiction |].
  repeat split; assumption.
Qed.

(** Targets are in non-decreasing order and start at 0. *)
Lemma build_targets_sorted (fuel : nat) (spacing total : R) (ts : list R) :
  0 < total ->
  build_targets fuel spacing total = Return ts ->
  Sorted Rle ts /\ hd_error ts = Some 0 /\ last_error ts = Some total.
Proof.
  intros Htot H.
  destruct (build_targets_spec _ _ _ _ Htot H) as (n & -> & Hbelow & _ & Hpos).
  split; [| split; [reflexivity | apply last_error_snoc]].
  assert (Hgen : forall m k lo,
             ((0 < m)%nat -> lo <= spacing + INR k * spacing) ->
             (forall j, (j < k + m)%nat -> spacing + INR j * spacing < total) ->
             ((0 < m)%nat -> 0 < spacing) ->
             lo <= total ->
             Sorted Rle
               ((lo :: map (fun j => spacing + INR j * spacing) (seq k m))
                  ++ [total])).
  { induction m as [| m IHm]; intros k lo Hlo Hb Hp Hlt; simpl.
    - apply Sorted_cons; [| apply HdRel_cons; exact Hlt].
      apply Sorted_cons; [apply Sorted_nil | apply HdRel_nil].
    - specialize (Hp ltac:(lia)); specialize (Hlo ltac:(lia)).
      apply Sorted_cons; [| apply HdRel_cons; exact Hlo].
      apply IHm.
      + intros _; rewrite S_INR; nra.
      + intros j Hj; apply Hb; lia.
      + intros _; exact Hp.
      + pose proof (Hb k ltac:(lia)); lra. }
  apply Hgen.
  - intros Hn; specialize (Hpos Hn); simpl; lra.
  - exact Hbelow.
  - exact Hpos.
  - lra.
Qed.

Lemma build_targets_length (fuel : nat) (spacing total : R) (ts : list R) :
  0 < total ->
  build_targets fuel spacing total = Return ts ->
  (2 <= List.length ts)%nat.
Proof.
  intros Htot H.
  destruct (build_targets_spec _ _ _ _ Htot H) as (n & -> & _).
  rewrite length_app; simpl; lia.
Qed.

(** With a positive spacing the target generator returns. *)
Lemma build_targets_terminates (spacing total : R) :
  0 < spacing ->
  exists fuel0, forall fuel, (fuel0 <= fuel)%nat ->
    exists ts, build_targets fuel spacing total = Return ts.
Proof.
  intros Hs.
  destruct (nat_above ((total - spacing) / spacing)) as [k Hk].
  exists (S k); intros fuel Hf.
  destruct (targets_loop_terminates spacing total k Hs spacing [0] fuel)
    as [ts Hts]; [| lia |].
  - apply (Rmult_le_compat_r spacing) in Hk; [| lra].
    replace ((total - spacing) / spacing * spacing) with (total - spacing) in Hk
      by (field; lra).
    exact Hk.
  - unfold build_targets; rewrite Hts; simpl; eauto.
Qed.

(** ** The emitting loop *)

(** One sample per target, carrying the target as its cumulative distance. *)
Lemma emit_cum (sl : segment) (ts : list R) :
  forall rest start lc out,
    map s_cum_dist (emit sl rest start lc out ts) = map s_cum_dist out ++ ts.
Proof.
  induction ts as [| t ts IH]; intros rest start lc out; simpl.
  - now rewrite app_nil_r.
  - destruct (advance rest start t) as [rest1 start1].
    destruct (locate sl rest1 start1 t) as [lo la].
    rewrite IH, map_app, <- app_assoc; reflexivity.
Qed.

Lemma emit_length (sl : segment) (ts : list R) rest start lc out :
  List.length (emit sl rest start lc out ts)
  = (List.length out + List.length ts)%nat.
Proof.
  rewrite <- (length_map s_cum_dist), emit_cum, length_app, length_map.
  reflexivity.
Qed.

(** Samples already emitted stay in front. *)
Lemma emit_prefix (sl : segment) (ts : list R) :
  forall rest start lc out,
    exists more, emit sl rest start lc out ts = out ++ more.
Proof.
  induction ts as [| t ts IH]; intros rest start lc out; simpl.
  - exists []; now rewrite app_nil_r.
  - destruct (advance rest start t) as [rest1 start1].
    destruct (locate sl rest1 start1 t) as [lo la].
    destruct (IH rest1 start1 t (out ++ [MkSample la lo
               match out with [] => 0 | _ :: _ => t - lc end t]))
      as [more Hm].
    rewrite Hm, <- app_assoc; eauto.
Qed.

(** The sample of the last target is located from the cursor the earlier
    targets leave behind. *)
Lemma emit_snoc (sl : segment) (ts : list R) (t : R) :
  forall rest start lc out,
    exists sd,
      emit sl rest start lc out (ts ++ [t])
      = emit sl rest start lc out ts
          ++ [let c := cursor_after rest start ts in
              let c1 := advance (fst c) (snd c) t in
              let p := locate sl (fst c1) (snd c1) t in
              MkSample (snd p) (fst p) sd t].
Proof.
  induction ts as [| t0 ts IH]; intros rest start lc out; simpl.
  - unfold cursor_after; simpl.
    destruct (advance rest start t) as [rest1 start1]; simpl.
    destruct (locate sl rest1 start1 t) as [lo la]; simpl.
    eexists; reflexivity.
  - unfold cursor_after; simpl.
    destruct (advance rest start t0) as [rest1 start1]; simpl.
    destruct (locate sl rest1 start1 t0) as [lo la].
    apply IH.
Qed.

(** Segment distances are differences of consecutive targets. *)
Lemma emit_seg_nonneg (sl : segment) (ts : list R) :
  forall rest start lc out,
    Sorted Rle ts ->
    out = [] \/ HdRel Rle lc ts ->
    Forall (fun s => 0 <= s_seg_dist s) out ->
    Forall (fun s => 0 <= s_seg_dist s) (emit sl rest start lc out ts).
Proof.
  induction ts as [| t ts IH]; intros rest start lc out Hs Hlc Hout; simpl.
  - exact Hout.
  - destruct (advance rest start t) as [rest1 start1].
    destruct (locate sl rest1 start1 t) as [lo la].
    apply Sorted_inv in Hs; destruct Hs as [Hs Hhd].
    apply IH; [exact Hs | right; exact Hhd |].
    apply Forall_app; split; [exact Hout |].
    constructor; [| constructor]; simpl.
    destruct out as [| o out']; [lra |].
    destruct Hlc as [Hc | Hc]; [discriminate |].
    apply HdRel_inv in Hc; lra.
Qed.

(** ** The cursor *)

Lemma advance_cursor_ok (segs : list segment) (t : R) :
  forall rest start,
    cursor_ok segs rest start ->
    cursor_ok segs (fst (advance rest start t)) (snd (advance rest start t)).
Proof.
  induction rest as [| s rest IH]; intros start Hc; simpl.
  - exact Hc.
  - destruct (Rlt_dec (start + seg_len s) t); [| exact Hc].
    apply IH.
    destruct Hc as (pre & -> & ->).
    exists (pre ++ [s]); split.
    + now rewrite <- app_assoc.
    + rewrite map_app, sum_list_app; simpl.
      rewrite sum_list_cons; unfold sum_list at 3; simpl; lra.
Qed.

Lemma cursor_after_ok (segs : list segment) (ts : list R) :
  forall rest start,
    cursor_ok segs rest start ->
    cursor_ok segs (fst (cursor_after rest start ts))
              (snd (cursor_after rest start ts)).
Proof.
  unfold cursor_after.
  induction ts as [| t ts IH]; intros rest start Hc; simpl.
  - exact Hc.
  - pose proof (advance_cursor_ok segs t rest start Hc) as Hc1.
    destruct (advance rest start t) as [rest1 start1]; simpl in *.
    apply IH; exact Hc1.
Qed.

(** Where the inner loop stops: at the end, or on a segment that reaches [t]. *)
Lemma advance_stop (t : R) :
  forall rest start,
    match fst (advance rest start t) with
    | [] => True
    | s :: _ => ~ snd (advance rest start t) + seg_len s < t
    end.
Proof.
  induction rest as [| s rest IH]; intros start; simpl.
  - exact I.
  - destruct (Rlt_dec (start + seg_len s) t) as [Hlt | Hge].
    + apply IH.
    + simpl; exact Hge.
Qed.

(** ** Chains of segments *)

Lemma chain_app (pre rest : list segment) (p : point) :
  chain_from p (pre ++ rest) -> exists q, chain_from q rest.
Proof.
  revert p; induction pre as [| s pre IH]; intros p H; simpl in *.
  - eauto.
  - destruct H as [_ H]; eauto.
Qed.

Lemma last_app_cons {A : Type} (pre : list A) (x : A) (l : list A) (d : A) :
  last (pre ++ x :: l) d = last (x :: l) d.
Proof.
  induction pre as [| y pre IH]; [reflexivity |].
  change ((y :: pre) ++ x :: l) with (y :: (pre ++ x :: l)).
  destruct (pre ++ x :: l) eqn:E.
  - destruct pre; discriminate E.
  - rewrite <- E in *. rewrite <- IH.
    rewrite E; reflexivity.
Qed.

Lemma last_cons_default {A : Type} (x : A) (l : list A) (d1 d2 : A) :
  last (x :: l) d1 = last (x :: l) d2.
Proof.
  revert x; induction l as [| y l IH]; intros x; [reflexivity |].
  change (last (x :: y :: l) d1) with (last (y :: l) d1).
  change (last (x :: y :: l) d2) with (last (y :: l) d2).
  apply IH.
Qed.

(** Behind a segment there are only segments of length 0: the route ends
    where that segment ends. *)
Lemma chain_zero_tail (tl : list segment) :
  forall (s d : segment),
    chain_from (seg_b s) tl ->
    Forall seg_ok tl ->
    Forall (fun x => seg_len x = 0) tl ->
    seg_b (last (s :: tl) d) = seg_b s.
Proof.
  induction tl as [| x tl IH]; intros s d Hch Hok Hz.
  - reflexivity.
  - change (last (s :: x :: tl) d) with (last (x :: tl) d).
    destruct Hch as [Ha Hch].
    inversion Hok as [| ? ? [_ Hx] Hok']; subst.
    inversion Hz as [| ? ? Hx0 Hz']; subst.
    rewrite (IH x d Hch Hok' Hz'), <- (Hx Hx0); exact Ha.
Qed.

Lemma filter_nonzero_nil (l : list segment) :
  filter nonzero l = [] -> Forall (fun x => seg_len x = 0) l.
Proof.
  induction l as [| x l IH]; simpl; intros H.
  - constructor.
  - unfold nonzero in H at 1.
    destruct (Req_dec_T (seg_len x) 0) as [Hz | Hz]; [| discriminate].
    constructor; auto.
Qed.

(** The first segment of non-zero length after [p] starts at [p]. *)
Lemma first_nonzero_start (tl : list segment) :
  forall (p : point) (h : segment) (more : list segment),
    chain_from p tl ->
    Forall seg_ok tl ->
    filter nonzero tl = h :: more ->
    seg_a h = p /\ seg_len h <> 0.
Proof.
  induction tl as [| x tl IH]; intros p h more Hch Hok Hf; simpl in Hf.
  - discriminate.
  - destruct Hch as [Ha Hch].
    inversion Hok as [| ? ? [_ Hx] Hok']; subst.
    unfold nonzero in Hf at 1.
    destruct (Req_dec_T (seg_len x) 0) as [Hz | Hz].
    + rewrite <- (Hx Hz) in Hch.
      apply (IH _ _ _ Hch Hok' Hf).
    + injection Hf as <- _; split; [reflexivity | exact Hz].
Qed.

(** Dropping the segments of length 0 keeps the end of the route. *)
Lemma last_filter_nonzero (segs : list segment) :
  forall (p : point) (d1 d2 : segment),
    chain_from p segs ->
    Forall seg_ok segs ->
    filter nonzero segs <> [] ->
    seg_b (last (filter nonzero segs) d1) = seg_b (last segs d2).
Proof.
  induction segs as [| s tl IH]; intros p d1 d2 Hch Hok Hne.
  - contradiction.
  - destruct Hch as [_ Hch].
    inversion Hok as [| ? ? Hs Hok']; subst.
    destruct (filter nonzero tl) as [| h more] eqn:Hf.
    + simpl in Hne |- *; rewrite Hf in Hne |- *.
      destruct (nonzero s); [| contradiction].
      symmetry; apply chain_zero_tail; auto using filter_nonzero_nil.
    + destruct tl as [| x tl']; [discriminate Hf |].
      change (last (s :: x :: tl') d2) with (last (x :: tl') d2).
      rewrite <- (IH (seg_b s) d1 d2 Hch Hok' ltac:(discriminate)).
      change (filter nonzero (s :: x :: tl'))
        with (if nonzero s then s :: filter nonzero (x :: tl')
              else filter nonzero (x :: tl')).
      rewrite Hf; destruct (nonzero s); reflexivity.
Qed.

(** ** The last target *)

(** At the target [total] the cursor stops on a segment that ends where the
    route ends, and the interpolation fraction there is 1. *)
Lemma locate_total (segs rest : list segment) (start : R) (p0 : point)
  (d : segment) :
  chain_from p0 segs ->
  Forall seg_ok segs ->
  cursor_ok segs rest start ->
  let total := sum_list (map seg_len segs) in
  let c := advance rest start total in
  locate (last segs d) (fst c) (snd c) total = seg_b (last segs d).
Proof.
  intros Hch Hok Hc total c.
  pose proof (advance_cursor_ok segs total rest start Hc) as Hc1.
  pose proof (advance_stop total rest start) as Hstop.
  fold c in Hc1, Hstop.
  destruct c as [rest1 start1]; simpl in *.
  destruct rest1 as [| s tl]; [reflexivity |].
  destruct Hc1 as (pre & Hsegs & Hstart).
  assert (Htot : total = start1 + seg_len s + sum_list (map seg_len tl)).
  { unfold total; rewrite Hsegs, map_app, sum_list_app; simpl map.
    rewrite sum_list_cons; lra. }
  assert (Hok_tl : Forall seg_ok tl).
  { rewrite Hsegs in Hok; apply Forall_app in Hok; destruct Hok as [_ Hok].
    inversion Hok; assumption. }
  assert (Hnn : Forall (fun x => 0 <= x) (map seg_len tl)).
  { apply Forall_map; eapply Forall_impl; [| exact Hok_tl].
    intros x [Hx _]; exact Hx. }
  pose proof (sum_list_nonneg _ Hnn) as Hsum.
  assert (Hz : Forall (fun x => seg_len x = 0) tl).
  { apply Forall_map with (f := seg_len) (P := fun x => x = 0).
    apply sum_list_zero; [exact Hnn | lra]. }
  assert (Hend : seg_b (last segs d) = seg_b s).
  { rewrite Hsegs, last_app_cons.
    rewrite Hsegs in Hch; apply chain_app in Hch; destruct Hch as [q [_ Hch]].
    apply chain_zero_tail; assumption. }
  rewrite Hend; unfold locate, seg_b.
  destruct (Req_dec_T (seg_len s) 0) as [H0 | H0]; [reflexivity |].
  assert (Hfrac : (total - start1) / seg_len s = 1) by (field_simplify_eq; lra).
  rewrite Hfrac; f_equal; lra.
Qed.

(** ** Segments of length 0 do not change what is emitted *)

(** A cursor that has reached [t] does not move past a segment of positive
    length. *)
Lemma advance_stay (l : list segment) (start t : R) :
  Forall seg_ok l ->
  t <= start ->
  advance (filter nonzero l) start t = (filter nonzero l, start).
Proof.
  intros Hok Ht.
  destruct (filter nonzero l) as [| h more] eqn:Hf; [reflexivity |].
  assert (Hin : In h (filter nonzero l)) by (rewrite Hf; now left).
  apply filter_In in Hin; destruct Hin as [Hin _].
  rewrite Forall_forall in Hok; destruct (Hok h Hin) as [Hh _].
  simpl; destruct (Rlt_dec (start + seg_len h) t); [lra | reflexivity].
Qed.

Lemma filter_nonzero_cons (s : segment) (rest : list segment) :
  filter nonzero (s :: rest)
  = if Req_dec_T (seg_len s) 0 then filter nonzero rest
    else s :: filter nonzero rest.
Proof.
  simpl; unfold nonzero at 1.
  destruct (Req_dec_T (seg_len s) 0); reflexivity.
Qed.

Lemma advance_suffix (t : R) :
  forall (rest : list segment) (start : R),
    exists skipped, rest = skipped ++ fst (advance rest start t).
Proof.
  induction rest as [| s rest IH]; intros start; simpl.
  - now exists [].
  - destruct (Rlt_dec (start + seg_len s) t).
    + destruct (IH (start + seg_len s)) as [sk Hsk].
      exists (s :: sk); simpl; now rewrite <- Hsk.
    + now exists [].
Qed.

Lemma advance_filter (t : R) :
  forall (rest : list segment) (start : R),
    Forall seg_ok rest ->
    start <= t ->
    advance (filter nonzero rest) start t
    = (filter nonzero (fst (advance rest start t)), snd (advance rest start t))
    /\ snd (advance rest start t) <= t.
Proof.
  induction rest as [| s rest IH]; intros start Hok Hst.
  - simpl; split; [reflexivity | exact Hst].
  - inversion Hok as [| ? ? [Hs0 Hs] Hok']; subst.
    cbn [advance].
    destruct (Rlt_dec (start + seg_len s) t) as [Hlt | Hge]; cbn [fst snd].
    + destruct (IH (start + seg_len s) Hok' ltac:(lra)) as [IH1 IH2].
      split; [| exact IH2].
      rewrite filter_nonzero_cons.
      destruct (Req_dec_T (seg_len s) 0) as [Hz | Hz].
      * rewrite <- IH1; f_equal; lra.
      * cbn [advance].
        destruct (Rlt_dec (start + seg_len s) t); [exact IH1 | contradiction].
    + split; [| exact Hst].
      rewrite filter_nonzero_cons.
      destruct (Req_dec_T (seg_len s) 0) as [Hz | Hz].
      * apply advance_stay; [exact Hok' | lra].
      * cbn [advance].
        destruct (Rlt_dec (start + seg_len s) t); [contradiction | reflexivity].
Qed.

Lemma locate_filter (segs rest : list segment) (start t : R) (p0 : point)
  (d1 d2 : segment) :
  chain_from p0 segs ->
  Forall seg_ok segs ->
  filter nonzero segs <> [] ->
  (exists pre, segs = pre ++ rest) ->
  start <= t ->
  match rest with [] => True | s :: _ => ~ start + seg_len s < t end ->
  locate (last (filter nonzero segs) d1) (filter nonzero rest) start t
  = locate (last segs d2) rest start t.
Proof.
  intros Hch Hok Hne [pre Hsegs] Hst Hstop.
  pose proof (last_filter_nonzero segs p0 d1 d2 Hch Hok Hne) as Hlast.
  destruct rest as [| s tl].
  - simpl; unfold seg_b in Hlast; exact Hlast.
  - assert (Hch' : chain_from (seg_b s) tl).
    { rewrite Hsegs in Hch; apply chain_app in Hch.
      destruct Hch as [q [_ Hch]]; exact Hch. }
    assert (Hok' : Forall seg_ok tl).
    { rewrite Hsegs in Hok; apply Forall_app in Hok; destruct Hok as [_ Hok].
      inversion Hok; assumption. }
    rewrite filter_nonzero_cons; cbn [locate].
    destruct (Req_dec_T (seg_len s) 0) as [Hz | Hz].
    + (* the cursor rests on a segment of length 0, so [start = t] *)
      assert (Heq : start = t) by lra.
      destruct (filter nonzero tl) as [| h more] eqn:Hf.
      * change (seg_b (last (filter nonzero segs) d1) = seg_b s).
        rewrite Hlast, Hsegs, last_app_cons.
        apply chain_zero_tail; auto using filter_nonzero_nil.
      * destruct (first_nonzero_start tl _ h more Hch' Hok' Hf) as [Ha Hh].
        cbn [locate].
        destruct (Req_dec_T (seg_len h) 0) as [Hc | _]; [contradiction |].
        unfold seg_a, seg_b in Ha; injection Ha as Ha1 Ha2.
        rewrite Heq, <- Ha1, <- Ha2.
        replace ((t - t) / seg_len h) with 0 by (field; exact Hh).
        f_equal; lra.
    + cbn [locate].
      destruct (Req_dec_T (seg_len s) 0) as [Hc | _]; [contradiction |].
      reflexivity.
Qed.

Lemma emit_filter (segs : list segment) (p0 : point) (d1 d2 : segment)
  (ts : list R) :
  chain_from p0 segs ->
  Forall seg_ok segs ->
  filter nonzero segs <> [] ->
  forall rest start lc out,
    (exists pre, segs = pre ++ rest) ->
    Sorted Rle ts ->
    HdRel Rle start ts ->
    emit (last (filter nonzero segs) d1) (filter nonzero rest) start lc out ts
    = emit (last segs d2) rest start lc out ts.
Proof.
  intros Hch Hok Hne.
  induction ts as [| t ts IH]; intros rest start lc out Hsuf Hs Hhd.
  - reflexivity.
  - apply HdRel_inv in Hhd.
    apply Sorted_inv in Hs; destruct Hs as [Hs Hhd'].
    assert (Hok_rest : Forall seg_ok rest).
    { destruct Hsuf as [pre ->]; apply Forall_app in Hok; tauto. }
    destruct (advance_filter t rest start Hok_rest Hhd) as [Hadv Hle].
    pose proof (advance_stop t rest start) as Hstop.
    assert (Hsuf1 : exists pre, segs = pre ++ fst (advance rest start t)).
    { destruct Hsuf as [pre Hp].
      destruct (advance_suffix t rest start) as [sk Hsk].
      exists (pre ++ sk); rewrite <- app_assoc, <- Hsk; exact Hp. }
    simpl emit.
    rewrite Hadv.
    destruct (advance rest start t) as [rest1 start1]; simpl in *.
    rewrite (locate_filter segs rest1 start1 t p0 d1 d2) by assumption.
    destruct (locate (last segs d2) rest1 start1 t) as [lo la].
    apply IH; [exact Hsuf1 | exact Hs |].
    destruct ts as [| t2 ts']; constructor.
    apply HdRel_inv in Hhd'; lra.
Qed.

(** ** The resampler on a validated route *)

Lemma validated_segments (pts : list point) :
  validate_route_guardrails pts = Return tt ->
  exists a rest,
    pts = a :: rest /\
    chain_from a (segments pts) /\
    Forall seg_ok (segments pts) /\
    segments (dedupe pts) = filter nonzero (segments pts) /\
    MIN_ROUTE_M <= sum_list (map seg_len (segments pts)) <= MAX_ROUTE_M.
Proof.
  intros H; pose proof (validate_total pts H) as Htot.
  destruct (validate_ok_inv pts H) as (a & rest & -> & Hc & _ & _).
  exists a, rest; repeat split; try apply Htot.
  - apply chain_build_segs.
  - apply raw_segments_ok; exact Hc.
  - apply (dedupe_segments rest a Hc).
Qed.

(** What a returned resampling is made of. *)
Lemma resample_inv (fuel : nat) (pts : list point) (spacing : R)
  (samples : list sample) :
  resample_even_spacing fuel pts spacing = Return samples ->
  exists ts s0 segs',
    segments pts = s0 :: segs' /\
    sum_list (map seg_len (segments pts)) <> 0 /\
    build_targets fuel spacing (sum_list (map seg_len (segments pts)))
    = Return ts /\
    samples = emit (last (segments pts) s0) (segments pts) 0 0 [] ts.
Proof.
  unfold resample_even_spacing; intros H.
  destruct (Req_dec_T (sum_list (map seg_len (segments pts))) 0) as [|Hne];
    [discriminate |].
  destruct (build_targets fuel spacing _) as [ts | e |] eqn:Hts;
    simpl in H; try discriminate.
  destruct (segments pts) as [| s0 segs'] eqn:Hsegs; [discriminate |].
  injection H as <-.
  exists ts, s0, segs'; auto.
Qed.

(** A validated route with a positive spacing is resampled. *)
Lemma resample_returns (pts : list point) (spacing : R) :
  0 < sum_list (map seg_len (segments pts)) ->
  0 < spacing ->
  exists fuel0, forall fuel, (fuel0 <= fuel)%nat ->
    exists samples, resample_even_spacing fuel pts spacing = Return samples.
Proof.
  intros Htot Hs.
  destruct (build_targets_terminates spacing
              (sum_list (map seg_len (segments pts))) Hs) as [fuel0 Hf].
  exists fuel0; intros fuel Hle.
  destruct (Hf fuel Hle) as [ts Hts].
  unfold resample_even_spacing.
  destruct (Req_dec_T _ 0) as [H0 | _]; [lra |].
  rewrite Hts; simpl.
  destruct (segments pts) as [| s0 segs'] eqn:Hsegs.
  - unfold sum_list in Htot; simpl in Htot; lra.
  - eauto.
Qed.

(** With a spacing that is not positive the target loop never stops. *)
Lemma targets_loop_diverges (spacing total : R) :
  spacing <= 0 -> 0 < total ->
  forall fuel d acc, d <= 0 -> targets_loop fuel spacing total d acc = Diverge.
Proof.
  intros Hs Ht; induction fuel as [| fuel IH]; intros d acc Hd; simpl.
  - reflexivity.
  - destruct (Rlt_dec d total); [apply IH; lra | lra].
Qed.

Lemma resample_diverges (fuel : nat) (pts : list point) (spacing : R) :
  0 < sum_list (map seg_len (segments pts)) ->
  spacing <= 0 ->
  resample_even_spacing fuel pts spacing = Diverge.
Proof.
  intros Ht Hs; unfold resample_even_spacing, build_targets.
  destruct (Req_dec_T _ 0); [lra |].
  now rewrite (targets_loop_diverges spacing _ Hs Ht fuel spacing [0] Hs).
Qed.

(** Resampling the raw points and resampling the de-duplicated points give
    the same samples. *)
Lemma resample_dedupe (fuel : nat) (pts : list point) (spacing : R) :
  validate_route_guardrails pts = Return tt ->
  resample_even_spacing fuel (dedupe pts) spacing
  = resample_even_spacing fuel pts spacing.
Proof.
  intros H.
  destruct (validated_segments pts H) as (a & rest & Hp & Hch & Hok & Hdd & Htot).
  unfold resample_even_spacing.
  rewrite Hdd, sum_filter_nonzero.
  set (total := sum_list (map seg_len (segments pts))) in *.
  unfold MIN_ROUTE_M in Htot.
  destruct (Req_dec_T total 0) as [H0 | _]; [lra |].
  destruct (build_targets fuel spacing total) as [ts | e |] eqn:Hts;
    simpl; try reflexivity.
  destruct (build_targets_sorted fuel spacing total ts ltac:(lra) Hts)
    as (Hsorted & Hhd & _).
  assert (Hne : filter nonzero (segments pts) <> []).
  { intros Hnil.
    pose proof (sum_filter_nonzero (segments pts)) as Hs.
    rewrite Hnil in Hs; unfold sum_list in Hs at 1; simpl in Hs.
    fold total in Hs; lra. }
  destruct (filter nonzero (segments pts)) as [| f0 fs] eqn:Hf;
    [contradiction |].
  destruct (segments pts) as [| s0 segs'] eqn:Hsegs; [discriminate Hf |].
  rewrite <- Hf, <- Hsegs in *.
  f_equal.
  apply (emit_filter (segments pts) a f0 s0 ts Hch Hok Hne).
  - now exists [].
  - exact Hsorted.
  - destruct ts as [| t ts']; [constructor |].
    injection Hhd as ->; constructor; lra.
Qed.

(** The cumulative distances of a resampling are its targets. *)
Lemma resample_cum (fuel : nat) (pts : list point) (spacing : R)
  (samples : list sample) :
  resample_even_spacing fuel pts spacing = Return samples ->
  build_targets fuel spacing (sum_list (map seg_len (segments pts)))
  = Return (map s_cum_dist samples).
Proof.
  intros H; destruct (resample_inv _ _ _ _ H) as (ts & s0 & segs' & _ & _ & Hts & ->).
  rewrite emit_cum; exact Hts.
Qed.

(** The last sample of a validated route sits on its last point. *)
Lemma resample_last (fuel : nat) (pts : list point) (spacing : R)
  (samples : list sample) :
  validate_route_guardrails pts = Return tt ->
  resample_even_spacing fuel pts spacing = Return samples ->
  exists s, last_error samples = Some s /\
            last_error pts = Some (s_lon s, s_lat s).
Proof.
  intros Hv H.
  destruct (validated_segments pts Hv) as (a & rest & Hp & Hch & Hok & _ & Htot).
  destruct (resample_inv _ _ _ _ H) as (ts & s0 & segs' & Hsegs & _ & Hts & ->).
  set (segs := segments pts) in *.
  set (total := sum_list (map seg_len segs)) in *.
  unfold MIN_ROUTE_M in Htot.
  destruct (build_targets_spec fuel spacing total ts ltac:(lra) Hts)
    as (n & -> & _).
  destruct (emit_snoc (last segs s0)
              (0 :: map (fun j => spacing + INR j * spacing) (seq 0 n)) total
              segs 0 0 []) as [sd ->].
  eexists; split; [apply last_error_snoc |].
  cbv zeta.
  pose proof (cursor_after_ok segs
                (0 :: map (fun j => spacing + INR j * spacing) (seq 0 n))
                segs 0) as Hc.
  destruct (cursor_after segs 0 _) as [rest1 start1]; simpl fst in *;
    simpl snd in *.
  assert (Hc0 : cursor_ok segs segs 0).
  { exists []; split; [reflexivity | unfold sum_list; reflexivity]. }
  specialize (Hc Hc0).
  pose proof (locate_total segs rest1 start1 a s0 Hch Hok Hc) as Hloc.
  cbv zeta in Hloc; fold total in Hloc.
  destruct (locate (last segs s0) _ _ total) as [lo la]; simpl.
  rewrite Hloc.
  subst pts; unfold segs in *; simpl segments in *.
  destruct rest as [| b rest']; [discriminate Hsegs |].
  rewrite last_build_segs by discriminate.
  rewrite last_error_cons.
  clear; revert b; induction rest' as [| c r IH]; intros b; [reflexivity |].
  rewrite last_error_cons.
  change (last (b :: c :: r) a) with (last (c :: r) a).
  apply IH.
Qed.

(** Cumulative distances are non-negative, segment distances too. *)
Lemma targets_nonneg (ts : list R) :
  Sorted Rle ts -> hd_error ts = Some 0 -> Forall (fun t => 0 <= t) ts.
Proof.
  intros Hs Hhd.
  destruct ts as [| t ts]; [constructor |].
  injection Hhd as ->.
  apply Sorted_StronglySorted in Hs; [| intros x y z; apply Rle_trans].
  apply StronglySorted_inv in Hs; destruct Hs as [_ Hall].
  constructor; [lra | exact Hall].
Qed.

Lemma resample_nonneg (fuel : nat) (pts : list point) (spacing : R)
  (samples : list sample) :
  0 < sum_list (map seg_len (segments pts)) ->
  resample_even_spacing fuel pts spacing = Return samples ->
  Forall (fun s => 0 <= s_cum_dist s) samples /\
  Forall (fun s => 0 <= s_seg_dist s) samples /\
  (2 <= List.length samples)%nat.
Proof.
  intros Htot H.
  pose proof (resample_cum _ _ _ _ H) as Hcum.
  destruct (build_targets_sorted _ _ _ _ Htot Hcum) as (Hs & Hhd & _).
  split; [| split].
  - pose proof (targets_nonneg _ Hs Hhd) as Hnn.
    rewrite Forall_map in Hnn; exact Hnn.
  - destruct (resample_inv _ _ _ _ H) as (ts & s0 & segs' & _ & _ & Hts & ->).
    rewrite emit_cum in Hs; simpl in Hs.
    apply emit_seg_nonneg; [exact Hs | now left | constructor].
  - pose proof (build_targets_length _ _ _ _ Htot Hcum) as Hlen.
    now rewrite length_map in Hlen.
Qed.

(** ** Bearings and points *)

Lemma bearings_loop_range (samples : list sample) :
  Forall (fun b => 0 <= b < 360) (bearings_loop samples).
Proof.
  induction samples as [| s1 samples IH]; [constructor |].
  destruct samples as [| s2 samples']; [constructor |].
  change (bearings_loop (s1 :: s2 :: samples'))
    with (bearing_deg_true (s_lon s1) (s_lat s1) (s_lon s2) (s_lat s2)
            :: bearings_loop (s2 :: samples')).
  constructor; [apply bearing_range | exact IH].
Qed.

Lemma bearings_loop_length (samples : list sample) :
  List.length (bearings_loop samples) = pred (List.length samples).
Proof.
  induction samples as [| s1 samples IH]; [reflexivity |].
  destruct samples as [| s2 samples']; [reflexivity |].
  change (bearings_loop (s1 :: s2 :: samples'))
    with (bearing_deg_true (s_lon s1) (s_lat s1) (s_lon s2) (s_lat s2)
            :: bearings_loop (s2 :: samples')).
  simpl List.length in *; rewrite IH; reflexivity.
Qed.

(** Every bearing handed to the points lies in [[0, 360)]: the computed
    ones, the copy given to the last point and the default 0. *)
Lemma bearings_of_range (samples : list sample) :
  Forall (fun b => 0 <= b < 360) (bearings_of samples).
Proof.
  unfold bearings_of.
  pose proof (bearings_loop_range samples) as H.
  destruct (bearings_loop samples) as [| b bs] eqn:E.
  - constructor; [lra | constructor].
  - apply Forall_app; split; [exact H |].
    constructor; [| constructor].
    rewrite Forall_forall in H; apply H.
    destruct (exists_last (l := b :: bs) ltac:(discriminate)) as (l' & x & ->).
    rewrite last_last; apply in_or_app; right; now left.
Qed.

Lemma bearings_of_length (samples : list sample) :
  (List.length samples <= List.length (bearings_of samples))%nat.
Proof.
  unfold bearings_of.
  pose proof (bearings_loop_length samples) as H.
  destruct (bearings_loop samples) as [| b bs].
  - simpl in *; lia.
  - rewrite length_app; simpl in *; lia.
Qed.

Lemma new_point_inv (idx : nat) (la lo seg cum brg : R) (p : NormalizedPoint) :
  new_NormalizedPoint idx la lo seg cum brg = Return p ->
  p = MkPoint idx la lo cum seg brg /\ 0 <= cum /\ 0 <= seg /\ 0 <= brg < 360.
Proof.
  unfold new_NormalizedPoint; intros H; pass_checks H.
  injection H as <-; auto.
Qed.

Lemma build_points_inv (samples : list sample) (bearings : list R) :
  forall (idx : nat) (pts : list NormalizedPoint),
    build_points idx samples bearings = Return pts ->
    map cum_dist_m pts = map s_cum_dist samples /\
    map (fun p => (lon p, lat p)) pts
    = map (fun s => (s_lon s, s_lat s)) samples /\
    contiguous_from idx pts = true /\
    Forall (fun p => 0 <= bearing p < 360) pts /\
    Forall (fun p => In (bearing p) bearings) pts.
Proof.
  induction samples as [| s samples IH]; intros idx pts H; simpl in H.
  - injection H as <-; simpl; repeat split; constructor.
  - destruct (nth_error bearings idx) as [brg |] eqn:Hb; [| discriminate].
    destruct (new_NormalizedPoint idx _ _ _ _ brg) as [p | e |] eqn:Hp;
      simpl in H; try discriminate.
    destruct (build_points (S idx) samples bearings) as [ps | e |] eqn:Hps;
      simpl in H; try discriminate.
    injection H as <-.
    destruct (new_point_inv _ _ _ _ _ _ _ Hp) as (-> & _ & _ & Hbr).
    destruct (IH _ _ Hps) as (H1 & H2 & H3 & H4 & H5).
    simpl; rewrite H1, H2, H3, Nat.eqb_refl.
    repeat split; try reflexivity.
    + constructor; [exact Hbr | exact H4].
    + constructor; [simpl; eapply nth_error_In; exact Hb | exact H5].
Qed.

Lemma build_points_returns (samples : list sample) (bearings : list R) :
  Forall (fun s => 0 <= s_cum_dist s) samples ->
  Forall (fun s => 0 <= s_seg_dist s) samples ->
  Forall (fun b => 0 <= b < 360) bearings ->
  forall idx : nat,
    (idx + List.length samples <= List.length bearings)%nat ->
    exists pts, build_points idx samples bearings = Return pts.
Proof.
  intros Hc Hs Hb.
  induction samples as [| s samples IH]; intros idx Hlen; simpl.
  - eauto.
  - inversion Hc as [| ? ? Hc1 Hc']; inversion Hs as [| ? ? Hs1 Hs']; subst.
    simpl in Hlen.
    destruct (nth_error bearings idx) as [brg |] eqn:Hn.
    + assert (Hr : 0 <= brg < 360).
      { rewrite Forall_forall in Hb; apply Hb.
        eapply nth_error_In; exact Hn. }
      destruct (IH Hc' Hs' (S idx) ltac:(lia)) as [ps Hps].
      rewrite Hps; unfold new_NormalizedPoint.
      destruct (Rle_dec 0 (s_cum_dist s)); [| contradiction].
      destruct (Rle_dec 0 (s_seg_dist s)); [| contradiction].
      destruct (Rle_dec 0 brg); [| lra].
      destruct (Rlt_dec brg 360); [| lra].
      simpl; eauto.
    + apply nth_error_None in Hn; lia.
Qed.

(** ** The spacing selector *)

Lemma max_points_cap : IZR (Z.max 2 (MAX_POINTS - 1)) = 2499.
Proof. reflexivity. Qed.

Lemma pick_spacing_pos (total : R) (req : option R) :
  0 < total -> 0 < spacing_or_default req -> 0 < selected_spacing total req.
Proof.
  intros Ht Hs; unfold selected_spacing.
  destruct (Rle_dec total 0); [exact Hs |].
  destruct (naive_estimate total (spacing_or_default req) <=? MAX_POINTS)%Z;
    [exact Hs |].
  rewrite max_points_cap; apply Rdiv_lt_0_compat; lra.
Qed.

(** Above the cap the spacing is widened to [total / 2499]. *)
Lemma pick_spacing_widened (total : R) (req : option R) :
  0 < total ->
  (MAX_POINTS < naive_estimate total (spacing_or_default req))%Z ->
  selected_spacing total req = total / 2499.
Proof.
  intros Ht He; unfold selected_spacing.
  destruct (Rle_dec total 0); [lra |].
  destruct (naive_estimate total (spacing_or_default req) <=? MAX_POINTS)%Z eqn:E.
  - apply Z.leb_le in E; lia.
  - now rewrite max_points_cap.
Qed.

(** At or below the cap the requested (or default) spacing is kept. *)
Lemma pick_spacing_kept (total : R) (req : option R) :
  (naive_estimate total (spacing_or_default req) <= MAX_POINTS)%Z ->
  selected_spacing total req = spacing_or_default req.
Proof.
  intros He; unfold selected_spacing.
  destruct (Rle_dec total 0); [reflexivity |].
  apply Z.leb_le in He; now rewrite He.
Qed.

(** A validated route is at most 500 km long, so at the default spacing
    the estimate stays at or below 2002 and the spacing is never widened. *)
Lemma default_spacing_kept (pts : list point) :
  validate_route_guardrails pts = Return tt ->
  selected_spacing (polyline_length_m pts) None = DEFAULT_SPACING_M.
Proof.
  intros Hv.
  pose proof (validate_total pts Hv) as Htot.
  rewrite <- polyline_length_segments in Htot.
  unfold MIN_ROUTE_M, MAX_ROUTE_M in Htot.
  rewrite pick_spacing_kept; [reflexivity |].
  unfold naive_estimate, MAX_POINTS; cbn [spacing_or_default].
  unfold DEFAULT_SPACING_M.
  destruct (Zfloor_bound (polyline_length_m pts / 250)) as [Hlo _].
  assert (Hz : (Zfloor (polyline_length_m pts / 250) <= 2000)%Z)
    by (apply le_IZR; lra).
  lia.
Qed.

(** With the widened spacing there are at most 2500 targets. *)
Lemma widened_target_count (fuel : nat) (total : R) (ts : list R) :
  0 < total ->
  build_targets fuel (total / 2499) total = Return ts ->
  (List.length ts <= 2500)%nat.
Proof.
  intros Ht H.
  destruct (build_targets_spec _ _ _ _ Ht H) as (n & -> & Hbelow & _).
  rewrite length_app; simpl; rewrite length_map, length_seq.
  destruct (le_lt_dec n 2498) as [Hle | Hgt]; [lia | exfalso].
  specialize (Hbelow 2498%nat Hgt).
  replace (INR 2498) with 2498 in Hbelow by (rewrite INR_IZR_INZ; reflexivity).
  lra.
Qed.

(** ** The estimate and its overflow *)

Lemma float_overflow_large : (10 ^ 300 < FLOAT_OVERFLOW)%Z.
Proof. vm_compute; reflexivity. Qed.

Lemma finite_quotient_dec (total spacing : R) :
  {finite_quotient total spacing} + {~ finite_quotient total spacing}.
Proof. unfold finite_quotient; apply Z_lt_dec. Qed.

Lemma est_points_returns (total spacing : R) :
  finite_quotient total spacing ->
  est_points total spacing = Return (naive_estimate total spacing).
Proof.
  unfold finite_quotient, est_points, naive_estimate; intros H; cbv zeta.
  destruct (FLOAT_OVERFLOW <=? Z.abs (Zfloor (total / spacing)))%Z eqn:E;
    [apply Z.leb_le in E; lia | reflexivity].
Qed.

Lemma est_points_overflows (total spacing : R) :
  ~ finite_quotient total spacing ->
  est_points total spacing = Raise OverflowError.
Proof.
  unfold finite_quotient, est_points; intros H; cbv zeta.
  destruct (FLOAT_OVERFLOW <=? Z.abs (Zfloor (total / spacing)))%Z eqn:E;
    [reflexivity | apply Z.leb_gt in E; contradiction].
Qed.

Lemma est_points_inv (total spacing : R) (n : Z) :
  est_points total spacing = Return n ->
  finite_quotient total spacing /\ n = naive_estimate total spacing.
Proof.
  intros H; destruct (finite_quotient_dec total spacing) as [Hf | Hf].
  - rewrite (est_points_returns _ _ Hf) in H; now injection H as <-.
  - rewrite (est_points_overflows _ _ Hf) in H; discriminate.
Qed.

Lemma pick_spacing_returns (total : R) (req : option R) :
  total <= 0 \/ finite_quotient total (spacing_or_default req) ->
  pick_spacing_m total req = Return (selected_spacing total req).
Proof.
  unfold pick_spacing_m, selected_spacing; intros H; cbv zeta.
  destruct (Rle_dec total 0) as [| Hpos]; [reflexivity |].
  destruct H as [H | H]; [contradiction |].
  rewrite (est_points_returns _ _ H); cbn [bind].
  destruct (naive_estimate total (spacing_or_default req) <=? MAX_POINTS)%Z;
    reflexivity.
Qed.

Lemma pick_spacing_overflows (total : R) (req : option R) :
  0 < total ->
  ~ finite_quotient total (spacing_or_default req) ->
  pick_spacing_m total req = Raise OverflowError.
Proof.
  unfold pick_spacing_m; intros Ht H; cbv zeta.
  destruct (Rle_dec total 0); [lra |].
  now rewrite (est_points_overflows _ _ H).
Qed.

Lemma pick_spacing_inv (total : R) (req : option R) (s : R) :
  pick_spacing_m total req = Return s ->
  s = selected_spacing total req /\
  (total <= 0 \/ finite_quotient total (spacing_or_default req)).
Proof.
  intros H.
  destruct (Rle_dec total 0) as [Hle | Hpos].
  - rewrite pick_spacing_returns in H by (now left).
    injection H as <-; split; [reflexivity | now left].
  - destruct (finite_quotient_dec total (spacing_or_default req)) as [Hf | Hf].
    + rewrite pick_spacing_returns in H by (now right).
      injection H as <-; split; [reflexivity | now right].
    + rewrite pick_spacing_overflows in H by (lra || exact Hf); discriminate.
Qed.

Lemma pick_spacing_raise (total : R) (req : option R) (e : error) :
  pick_spacing_m total req = Raise e ->
  e = OverflowError /\ 0 < total /\
  ~ finite_quotient total (spacing_or_default req).
Proof.
  intros H.
  destruct (Rle_dec total 0) as [Hle | Hpos].
  - rewrite pick_spacing_returns in H by (now left); discriminate.
  - destruct (finite_quotient_dec total (spacing_or_default req)) as [Hf | Hf].
    + rewrite pick_spacing_returns in H by (now right); discriminate.
    + rewrite pick_spacing_overflows in H by (lra || exact Hf).
      injection H as <-; repeat split; [lra | exact Hf].
Qed.

Lemma pick_spacing_never_diverges (total : R) (req : option R) :
  pick_spacing_m total req <> Diverge.
Proof.
  destruct (Rle_dec total 0) as [Hle | Hpos].
  - rewrite pick_spacing_returns by (now left); discriminate.
  - destruct (finite_quotient_dec total (spacing_or_default req)) as [Hf | Hf].
    + rewrite pick_spacing_returns by (now right); discriminate.
    + rewrite pick_spacing_overflows by (lra || exact Hf); discriminate.
Qed.

(** A quotient between 0 and [10^300] is a finite double. *)
Lemma finite_quotient_below (total spacing : R) :
  0 <= total / spacing ->
  total / spacing < IZR (10 ^ 300) ->
  finite_quotient total spacing.
Proof.
  intros Hlo Hhi; unfold finite_quotient.
  destruct (Zfloor_bound (total / spacing)) as [H1 H2].
  assert (Hnn : (0 <= Zfloor (total / spacing))%Z).
  { apply Zfloor_lub; simpl; exact Hlo. }
  assert (Hlt : (Zfloor (total / spacing) < 10 ^ 300)%Z).
  { apply lt_IZR; lra. }
  pose proof float_overflow_large.
  rewrite Z.abs_eq by exact Hnn.
  generalize dependent (10 ^ 300)%Z; intros; lia.
Qed.

(** At the default spacing the quotient of a validated route is finite. *)
Lemma default_finite (pts : list point) :
  validate_route_guardrails pts = Return tt ->
  finite_quotient (polyline_length_m pts) (spacing_or_default None).
Proof.
  intros Hv.
  pose proof (validate_total pts Hv) as Htot.
  rewrite <- polyline_length_segments in Htot.
  unfold MIN_ROUTE_M, MAX_ROUTE_M in Htot.
  cbn [spacing_or_default]; unfold DEFAULT_SPACING_M.
  apply finite_quotient_below; [lra |].
  apply Rlt_le_trans with (IZR 2001); [lra |].
  apply IZR_le; vm_compute; discriminate.
Qed.

(** ** The orchestrator *)

Section PipelineProperties.

Variable float_repr : R -> string.
Variable int_repr : Z -> string.
Variable encode_str : string -> string.
Variable sha256_hexdigest : string -> string.

Local Abbreviation normalize :=
  (normalize_raw_route float_repr int_repr encode_str sha256_hexdigest).

(** What a returned [NormalizedRoute] is made of. *)
Lemma normalize_inv (fuel : nat) (rid : string) (raw : RawRouteFeature)
  (req : option R) (route : NormalizedRoute) :
  normalize fuel rid raw req = Return route ->
  let pts0 := coordinates (geometry raw) in
  let spacing := selected_spacing (polyline_length_m pts0) req in
  validate_route_guardrails pts0 = Return tt /\
  exists samples pts p_last bb,
    resample_even_spacing fuel pts0 spacing = Return samples /\
    build_points 0 samples (bearings_of samples) = Return pts /\
    last_error pts = Some p_last /\
    normalized route
    = MkBody spacing (cum_dist_m p_last) (List.length pts) bb pts.
Proof.
  unfold normalize_raw_route; intros H; cbv zeta.
  destruct (validate_route_guardrails _) as [[] | e |]; simpl in H;
    try discriminate.
  split; [reflexivity |].
  destruct (pick_spacing_m _ req) as [sp | e |] eqn:Hpick; simpl in H;
    try discriminate.
  destruct (pick_spacing_inv _ _ _ Hpick) as [-> _].
  destruct (resample_even_spacing fuel _ _) as [samples | e |] eqn:Hsamples;
    simpl in H; try discriminate.
  destruct (build_points 0 samples _) as [pts | e |] eqn:Hpts; simpl in H;
    try discriminate.
  destruct (bbox_wgs84 _) as [bb | e |]; simpl in H; try discriminate.
  destruct (rev pts) as [| p_last r] eqn:Hrev; [discriminate |].
  destruct (new_NormalizedRouteBody _ _ _ _ _) as [body | e |] eqn:Hbody;
    simpl in H; try discriminate.
  injection H as <-; simpl.
  exists samples, pts, p_last, bb.
  split; [reflexivity |].
  split; [exact Hpts |].
  split; [unfold last_error; now rewrite Hrev |].
  unfold new_NormalizedRouteBody in Hbody; pass_checks Hbody.
  now injection Hbody as <-.
Qed.

(** The spacing of a returned route is what the selector returned. *)
Lemma normalize_picks (fuel : nat) (rid : string) (raw : RawRouteFeature)
  (req : option R) (route : NormalizedRoute) :
  normalize fuel rid raw req = Return route ->
  pick_spacing_m (polyline_length_m (coordinates (geometry raw))) req
  = Return (spacing_m (normalized route)) /\
  spacing_m (normalized route)
  = selected_spacing (polyline_length_m (coordinates (geometry raw))) req.
Proof.
  intros H.
  destruct (normalize_inv _ _ _ _ _ H)
    as (_ & samples & pts & p_last & bb & _ & _ & _ & Hbody).
  rewrite Hbody; cbn [spacing_m]; split; [| reflexivity].
  unfold normalize_raw_route in H.
  destruct (validate_route_guardrails _) as [[] | e |]; simpl in H;
    try discriminate.
  destruct (pick_spacing_m _ req) as [sp | e |] eqn:Hpick; simpl in H;
    try discriminate.
  now destruct (pick_spacing_inv _ _ _ Hpick) as [-> _].
Qed.

(** A validated route whose spacing is positive, and not so small that the
    estimate overflows, is normalized. *)
Lemma normalize_returns (rid : string) (raw : RawRouteFeature) (req : option R) :
  validate_route_guardrails (coordinates (geometry raw)) = Return tt ->
  0 < spacing_or_default req ->
  finite_quotient (polyline_length_m (coordinates (geometry raw)))
                  (spacing_or_default req) ->
  exists fuel0, forall fuel, (fuel0 <= fuel)%nat ->
    exists route, normalize fuel rid raw req = Return route.
Proof.
  intros Hv Hreq Hfin.
  set (pts0 := coordinates (geometry raw)) in *.
  pose proof (validate_total pts0 Hv) as Htot; unfold MIN_ROUTE_M in Htot.
  assert (Hpos : 0 < sum_list (map seg_len (segments pts0))) by lra.
  set (spacing := selected_spacing (polyline_length_m pts0) req).
  assert (Hsp : 0 < spacing).
  { apply pick_spacing_pos; [rewrite polyline_length_segments |]; assumption. }
  destruct (resample_returns pts0 spacing Hpos Hsp) as [fuel0 Hf].
  exists fuel0; intros fuel Hle.
  destruct (Hf fuel Hle) as [samples Hsamples].
  destruct (resample_nonneg _ _ _ _ Hpos Hsamples) as (Hc & Hs & Hlen).
  destruct (build_points_returns samples (bearings_of samples) Hc Hs
              (bearings_of_range samples) 0%nat)
    as [pts Hpts]; [apply bearings_of_length |].
  destruct (build_points_inv _ _ _ _ Hpts) as (Hcum & Hll & Hcont & _ & _).
  assert (Hlenp : List.length pts = List.length samples).
  { rewrite <- (length_map cum_dist_m), Hcum, length_map; reflexivity. }
  unfold normalize_raw_route; fold pts0; rewrite Hv; simpl.
  rewrite pick_spacing_returns by (right; exact Hfin); cbn [bind].
  fold spacing; rewrite Hsamples; simpl.
  rewrite Hpts; simpl.
  destruct pts as [| p1 pts']; [simpl in Hlenp; lia |].
  simpl bbox_wgs84; cbn [bind].
  destruct (rev (p1 :: pts')) as [| p_last r] eqn:Hrev.
  { apply (f_equal (@List.length _)) in Hrev.
    rewrite length_rev in Hrev; discriminate. }
  assert (Hlast : 0 <= cum_dist_m p_last).
  { assert (Hin : In p_last (p1 :: pts')).
    { apply in_rev; rewrite Hrev; now left. }
    assert (Hall : Forall (fun x => 0 <= x) (map cum_dist_m (p1 :: pts'))).
    { rewrite Hcum; apply Forall_map; exact Hc. }
    rewrite Forall_map, Forall_forall in Hall; apply Hall; exact Hin. }
  unfold new_NormalizedRouteBody.
  destruct (Rlt_dec 0 spacing); [| contradiction].
  destruct (Rle_dec 0 (cum_dist_m p_last)); [| contradiction].
  rewrite Nat.eqb_refl, Hcont.
  assert (Hge : (2 <=? List.length (p1 :: pts'))%nat = true)
    by (apply Nat.leb_le; lia).
  rewrite Hge; simpl; eauto.
Qed.


(** The later stages raise nothing but index and validation errors. *)
Lemma build_points_raise (samples : list sample) (bearings : list R) :
  forall (idx : nat) (e : error),
    build_points idx samples bearings = Raise e ->
    e = IndexError \/ e = ValidationError.
Proof.
  induction samples as [| s samples IH]; intros idx e H; simpl in H.
  - discriminate.
  - destruct (nth_error bearings idx) as [brg |];
      [| injection H as <-; now left].
    unfold new_NormalizedPoint in H.
    repeat match type of H with
           | context [if ?c then _ else _] =>
               destruct c; [| injection H as <-; now right]
           end.
    simpl in H.
    destruct (build_points (S idx) samples bearings) as [ps | e' |] eqn:Hps;
      simpl in H; try discriminate.
    injection H as <-; eapply IH; exact Hps.
Qed.

Lemma dedupe_after_idem (rest : list point) :
  forall prev,
    dedupe_after prev (dedupe_after prev rest) = dedupe_after prev rest.
Proof.
  induction rest as [| p rest IH]; intros prev; simpl.
  - reflexivity.
  - destruct (point_eq_dec p prev) as [-> | Hne]; [apply IH |].
    simpl; destruct (point_eq_dec p prev); [contradiction |].
    now rewrite IH.
Qed.

(** Validation looks at the de-duplicated points only. *)
Lemma validate_dedupe (pts : list point) :
  validate_route_guardrails (dedupe pts) = validate_route_guardrails pts.
Proof.
  destruct pts as [| a rest]; [reflexivity |].
  unfold validate_route_guardrails.
  change (dedupe (a :: rest)) with (a :: dedupe_after a rest).
  change (dedupe (a :: dedupe_after a rest))
    with (a :: dedupe_after a (dedupe_after a rest)).
  now rewrite dedupe_after_idem.
Qed.

(** The guardrail verdict on the total, once the earlier checks pass. *)
Lemma validate_spec (pts : list point) :
  pts <> [] ->
  (2 <= List.length (dedupe pts))%nat ->
  Forall (fun ab => 0 < dist (fst ab) (snd ab) <= MAX_SEGMENT_M)
         (adjacent_pairs (dedupe pts)) ->
  validate_route_guardrails pts
  = if Rlt_dec (polyline_length_m (dedupe pts)) MIN_ROUTE_M
    then Raise RouteTooShort
    else if Rgt_dec (polyline_length_m (dedupe pts)) MAX_ROUTE_M
         then Raise RouteTooLong
         else Return tt.
Proof.
  intros Hne Hlen Hseg.
  destruct pts as [| a rest]; [contradiction |].
  unfold validate_route_guardrails.
  apply Nat.ltb_ge in Hlen; rewrite Hlen.
  change (dedupe (a :: rest)) with (a :: dedupe_after a rest) in *.
  simpl in Hseg; apply check_segments_ok in Hseg.
  cbv beta iota zeta; rewrite Hseg.
  reflexivity.
Qed.

Lemma targets_loop_no_raise (fuel : nat) (spacing total : R) :
  forall d acc e, targets_loop fuel spacing total d acc <> Raise e.
Proof.
  induction fuel as [| fuel IH]; intros d acc e; simpl.
  - discriminate.
  - destruct (Rlt_dec d total); [apply IH | discriminate].
Qed.

Lemma resample_raise (fuel : nat) (pts : list point) (spacing : R) (e : error) :
  resample_even_spacing fuel pts spacing = Raise e ->
  (e = ZeroLengthRoute /\ sum_list (map seg_len (segments pts)) = 0)
  \/ e = IndexError.
Proof.
  unfold resample_even_spacing, build_targets; intros H.
  destruct (Req_dec_T _ 0) as [H0 | _]; [injection H as <-; now left |].
  destruct (targets_loop fuel spacing _ spacing [0]) as [ts | e' |] eqn:Hts;
    simpl in H; try discriminate.
  - destruct (segments pts); [injection H as <-; now right | discriminate].
  - exfalso; eapply targets_loop_no_raise; exact Hts.
Qed.

Lemma spacing_or_default_nonzero (req : option R) : spacing_or_default req <> 0.
Proof.
  unfold spacing_or_default, DEFAULT_SPACING_M.
  destruct req as [s |]; [destruct (Req_dec_T s 0) |]; lra.
Qed.

(** An estimate above the cap needs a positive spacing. *)
Lemma est_above_cap_spacing_pos (total : R) (req : option R) :
  0 < total ->
  (MAX_POINTS < naive_estimate total (spacing_or_default req))%Z ->
  0 < spacing_or_default req.
Proof.
  intros Ht He.
  pose proof (spacing_or_default_nonzero req) as Hnz.
  destruct (Rlt_dec 0 (spacing_or_default req)) as [| Hn]; [assumption |].
  exfalso.
  assert (Hneg : spacing_or_default req < 0) by lra.
  assert (Hq : total / spacing_or_default req < 0).
  { unfold Rdiv.
    assert (/ spacing_or_default req < 0) by (apply Rinv_lt_0_compat; lra).
    nra. }
  destruct (Zfloor_bound (total / spacing_or_default req)) as [Hlo _].
  assert (Hz : (Zfloor (total / spacing_or_default req) < 0)%Z)
    by (apply lt_IZR; lra).
  unfold naive_estimate, MAX_POINTS in He; lia.
Qed.

(** With a spacing of at least [total / 2499] the target loop stops within
    2499 rounds, and at most 2500 targets are produced. *)
Lemma resample_returns_capped (pts : list point) (spacing : R) :
  let total := sum_list (map seg_len (segments pts)) in
  0 < total ->
  total / 2499 <= spacing ->
  forall fuel, (2500 <= fuel)%nat ->
    exists samples,
      resample_even_spacing fuel pts spacing = Return samples /\
      (2 <= List.length samples <= 2501)%nat.
Proof.
  intros total Htot Hsp fuel Hfuel.
  assert (Hs : 0 < spacing) by lra.
  assert (Hcov : total - spacing <= INR 2498 * spacing).
  { replace (INR 2498) with 2498 by (rewrite INR_IZR_INZ; reflexivity); lra. }
  destruct (targets_loop_terminates spacing total 2498 Hs spacing [0] fuel
              Hcov ltac:(lia)) as [ts Hts].
  assert (H : exists samples,
             resample_even_spacing fuel pts spacing = Return samples).
  { unfold resample_even_spacing; fold total.
    destruct (Req_dec_T total 0) as [H0 | _]; [lra |].
    unfold build_targets; rewrite Hts; cbn [bind].
    destruct (segments pts) as [| s0 segs'] eqn:Hsegs; [| eauto].
    unfold total, sum_list in Htot; try rewrite Hsegs in Htot.
    simpl in Htot; lra. }
  destruct H as [samples H]; exists samples; split; [exact H |].
  pose proof (resample_cum _ _ _ _ H) as Hcum; fold total in Hcum.
  destruct (build_targets_spec _ _ _ _ Htot Hcum) as (n & Hn & Hbelow & _).
  apply (f_equal (@List.length R)) in Hn.
  rewrite length_map, length_app in Hn; simpl in Hn.
  rewrite length_map, length_seq in Hn.
  rewrite Hn; split; [lia |].
  destruct (le_lt_dec n 2498) as [Hle | Hgt]; [lia | exfalso].
  specialize (Hbelow 2498%nat Hgt).
  replace (INR 2498) with 2498 in Hbelow by (rewrite INR_IZR_INZ; reflexivity).
  lra.
Qed.

(** ** The specified properties *)

(** C5.  On a de-duplicated sequence of at least two points whose adjacent
    segments all have a positive length of at most 50,000 m, guardrail
    validation raises [RouteTooShort] exactly when the total length is below
    25 m, raises [RouteTooLong] exactly when it is above 500,000 m, and
    succeeds exactly in between. *)
Theorem C5_total_length_guardrails (pts : list point) :
  pts <> [] ->
  (2 <= List.length (dedupe pts))%nat ->
  Forall (fun ab => 0 < dist (fst ab) (snd ab) <= 50000)
         (adjacent_pairs (dedupe pts)) ->
  let total := polyline_length_m (dedupe pts) in
  (validate_route_guardrails pts = Raise RouteTooShort <-> total < 25) /\
  (validate_route_guardrails pts = Raise RouteTooLong <-> 500000 < total) /\
  (validate_route_guardrails pts = Return tt <-> 25 <= total <= 500000).
Proof.
  intros Hne Hlen Hseg total.
  rewrite (validate_spec pts Hne Hlen Hseg); fold total.
  unfold MIN_ROUTE_M, MAX_ROUTE_M.
  destruct (Rlt_dec total 25); [| destruct (Rgt_dec total 500000)];
    repeat split; intros; try discriminate; try lra; reflexivity.
Qed.

(** C6.  After a successful guardrail validation the resampler's total is
    not 0, so neither the resampler nor [normalize_raw_route] raises
    [ZeroLengthRoute]. *)
Theorem C6_zero_length_unreachable (fuel : nat) (rid : string)
  (raw : RawRouteFeature) (req : option R) :
  validate_route_guardrails (coordinates (geometry raw)) = Return tt ->
  sum_list (map seg_len (segments (coordinates (geometry raw)))) <> 0 /\
  (forall spacing,
     resample_even_spacing fuel (coordinates (geometry raw)) spacing
     <> Raise ZeroLengthRoute) /\
  normalize fuel rid raw req <> Raise ZeroLengthRoute.
Proof.
  intros Hv.
  pose proof (validate_total _ Hv) as Htot; unfold MIN_ROUTE_M in Htot.
  assert (Hres : forall spacing,
             resample_even_spacing fuel (coordinates (geometry raw)) spacing
             <> Raise ZeroLengthRoute).
  { intros spacing H; apply resample_raise in H.
    destruct H as [[_ H0] | H]; [lra | discriminate]. }
  split; [lra | split; [exact Hres |]].
  unfold normalize_raw_route; rewrite Hv; cbn [bind].
  destruct (pick_spacing_m _ req) as [sp | e |] eqn:Hpick; cbn [bind];
    [| apply pick_spacing_raise in Hpick; destruct Hpick as (-> & _);
       discriminate
     | discriminate].
  destruct (resample_even_spacing fuel _ _) as [samples | e |] eqn:Hs;
    cbn [bind]; [| intros H; injection H as ->; eapply Hres; exact Hs
                 | discriminate].
  destruct (build_points 0 samples _) as [pts | e |] eqn:Hp; cbn [bind];
    [| apply build_points_raise in Hp; destruct Hp as [-> | ->]; discriminate
     | discriminate].
  unfold bbox_wgs84.
  destruct (map snd _); [discriminate |].
  destruct (map fst _); [discriminate |]; cbn [bind].
  destruct (rev pts); [discriminate |].
  unfold new_NormalizedRouteBody.
  repeat match goal with
         | |- context [if ?c then _ else _] => destruct c; [| discriminate]
         end.
  discriminate.
Qed.



(** C1.  For a validated route and a requested (or default) spacing at which
    the estimate [int(total // spacing) + 2] is computed and exceeds 2500,
    the spacing selector returns [total / 2499], the route is normalized with
    that spacing, and its [point_count] is at most 2501. *)
Theorem C1_spacing_cap_point_count (rid : string) (raw : RawRouteFeature)
  (req : option R) (est : Z) :
  let pts0 := coordinates (geometry raw) in
  let total := polyline_length_m pts0 in
  validate_route_guardrails pts0 = Return tt ->
  est_points total (spacing_or_default req) = Return est ->
  (MAX_POINTS < est)%Z ->
  pick_spacing_m total req = Return (total / 2499) /\
  (forall fuel route,
     normalize fuel rid raw req = Return route ->
     spacing_m (normalized route) = total / 2499 /\
     (point_count (normalized route) <= 2501)%nat) /\
  (exists fuel route, normalize fuel rid raw req = Return route).
Proof.
  intros pts0 total Hv Hest He.
  destruct (est_points_inv _ _ _ Hest) as [Hfin ->].
  pose proof (validate_total pts0 Hv) as Htot; unfold MIN_ROUTE_M in Htot.
  rewrite <- polyline_length_segments in Htot; fold total in Htot.
  assert (Hpick : selected_spacing total req = total / 2499)
    by (apply pick_spacing_widened; [lra | exact He]).
  split; [rewrite pick_spacing_returns by (now right); now rewrite Hpick |].
  split.
  - intros fuel route H.
    destruct (normalize_inv _ _ _ _ _ H)
      as (_ & samples & pts & p_last & bb & Hs & Hp & _ & Hbody).
    fold pts0 in Hs, Hbody; fold total in Hs, Hbody.
    rewrite Hbody; simpl; split; [exact Hpick |].
    destruct (build_points_inv _ _ _ _ Hp) as (Hcum & _).
    apply (f_equal (@List.length R)) in Hcum; rewrite !length_map in Hcum.
    rewrite Hcum.
    pose proof (resample_cum _ _ _ _ Hs) as Hts.
    rewrite Hpick, <- polyline_length_segments in Hts; fold total in Hts.
    apply widened_target_count in Hts; [| lra].
    rewrite length_map in Hts; lia.
  - destruct (normalize_returns rid raw req Hv) as [fuel0 Hf].
    + apply est_above_cap_spacing_pos with total; [lra | exact He].
    + exact Hfin.
    + destruct (Hf fuel0 (Nat.le_refl _)) as [route Hr]; eauto.
Qed.

(** C4.  In every returned [NormalizedRoute] the first point has
    [cum_dist_m = 0], [cum_dist_m] is non-decreasing along [points], and the
    last point's [cum_dist_m] is [total_distance_m]. *)
Theorem C4_cumulative_distance_monotone (fuel : nat) (rid : string)
  (raw : RawRouteFeature) (req : option R) (route : NormalizedRoute) :
  normalize fuel rid raw req = Return route ->
  let pts := points (normalized route) in
  option_map cum_dist_m (hd_error pts) = Some 0 /\
  Sorted Rle (map cum_dist_m pts) /\
  option_map cum_dist_m (last_error pts)
  = Some (total_distance_m (normalized route)).
Proof.
  intros H.
  destruct (normalize_inv _ _ _ _ _ H)
    as (Hv & samples & pts & p_last & bb & Hs & Hp & Hlast & Hbody).
  rewrite Hbody; simpl.
  pose proof (validate_total _ Hv) as Htot; unfold MIN_ROUTE_M in Htot.
  destruct (build_points_inv _ _ _ _ Hp) as (Hcum & _).
  pose proof (resample_cum _ _ _ _ Hs) as Hts.
  assert (Hpos : 0 < sum_list (map seg_len (segments (coordinates (geometry raw)))))
    by lra.
  destruct (build_targets_sorted _ _ _ _ Hpos Hts) as (Hsort & Hhd & _).
  rewrite <- Hcum in Hsort, Hhd.
  split; [| split].
  - destruct pts; [discriminate Hhd | exact Hhd].
  - exact Hsort.
  - now rewrite Hlast.
Qed.

(** C7.  Every bearing lies in [[0, 360)]: the value [bearing_deg_true]
    returns for any two coordinate pairs, and the bearing of every point of
    every returned [NormalizedRoute], the last point included. *)
Theorem C7_bearing_range :
  (forall alon alat blon blat : R,
     0 <= bearing_deg_true alon alat blon blat < 360) /\
  (forall fuel rid raw req route,
     normalize fuel rid raw req = Return route ->
     Forall (fun p => 0 <= bearing p < 360) (points (normalized route))).
Proof.
  split; [exact bearing_range |].
  intros fuel rid raw req route H.
  destruct (normalize_inv _ _ _ _ _ H)
    as (_ & samples & pts & p_last & bb & _ & Hp & _ & Hbody).
  rewrite Hbody; simpl.
  destruct (build_points_inv _ _ _ _ Hp) as (_ & _ & _ & _ & Hin).
  pose proof (bearings_of_range samples) as Hr.
  rewrite Forall_forall in Hr.
  eapply Forall_impl; [| exact Hin].
  intros p Hp'; apply Hr; exact Hp'.
Qed.

(** C2.  For a raw coordinate sequence that passes validation, the
    normalized body (spacing, total, count, bounding box and every point with
    its coordinates, distances and bearing) is the one obtained from the
    sequence with each run of identical points collapsed. *)
Theorem C2_duplicates_do_not_change_output (fuel : nat) (rid : string)
  (raw : RawRouteFeature) (req : option R) :
  validate_route_guardrails (coordinates (geometry raw)) = Return tt ->
  outcome_map normalized
    (normalize fuel rid
       (with_coordinates raw (dedupe (coordinates (geometry raw)))) req)
  = outcome_map normalized (normalize fuel rid raw req).
Proof.
  intros Hv.
  unfold normalize_raw_route, with_coordinates; cbn [coordinates geometry].
  rewrite validate_dedupe, (dedupe_length_sum _ Hv), Hv; cbn [bind].
  destruct (pick_spacing_m _ req) as [sp | e |]; cbn [bind outcome_map];
    try reflexivity.
  rewrite (resample_dedupe _ _ _ Hv).
  destruct (resample_even_spacing fuel _ _) as [samples | e |];
    cbn [bind outcome_map]; try reflexivity.
  destruct (build_points 0 samples _) as [pts | e |];
    cbn [bind outcome_map]; try reflexivity.
  destruct (bbox_wgs84 _) as [bb | e |]; cbn [bind outcome_map];
    try reflexivity.
  destruct (rev pts); [reflexivity |].
  destruct (new_NormalizedRouteBody _ _ _ _ _); reflexivity.
Qed.

(** ** The distance between equal points *)

Lemma radians_eq (x c : R) : radians x = c * PI -> x = 180 * c.
Proof.
  intros H; pose proof PI_RGT_0 as Hpi.
  replace x with (radians x * (180 / PI)) by (unfold radians; field; lra).
  rewrite H; field; lra.
Qed.

Lemma radians_range (x lo hi : R) :
  lo <= x <= hi -> lo * (PI / 180) <= radians x <= hi * (PI / 180).
Proof.
  intros H; pose proof PI_RGT_0 as Hpi; unfold radians.
  split; apply Rmult_le_compat_r; lra.
Qed.


(** ** Canonical JSON and the content hash *)

Lemma leb_refl (a : string) : String.leb a a = true.
Proof.
  unfold String.leb.
  replace (String.compare a a) with Eq; [reflexivity |].
  symmetry; apply OrderedTypeEx.String_as_OT.cmp_eq; reflexivity.
Qed.

Lemma leb_trans (a b c : string) :
  String.leb a b = true -> String.leb b c = true -> String.leb a c = true.
Proof.
  unfold String.leb; intros Hab Hbc.
  destruct (String.compare a b) eqn:E1; try discriminate.
  - apply String.compare_eq_iff in E1; subst; exact Hbc.
  - destruct (String.compare b c) eqn:E2; try discriminate.
    + apply String.compare_eq_iff in E2; subst; now rewrite E1.
    + apply OrderedTypeEx.String_as_OT.cmp_lt in E1, E2.
      pose proof (OrderedTypeEx.String_as_OT.lt_trans _ _ _ E1 E2) as H.
      apply OrderedTypeEx.String_as_OT.cmp_lt in H.
      unfold OrderedTypeEx.String_as_OT.cmp in H; now rewrite H.
Qed.

Lemma insert_item_perm (kv : string * string) (l : list (string * string)) :
  Permutation (insert_item kv l) (kv :: l).
Proof.
  induction l as [| x l IH]; simpl.
  - apply Permutation_refl.
  - destruct (String.leb (fst kv) (fst x)).
    + apply Permutation_refl.
    + eapply perm_trans; [apply perm_skip; exact IH | apply perm_swap].
Qed.

Lemma sort_items_perm (l : list (string * string)) :
  Permutation (sort_items l) l.
Proof.
  induction l as [| x l IH]; simpl.
  - apply perm_nil.
  - eapply perm_trans; [apply insert_item_perm | apply perm_skip; exact IH].
Qed.

Lemma insert_item_sorted (kv : string * string) (l : list (string * string)) :
  StronglySorted key_le l -> StronglySorted key_le (insert_item kv l).
Proof.
  induction 1 as [| x l Hs IH Hall]; simpl.
  - constructor; [constructor | constructor].
  - destruct (String.leb (fst kv) (fst x)) eqn:E.
    + constructor; [constructor; assumption |].
      constructor; [exact E |].
      eapply Forall_impl; [| exact Hall].
      intros y Hy; unfold key_le in *; eapply leb_trans; eassumption.
    + constructor; [exact IH |].
      assert (Hx : key_le x kv).
      { unfold key_le; destruct (String.leb_total (fst x) (fst kv)) as [H | H];
          [exact H | congruence]. }
      eapply Permutation_Forall;
        [apply Permutation_sym, insert_item_perm |].
      constructor; assumption.
Qed.

Lemma sort_items_sorted (l : list (string * string)) :
  StronglySorted key_le (sort_items l).
Proof.
  induction l as [| x l IH]; simpl.
  - constructor.
  - apply insert_item_sorted; exact IH.
Qed.

Lemma nodup_keys_inj (l : list (string * string)) (a b : string * string) :
  NoDup (map fst l) -> In a l -> In b l -> fst a = fst b -> a = b.
Proof.
  induction l as [| x l IH]; intros Hnd Ha Hb Hk; [contradiction |].
  simpl in Hnd; inversion Hnd as [| ? ? Hnin Hnd']; subst.
  destruct Ha as [-> | Ha], Hb as [-> | Hb].
  - reflexivity.
  - exfalso; apply Hnin; rewrite Hk; apply in_map; exact Hb.
  - exfalso; apply Hnin; rewrite <- Hk; apply in_map; exact Ha.
  - apply IH; assumption.
Qed.

(** Two key-sorted lists with the same items and distinct keys are equal. *)
Lemma sorted_perm_unique (l1 : list (string * string)) :
  forall l2,
    StronglySorted key_le l1 ->
    StronglySorted key_le l2 ->
    Permutation l1 l2 ->
    NoDup (map fst l1) ->
    l1 = l2.
Proof.
  induction l1 as [| a l1 IH]; intros l2 Hs1 Hs2 Hp Hnd.
  - apply Permutation_nil in Hp; now subst.
  - destruct l2 as [| b l2];
      [apply Permutation_sym, Permutation_nil in Hp; discriminate |].
    apply StronglySorted_inv in Hs1; destruct Hs1 as [Hs1 Ha].
    apply StronglySorted_inv in Hs2; destruct Hs2 as [Hs2 Hb].
    assert (Hab : a = b).
    { assert (Hin_b : In b (a :: l1))
        by (eapply Permutation_in; [apply Permutation_sym; exact Hp | now left]).
      assert (Hin_a : In a (b :: l2))
        by (eapply Permutation_in; [exact Hp | now left]).
      apply (nodup_keys_inj (a :: l1)); [exact Hnd | now left | exact Hin_b |].
      rewrite Forall_forall in Ha, Hb.
      apply String.leb_antisym.
      - destruct Hin_b as [<- | Hin_b]; [apply leb_refl | apply Ha; exact Hin_b].
      - destruct Hin_a as [<- | Hin_a]; [apply leb_refl | apply Hb; exact Hin_a]. }
    subst b; f_equal.
    apply IH; try assumption.
    + eapply Permutation_cons_inv; exact Hp.
    + simpl in Hnd; now inversion Hnd.
Qed.

(** [sorted] does not depend on the order the items come in. *)
Lemma sort_items_invariant (l1 l2 : list (string * string)) :
  Permutation l1 l2 ->
  NoDup (map fst l1) ->
  sort_items l1 = sort_items l2.
Proof.
  intros Hp Hnd.
  apply sorted_perm_unique; try apply sort_items_sorted.
  - eapply perm_trans; [apply sort_items_perm |].
    eapply perm_trans; [exact Hp | apply Permutation_sym, sort_items_perm].
  - eapply Permutation_NoDup; [| exact Hnd].
    apply Permutation_map, Permutation_sym, sort_items_perm.
Qed.

Lemma unique_keys_arr (items : list json) :
  unique_keys (JArr items) <-> Forall unique_keys items.
Proof.
  induction items as [| x items IH]; simpl.
  - split; [constructor | trivial].
  - split.
    + intros [Hx Hr]; constructor; [exact Hx | apply IH; exact Hr].
    + intros H; inversion H; subst; split; [assumption | apply IH; assumption].
Qed.

Lemma unique_keys_obj (fields : list (string * json)) :
  unique_keys (JObj fields) <->
  NoDup (map fst fields) /\ Forall (fun kv => unique_keys (snd kv)) fields.
Proof.
  simpl; apply and_iff_compat_l.
  induction fields as [| x fields IH].
  - split; [constructor | trivial].
  - split.
    + intros [Hx Hr]; constructor; [exact Hx | apply IH; exact Hr].
    + intros H; inversion H; subst; split; [assumption | apply IH; assumption].
Qed.

(** The canonical text does not depend on the order of dict items. *)
Lemma json_dumps_eqv (a b : json) :
  json_eqv a b ->
  unique_keys a ->
  json_dumps float_repr int_repr encode_str a
  = json_dumps float_repr int_repr encode_str b.
Proof.
  set (dumps := json_dumps float_repr int_repr encode_str).
  set (render := fun kv : string * json => (fst kv, dumps (snd kv))).
  intros H; revert a b H.
  apply (json_eqv_mut
           (fun a b => unique_keys a -> dumps a = dumps b)
           (fun xs ys => Forall unique_keys xs -> map dumps xs = map dumps ys)
           (fun fs gs => Forall (fun kv => unique_keys (snd kv)) fs ->
                         map render fs = map render gs));
    try reflexivity.
  - intros xs ys _ IH Hu.
    apply unique_keys_arr in Hu.
    unfold dumps; simpl; fold dumps.
    now rewrite (IH Hu).
  - intros fs gs gs' _ IH Hp Hu.
    apply unique_keys_obj in Hu; destruct Hu as [Hnd Hu].
    unfold dumps; simpl; fold dumps; fold render.
    rewrite (IH Hu).
    rewrite (sort_items_invariant (map render gs') (map render gs));
      [reflexivity | apply Permutation_map; exact Hp |].
    rewrite <- (IH Hu); unfold render; rewrite map_map; simpl; exact Hnd.
  - intros x y xs ys _ IHx _ IHxs Hu.
    inversion Hu; subst; simpl.
    now rewrite IHx, IHxs.
  - intros k v w fs gs _ IHv _ IHfs Hu.
    inversion Hu; subst; simpl in *.
    unfold render at 1 3; simpl.
    now rewrite IHv, IHfs.
Qed.

Lemma normalize_hash (fuel : nat) (rid : string) (raw : RawRouteFeature)
  (req : option R) (route : NormalizedRoute) :
  normalize fuel rid raw req = Return route ->
  source_raw_hash route
  = Some (stable_json_sha256 float_repr int_repr encode_str sha256_hexdigest
            (model_dump raw)).
Proof.
  unfold normalize_raw_route; intros H.
  destruct (validate_route_guardrails _) as [[] | e |]; cbn [bind] in H;
    try discriminate.
  destruct (pick_spacing_m _ req) as [sp | e |]; cbn [bind] in H;
    try discriminate.
  destruct (resample_even_spacing fuel _ _) as [samples | e |];
    cbn [bind] in H; try discriminate.
  destruct (build_points 0 samples _) as [pts | e |]; cbn [bind] in H;
    try discriminate.
  destruct (bbox_wgs84 _) as [bb | e |]; cbn [bind] in H; try discriminate.
  destruct (rev pts); [discriminate |].
  destruct (new_NormalizedRouteBody _ _ _ _ _) as [body | e |];
    cbn [bind] in H; try discriminate.
  now injection H as <-.
Qed.

(** C8.  Two raw inputs that are the same value up to the order of the
    fields of their objects (keys distinct within each object) get the same
    hash from [stable_json_sha256], hence the same [source_raw_hash] on the
    routes [normalize_raw_route] returns for them. *)
Theorem C8_hash_ignores_field_order :
  (forall a b : json,
     json_eqv a b ->
     unique_keys a ->
     stable_json_sha256 float_repr int_repr encode_str sha256_hexdigest a
     = stable_json_sha256 float_repr int_repr encode_str sha256_hexdigest b) /\
  (forall fuel rid raw1 raw2 req route1 route2,
     json_eqv (model_dump raw1) (model_dump raw2) ->
     unique_keys (model_dump raw1) ->
     normalize fuel rid raw1 req = Return route1 ->
     normalize fuel rid raw2 req = Return route2 ->
     source_raw_hash route1 = source_raw_hash route2).
Proof.
  assert (Hstable : forall a b : json,
             json_eqv a b -> unique_keys a ->
             stable_json_sha256 float_repr int_repr encode_str
               sha256_hexdigest a
             = stable_json_sha256 float_repr int_repr encode_str
                 sha256_hexdigest b).
  { intros a b He Hu; unfold stable_json_sha256.
    now rewrite (json_dumps_eqv a b He Hu). }
  split; [exact Hstable |].
  intros fuel rid raw1 raw2 req route1 route2 He Hu H1 H2.
  rewrite (normalize_hash _ _ _ _ _ H1), (normalize_hash _ _ _ _ _ H2).
  f_equal; apply Hstable; assumption.
Qed.

End PipelineProperties.

(* ================================================================== *)
(** * The properties at sample inputs *)
(* ================================================================== *)

(** Along a meridian the haversine distance is the arc [r * dphi]. *)
Lemma haversine_meridian (lo la1 la2 : R) :
  0 <= la2 - la1 <= 180 ->
  haversine_m lo la1 lo la2 = 6371000 * radians (la2 - la1).
Proof.
  intros H; pose proof PI_RGT_0 as Hpi; unfold haversine_m.
  replace (lo - lo) with 0 by lra.
  rewrite radians_0; replace (0 / 2) with 0 by lra; rewrite sin_0.
  replace (sin (radians (la2 - la1) / 2) ^ 2
           + cos (radians la1) * cos (radians la2) * 0 ^ 2)
    with (sin (radians (la2 - la1) / 2) ^ 2) by lra.
  pose proof (radians_range (la2 - la1) 0 180 H) as Hr.
  rewrite sqrt_pow2 by (apply sin_ge_0; lra).
  rewrite asin_sin by lra.
  lra.
Qed.

Lemma PI_bounds : 3 < PI <= 4.
Proof. pose proof PI2_3_2; pose proof PI_4; lra. Qed.

Lemma sample_dist : 1000 < dist (0, 0) (0, 1 / 100) < 1500.
Proof.
  unfold dist; cbn [fst snd].
  rewrite haversine_meridian by lra.
  unfold radians; pose proof PI_bounds; lra.
Qed.

Lemma sample_points_distinct : (0, 1 / 100) <> ((0, 0) : point).
Proof. intros H; injection H; lra. Qed.

Lemma dedupe_after_ne (p prev : point) (rest : list point) :
  p <> prev -> dedupe_after prev (p :: rest) = p :: dedupe_after p rest.
Proof.
  intros H; cbn [dedupe_after].
  destruct (point_eq_dec p prev); [contradiction | reflexivity].
Qed.

Lemma dedupe_after_eq (prev : point) (rest : list point) :
  dedupe_after prev (prev :: rest) = dedupe_after prev rest.
Proof.
  cbn [dedupe_after].
  destruct (point_eq_dec prev prev); [reflexivity | contradiction].
Qed.

Lemma sample_dedupe : dedupe sample_points = sample_points.
Proof.
  unfold sample_points, dedupe.
  rewrite dedupe_after_ne by exact sample_points_distinct.
  reflexivity.
Qed.

Lemma sample_dup_dedupe : dedupe sample_points_dup = sample_points.
Proof.
  unfold sample_points_dup, sample_points, dedupe.
  rewrite dedupe_after_eq, dedupe_after_ne by exact sample_points_distinct.
  reflexivity.
Qed.

Lemma sample_length : polyline_length_m sample_points = dist (0, 0) (0, 1 / 100).
Proof. unfold sample_points; simpl; lra. Qed.

Lemma sample_segments_ok :
  Forall (fun ab => 0 < dist (fst ab) (snd ab) <= 50000)
         (adjacent_pairs sample_points).
Proof.
  unfold sample_points; simpl; pose proof sample_dist.
  constructor; [simpl; lra | constructor].
Qed.

Lemma sample_valid : validate_route_guardrails sample_points = Return tt.
Proof.
  rewrite validate_spec.
  - rewrite sample_dedupe, sample_length.
    pose proof sample_dist; unfold MIN_ROUTE_M, MAX_ROUTE_M.
    destruct (Rlt_dec _ 25); [lra |].
    destruct (Rgt_dec _ 500000); [lra | reflexivity].
  - discriminate.
  - rewrite sample_dedupe; simpl; lia.
  - rewrite sample_dedupe; exact sample_segments_ok.
Qed.

Lemma sample_dup_valid : validate_route_guardrails sample_points_dup = Return tt.
Proof.
  rewrite <- validate_dedupe, sample_dup_dedupe; exact sample_valid.
Qed.

Lemma sample_total_pos :
  0 < sum_list (map seg_len (segments sample_points)).
Proof.
  pose proof (validate_total _ sample_valid) as H; unfold MIN_ROUTE_M in H; lra.
Qed.

Lemma sample_spacing : spacing_or_default (Some (1 / 10)) = 1 / 10.
Proof.
  unfold spacing_or_default.
  destruct (Req_dec_T (1 / 10) 0); [lra | reflexivity].
Qed.

Lemma sample_estimate :
  (MAX_POINTS
   < naive_estimate (polyline_length_m sample_points)
                (spacing_or_default (Some (1 / 10)%R)))%Z.
Proof.
  rewrite sample_spacing, sample_length; unfold naive_estimate, MAX_POINTS.
  pose proof sample_dist as Hd.
  assert (H : Z.le 10000 (Zfloor (dist (0, 0) (0, 1 / 100) / (1 / 10)))).
  { apply Zfloor_lub; lra. }
  lia.
Qed.

Lemma sample_default_spacing : 0 < spacing_or_default None.
Proof. unfold spacing_or_default, DEFAULT_SPACING_M; lra. Qed.

Lemma sample_default_finite :
  finite_quotient (polyline_length_m sample_points) (spacing_or_default None).
Proof. exact (default_finite sample_points sample_valid). Qed.

Lemma sample_estimate_finite :
  finite_quotient (polyline_length_m sample_points)
                  (spacing_or_default (Some (1 / 10))).
Proof.
  rewrite sample_spacing, sample_length; pose proof sample_dist as Hd.
  apply finite_quotient_below; [lra |].
  apply Rlt_le_trans with (IZR 15000); [lra |].
  apply IZR_le; vm_compute; discriminate.
Qed.

Lemma sample_est_points :
  est_points (polyline_length_m sample_points)
             (spacing_or_default (Some (1 / 10)))
  = Return (naive_estimate (polyline_length_m sample_points)
                           (spacing_or_default (Some (1 / 10)))).
Proof. exact (est_points_returns _ _ sample_estimate_finite). Qed.

Lemma sample_last_point : last_error sample_points = Some (0, 1 / 100).
Proof. reflexivity. Qed.

(** C1 at the sample route with a requested spacing of 0.1 m. *)
Lemma C1_witness :
  validate_route_guardrails sample_points = Return tt /\
  (exists est,
     est_points (polyline_length_m sample_points)
                (spacing_or_default (Some (1 / 10)))
     = Return est /\ (MAX_POINTS < est)%Z) /\
  pick_spacing_m (polyline_length_m sample_points) (Some (1 / 10))
  = Return (polyline_length_m sample_points / 2499) /\
  exists fuel route,
    normalize_raw_route no_text no_text same_text same_text fuel "r1"
      (sample_raw sample_points) (Some (1 / 10)) = Return route /\
    (point_count (normalized route) <= 2501)%nat.
Proof.
  destruct (C1_spacing_cap_point_count no_text no_text same_text same_text
              "r1" (sample_raw sample_points) (Some (1 / 10)) _
              sample_valid sample_est_points sample_estimate)
    as (Hpick & Hall & fuel & route & Hr).
  split; [exact sample_valid |].
  split; [eexists; split; [exact sample_est_points | exact sample_estimate] |].
  split; [exact Hpick |].
  exists fuel, route; split; [exact Hr | exact (proj2 (Hall fuel route Hr))].
Defined.

(** C2 at the sample route with its first point repeated. *)
Lemma C2_witness :
  validate_route_guardrails sample_points_dup = Return tt /\
  outcome_map normalized
    (normalize_raw_route no_text no_text same_text same_text 10 "r1"
       (with_coordinates (sample_raw sample_points_dup)
          (dedupe sample_points_dup)) None)
  = outcome_map normalized
      (normalize_raw_route no_text no_text same_text same_text 10 "r1"
         (sample_raw sample_points_dup) None).
Proof.
  split; [exact sample_dup_valid |].
  exact (C2_duplicates_do_not_change_output no_text no_text same_text
           same_text 10 "r1" (sample_raw sample_points_dup) None
           sample_dup_valid).
Defined.

(** C4 at the sample route. *)
Lemma C4_witness :
  exists fuel route,
    normalize_raw_route no_text no_text same_text same_text fuel "r1"
      (sample_raw sample_points) None = Return route /\
    option_map cum_dist_m (hd_error (points (normalized route))) = Some 0 /\
    Sorted Rle (map cum_dist_m (points (normalized route))) /\
    option_map cum_dist_m (last_error (points (normalized route)))
    = Some (total_distance_m (normalized route)).
Proof.
  destruct (normalize_returns no_text no_text same_text same_text "r1"
              (sample_raw sample_points) None sample_valid
              sample_default_spacing sample_default_finite) as [fuel Hf].
  destruct (Hf fuel (Nat.le_refl fuel)) as [route Hr].
  exists fuel, route; split; [exact Hr |].
  exact (C4_cumulative_distance_monotone no_text no_text same_text same_text
           fuel "r1" (sample_raw sample_points) None route Hr).
Defined.

(** C5 at the sample route: it passes. *)
Lemma C5_witness :
  sample_points <> [] /\
  (2 <= List.length (dedupe sample_points))%nat /\
  Forall (fun ab => 0 < dist (fst ab) (snd ab) <= 50000)
         (adjacent_pairs (dedupe sample_points)) /\
  validate_route_guardrails sample_points = Return tt.
Proof.
  assert (H1 : sample_points <> []) by discriminate.
  assert (H2 : (2 <= List.length (dedupe sample_points))%nat)
    by (rewrite sample_dedupe; simpl; lia).
  assert (H3 : Forall (fun ab => 0 < dist (fst ab) (snd ab) <= 50000)
                      (adjacent_pairs (dedupe sample_points)))
    by (rewrite sample_dedupe; exact sample_segments_ok).
  destruct (C5_total_length_guardrails sample_points H1 H2 H3)
    as (_ & _ & Hok).
  repeat split; try assumption.
  apply Hok; rewrite sample_dedupe, sample_length.
  pose proof sample_dist; lra.
Defined.

(** C6 at the sample route. *)
Lemma C6_witness :
  validate_route_guardrails sample_points = Return tt /\
  normalize_raw_route no_text no_text same_text same_text 10 "r1"
    (sample_raw sample_points) None <> Raise ZeroLengthRoute.
Proof.
  split; [exact sample_valid |].
  exact (proj2 (proj2 (C6_zero_length_unreachable no_text no_text same_text
                          same_text 10 "r1" (sample_raw sample_points) None
                          sample_valid))).
Defined.

(** C7 at the sample route. *)
Lemma C7_witness :
  0 <= bearing_deg_true 0 0 0 (1 / 100) < 360 /\
  exists fuel route,
    normalize_raw_route no_text no_text same_text same_text fuel "r1"
      (sample_raw sample_points) None = Return route /\
    Forall (fun p => 0 <= bearing p < 360) (points (normalized route)).
Proof.
  destruct (C7_bearing_range no_text no_text same_text same_text)
    as [Hb Hall].
  split; [apply Hb |].
  destruct (normalize_returns no_text no_text same_text same_text "r1"
              (sample_raw sample_points) None sample_valid
              sample_default_spacing sample_default_finite) as [fuel Hf].
  destruct (Hf fuel (Nat.le_refl fuel)) as [route Hr].
  exists fuel, route; split; [exact Hr | exact (Hall _ _ _ _ _ Hr)].
Defined.

Lemma sample_client_valid (d : list (string * json)) :
  validate_route_guardrails (coordinates (geometry (sample_raw_client d)))
  = Return tt.
Proof. exact sample_valid. Qed.

Lemma json_eqv_refl : forall j : json, json_eqv j j.
Proof.
  fix IH 1; intros [| b | n | x | s | items | fields]; try constructor.
  - induction items as [| x items IHitems]; constructor;
      [apply IH | exact IHitems].
  - apply eqv_obj with (gs' := fields); [| apply Permutation_refl].
    induction fields as [| [k v] fields IHfields]; constructor;
      [apply IH | exact IHfields].
Qed.

Lemma sample_client_eqv :
  json_eqv (model_dump (sample_raw_client sample_client_ab))
           (model_dump (sample_raw_client sample_client_ba)).
Proof.
  unfold model_dump; cbn -[sample_points].
  eapply eqv_obj; [| apply Permutation_refl].
  do 3 (constructor; [apply json_eqv_refl |]).
  constructor; [| constructor].
  eapply eqv_obj; [| apply Permutation_refl].
  do 4 (constructor; [apply json_eqv_refl |]).
  constructor; [| constructor].
  eapply eqv_obj with (gs' := sample_client_ab); [| apply perm_swap].
  repeat (constructor; [apply json_eqv_refl |]); constructor.
Qed.

Lemma sample_client_unique :
  unique_keys (model_dump (sample_raw_client sample_client_ab)).
Proof.
  simpl; repeat split; repeat constructor; simpl; intuition discriminate.
Qed.

(** C8 at the sample route, submitted with the two keys of its [client]
    dict in either order. *)
Lemma C8_witness :
  json_eqv (model_dump (sample_raw_client sample_client_ab))
           (model_dump (sample_raw_client sample_client_ba)) /\
  unique_keys (model_dump (sample_raw_client sample_client_ab)) /\
  exists fuel route1 route2,
    normalize_raw_route no_text no_text same_text same_text fuel "r1"
      (sample_raw_client sample_client_ab) None = Return route1 /\
    normalize_raw_route no_text no_text same_text same_text fuel "r1"
      (sample_raw_client sample_client_ba) None = Return route2 /\
    source_raw_hash route1 = source_raw_hash route2.
Proof.
  split; [exact sample_client_eqv | split; [exact sample_client_unique |]].
  destruct (normalize_returns no_text no_text same_text same_text "r1"
              (sample_raw_client sample_client_ab) None
              (sample_client_valid sample_client_ab) sample_default_spacing
              sample_default_finite)
    as [fuel1 Hf1].
  destruct (normalize_returns no_text no_text same_text same_text "r1"
              (sample_raw_client sample_client_ba) None
              (sample_client_valid sample_client_ba) sample_default_spacing
              sample_default_finite)
    as [fuel2 Hf2].
  destruct (Hf1 (Nat.max fuel1 fuel2) (Nat.le_max_l _ _)) as [route1 Hr1].
  destruct (Hf2 (Nat.max fuel1 fuel2) (Nat.le_max_r _ _)) as [route2 Hr2].
  exists (Nat.max fuel1 fuel2), route1, route2.
  split; [exact Hr1 | split; [exact Hr2 |]].
  exact (proj2 (C8_hash_ignores_field_order no_text no_text same_text
                  same_text)
           _ _ _ _ _ _ _ sample_client_eqv sample_client_unique Hr1 Hr2).
Defined.



(** ** Where the specification and the code differ *)

Lemma denormal_spacing_pos : 0 < denormal_spacing.
Proof.
  unfold denormal_spacing; apply Rinv_0_lt_compat, IZR_lt.
  vm_compute; reflexivity.
Qed.

Lemma denormal_quotient (total : R) :
  1000 < total -> (10 ^ 313 <= Zfloor (total / denormal_spacing))%Z.
Proof.
  intros Ht; apply Zfloor_lub.
  replace (10 ^ 313)%Z with (1000 * 10 ^ 310)%Z by (vm_compute; reflexivity).
  rewrite mult_IZR; unfold denormal_spacing, Rdiv; rewrite Rinv_inv.
  assert (Hx : 0 < IZR (10 ^ 310)) by (apply IZR_lt; vm_compute; reflexivity).
  apply Rmult_le_compat_r; lra.
Qed.

Lemma denormal_overflows (total : R) :
  1000 < total ->
  ~ finite_quotient total (spacing_or_default (Some denormal_spacing)).
Proof.
  intros Ht; unfold finite_quotient, spacing_or_default.
  pose proof denormal_spacing_pos as Hp.
  destruct (Req_dec_T denormal_spacing 0) as [E | _]; [lra |].
  pose proof (denormal_quotient total Ht) as Hq.
  assert (Hbig : (FLOAT_OVERFLOW <= 10 ^ 313)%Z) by (vm_compute; discriminate).
  generalize dependent (10 ^ 313)%Z; intros; lia.
Qed.

(** C1, as stated, fails at a requested spacing of [1e-310] on the sample
    route: the naive estimate [floor(total / spacing) + 2] exceeds 2500, yet
    the selector does not widen the spacing: the floor division overflows,
    and it raises [OverflowError], as does the pipeline. *)
Lemma C1_counterexample_overflow :
  validate_route_guardrails sample_points = Return tt /\
  (MAX_POINTS
   < Zfloor (polyline_length_m sample_points
             / spacing_or_default (Some denormal_spacing)) + 2)%Z /\
  pick_spacing_m (polyline_length_m sample_points) (Some denormal_spacing)
  = Raise OverflowError /\
  forall fuel,
    normalize_raw_route no_text no_text same_text same_text fuel "r1"
      (sample_raw sample_points) (Some denormal_spacing)
    = Raise OverflowError.
Proof.
  assert (Ht : 1000 < polyline_length_m sample_points).
  { rewrite sample_length; pose proof sample_dist; lra. }
  assert (Hpick : pick_spacing_m (polyline_length_m sample_points)
                    (Some denormal_spacing) = Raise OverflowError).
  { apply pick_spacing_overflows; [lra | exact (denormal_overflows _ Ht)]. }
  split; [exact sample_valid | split; [| split; [exact Hpick |]]].
  - pose proof (denormal_quotient _ Ht) as Hq.
    unfold spacing_or_default; pose proof denormal_spacing_pos as Hp.
    destruct (Req_dec_T denormal_spacing 0) as [E | _]; [lra |].
    assert (Hbig : (2500 < 10 ^ 313)%Z) by (vm_compute; reflexivity).
    unfold MAX_POINTS; generalize dependent (10 ^ 313)%Z; intros; lia.
  - intros fuel; unfold normalize_raw_route.
    change (coordinates (geometry (sample_raw sample_points)))
      with sample_points.
    rewrite sample_valid; cbn [bind]; rewrite Hpick; reflexivity.
Qed.

(** C3.  In binary64, on the two-point route from [(-0.1, 0.0)] to
    [(0.2, 0.0)]: at the last target the advance loop leaves the cursor on
    the one segment, so the branch that copies the end point is not taken;
    the last sample is interpolated with [frac = 1.0] and has longitude
    [0.20000000000000004], which is not the [0.2] of the last point. *)
Lemma C3_last_point_binary64 :
  List.length
    (fst (Binary64.advance
            (Binary64.segments Binary64.sample_haversine Binary64.sample_points)
            PrimFloat.zero Binary64.sample_len)) = 1%nat /\
  Binary64.final_lonlat
    (Binary64.resample_even_spacing Binary64.sample_haversine 200
       Binary64.sample_points Binary64.sample_spacing)
  = Some Binary64.sample_final /\
  PrimFloat.eqb (fst Binary64.sample_final) Binary64.sample_last_lon = false /\
  last_error Binary64.sample_points = Some (Binary64.sample_last_lon, PrimFloat.zero).
Proof. repeat split; vm_compute; reflexivity. Qed.




(* ================================================================== *)
(** * Further properties of the code *)
(* ================================================================== *)

(** ** Distances and bearings *)

Lemma radians_opp (x : R) : radians (- x) = - radians x.
Proof. unfold radians; lra. Qed.

Lemma asin_nonneg (x : R) : 0 <= x -> 0 <= asin x.
Proof.
  intros Hx; pose proof PI_RGT_0 as Hpi.
  destruct (Rle_dec 1 x) as [H1 | H1].
  - unfold asin.
    destruct (Rle_dec x (-1)); [lra |].
    destruct (Rle_dec 1 x); [lra | contradiction].
  - destruct (Req_dec_T x 0) as [-> | Hx0]; [rewrite asin_0; lra |].
    rewrite asin_atan by lra.
    rewrite <- atan_0; left; apply atan_increasing.
    apply Rdiv_lt_0_compat; [lra |].
    apply sqrt_lt_R0; unfold Rsqr; nra.
Qed.

(** The haversine distance is never negative and never above half the
    circumference of the sphere, whatever the coordinates. *)
Lemma haversine_bounds (alon alat blon blat : R) :
  0 <= haversine_m alon alat blon blat <= PI * 6371000.
Proof.
  unfold haversine_m.
  set (s := sin _ ^ 2 + _).
  pose proof (asin_nonneg (sqrt s) (sqrt_pos s)) as Hlo.
  pose proof (asin_bound (sqrt s)) as [_ Hhi].
  split; nra.
Qed.

Lemma dist_nonneg (a b : point) : 0 <= dist a b.
Proof. unfold dist; apply haversine_bounds. Qed.

(** X1.  [haversine_m] is symmetric in its two points, and so is the
    distance between two coordinate pairs. *)
Theorem X1_haversine_symmetric :
  (forall alon alat blon blat : R,
     haversine_m alon alat blon blat = haversine_m blon blat alon alat) /\
  (forall a b : point, dist a b = dist b a).
Proof.
  assert (Hsym : forall alon alat blon blat : R,
             haversine_m alon alat blon blat = haversine_m blon blat alon alat);
    [| split; [exact Hsym | intros a b; unfold dist; apply Hsym]].
  intros alon alat blon blat.
  unfold haversine_m.
  replace (alat - blat) with (- (blat - alat)) by lra.
  replace (alon - blon) with (- (blon - alon)) by lra.
  rewrite !radians_opp.
  replace (- radians (blat - alat) / 2) with (- (radians (blat - alat) / 2))
    by lra.
  replace (- radians (blon - alon) / 2) with (- (radians (blon - alon) / 2))
    by lra.
  rewrite !sin_neg.
  do 3 f_equal; ring.
Qed.





(** ** Polyline length, bounding box, de-duplication *)

Lemma build_segs_app (xs : list point) :
  forall (prev y : point) (ys : list point),
    build_segs prev (xs ++ y :: ys)
    = build_segs prev (xs ++ [y]) ++ build_segs y ys.
Proof.
  induction xs as [| x xs IH]; intros prev y ys; simpl.
  - reflexivity.
  - now rewrite IH.
Qed.

Lemma polyline_nonneg (pts : list point) : 0 <= polyline_length_m pts.
Proof.
  rewrite polyline_length_segments; apply sum_list_nonneg.
  destruct pts as [| a rest]; [constructor |]; simpl.
  revert a; induction rest as [| b rest IH]; intros a; simpl;
    constructor; [apply dist_nonneg | apply IH].
Qed.

Lemma list_min_spec (xs : list R) :
  forall x,
    list_min x xs <= x /\
    Forall (fun y => list_min x xs <= y) xs /\
    In (list_min x xs) (x :: xs).
Proof.
  unfold list_min.
  induction xs as [| y xs IH]; intros x; simpl.
  - split; [lra | split; [constructor | now left]].
  - destruct (IH (Rmin x y)) as (H1 & H2 & H3).
    pose proof (Rbasic_fun.Rmin_l x y); pose proof (Rbasic_fun.Rmin_r x y).
    split; [lra | split].
    + constructor; [lra | exact H2].
    + destruct H3 as [H3 | H3]; [| now right; right].
      rewrite <- H3; unfold Rmin; destruct (Rle_dec x y); auto.
Qed.

Lemma list_max_spec (xs : list R) :
  forall x,
    x <= list_max x xs /\
    Forall (fun y => y <= list_max x xs) xs /\
    In (list_max x xs) (x :: xs).
Proof.
  unfold list_max.
  induction xs as [| y xs IH]; intros x; simpl.
  - split; [lra | split; [constructor | now left]].
  - destruct (IH (Rmax x y)) as (H1 & H2 & H3).
    pose proof (Rbasic_fun.Rmax_l x y); pose proof (Rbasic_fun.Rmax_r x y).
    split; [lra | split].
    + constructor; [lra | exact H2].
    + destruct H3 as [H3 | H3]; [| now right; right].
      rewrite <- H3; unfold Rmax; destruct (Rle_dec x y); auto.
Qed.

(** The box of a non-empty list of points. *)
Lemma bbox_spec (p : point) (pts : list point) :
  exists bb,
    bbox_wgs84 (p :: pts) = Return bb /\
    (forall q, In q (p :: pts) -> in_box bb (fst q) (snd q)) /\
    In (min_lon bb) (map fst (p :: pts)) /\
    In (max_lon bb) (map fst (p :: pts)) /\
    In (min_lat bb) (map snd (p :: pts)) /\
    In (max_lat bb) (map snd (p :: pts)).
Proof.
  unfold bbox_wgs84; simpl map.
  eexists; split; [reflexivity |]; cbn [min_lon max_lon min_lat max_lat].
  destruct (list_min_spec (map fst pts) (fst p)) as (A1 & A2 & A3).
  destruct (list_max_spec (map fst pts) (fst p)) as (B1 & B2 & B3).
  destruct (list_min_spec (map snd pts) (snd p)) as (C1 & C2 & C3).
  destruct (list_max_spec (map snd pts) (snd p)) as (D1 & D2 & D3).
  repeat split; try assumption;
    rewrite Forall_map, Forall_forall in A2, B2, C2, D2;
    destruct H as [<- | H]; auto.
Qed.

(** X5.  [bbox_wgs84] raises on an empty list; on any other list it returns
    a box that contains every point, and each of its four bounds is the
    longitude or latitude of one of the points. *)
Theorem X5_bbox_contains_points :
  bbox_wgs84 [] = Raise EmptySequence /\
  (forall p pts,
     exists bb,
       bbox_wgs84 (p :: pts) = Return bb /\
       (forall q, In q (p :: pts) -> in_box bb (fst q) (snd q)) /\
       In (min_lon bb) (map fst (p :: pts)) /\
       In (max_lon bb) (map fst (p :: pts)) /\
       In (min_lat bb) (map snd (p :: pts)) /\
       In (max_lat bb) (map snd (p :: pts))).
Proof. split; [reflexivity | exact bbox_spec]. Qed.

Lemma dedupe_after_no_repeats (rest : list point) :
  forall prev,
    Forall (fun ab => fst ab <> snd ab) (pairs_from prev (dedupe_after prev rest)).
Proof.
  induction rest as [| p rest IH]; intros prev; simpl.
  - constructor.
  - destruct (point_eq_dec p prev) as [-> | Hne]; [apply IH |].
    simpl; constructor; [simpl; congruence | apply IH].
Qed.

Lemma dedupe_after_last (rest : list point) :
  forall prev,
    last_error (prev :: dedupe_after prev rest) = last_error (prev :: rest).
Proof.
  induction rest as [| p rest IH]; intros prev; simpl.
  - reflexivity.
  - rewrite last_error_cons.
    destruct (point_eq_dec p prev) as [-> | Hne].
    + apply IH.
    + rewrite last_error_cons; apply IH.
Qed.

Lemma dedupe_after_length (rest : list point) :
  forall prev,
    (List.length (dedupe_after prev rest) <= List.length rest)%nat.
Proof.
  induction rest as [| p rest IH]; intros prev; simpl.
  - lia.
  - destruct (point_eq_dec p prev); simpl; [specialize (IH prev) |
                                              specialize (IH p)]; lia.
Qed.

Lemma dedupe_after_fixed (rest : list point) :
  forall prev,
    Forall (fun ab => fst ab <> snd ab) (pairs_from prev rest) ->
    dedupe_after prev rest = rest.
Proof.
  induction rest as [| p rest IH]; intros prev H; simpl.
  - reflexivity.
  - inversion H as [| ? ? Hne H']; subst; simpl in Hne.
    destruct (point_eq_dec p prev); [congruence |].
    now rewrite IH.
Qed.

Lemma dedupe_after_polyline (rest : list point) :
  forall acc prev,
    polyline_loop acc prev (dedupe_after prev rest)
    = polyline_loop acc prev rest.
Proof.
  induction rest as [| p rest IH]; intros acc prev; simpl.
  - reflexivity.
  - destruct (point_eq_dec p prev) as [-> | Hne]; simpl.
    + rewrite dist_self, IH.
      rewrite (polyline_loop_sum rest acc), (polyline_loop_sum rest (acc + 0)).
      lra.
    + apply IH.
Qed.

(** X6.  What the de-dupe loop keeps: the result has no two equal
    neighbours, starts and ends with the same points as the input, is never
    longer, has the same polyline length, and is the input itself when that
    has no equal neighbours; de-duplicating twice changes nothing more. *)
Theorem X6_dedupe_properties (pts : list point) :
  no_repeats (dedupe pts) /\
  hd_error (dedupe pts) = hd_error pts /\
  last_error (dedupe pts) = last_error pts /\
  (List.length (dedupe pts) <= List.length pts)%nat /\
  polyline_length_m (dedupe pts) = polyline_length_m pts /\
  dedupe (dedupe pts) = dedupe pts /\
  (no_repeats pts -> dedupe pts = pts).
Proof.
  destruct pts as [| a rest].
  - repeat split; try reflexivity; try constructor; simpl; lia.
  - unfold no_repeats; simpl.
    split; [apply dedupe_after_no_repeats |].
    split; [reflexivity |].
    split; [apply dedupe_after_last |].
    split; [pose proof (dedupe_after_length rest a); lia |].
    split; [apply dedupe_after_polyline |].
    split; [now rewrite dedupe_after_idem |].
    intros H; now rewrite dedupe_after_fixed.
Qed.

(** ** The validator of raw coordinates *)

Lemma check_coords_spec (coords : list point) :
  (Forall in_range coords -> check_coords coords = Return tt) /\
  (~ Forall in_range coords -> check_coords coords = Raise ValidationError).
Proof.
  induction coords as [| [lo la] coords [IH1 IH2]]; simpl.
  - split; [reflexivity | intros H; exfalso; apply H; constructor].
  - split.
    + intros H; inversion H as [| ? ? [[H1 H2] [H3 H4]] H']; subst;
        simpl in *.
      destruct (Rle_dec (-180) lo); [| contradiction].
      destruct (Rle_dec lo 180); [| contradiction].
      destruct (Rle_dec (-90) la); [| contradiction].
      destruct (Rle_dec la 90); [| contradiction].
      apply IH1; exact H'.
    + intros H.
      destruct (Rle_dec (-180) lo) as [H1 |]; [| reflexivity].
      destruct (Rle_dec lo 180) as [H2 |]; [| reflexivity].
      destruct (Rle_dec (-90) la) as [H3 |]; [| reflexivity].
      destruct (Rle_dec la 90) as [H4 |]; [| reflexivity].
      apply IH2; intros H'; apply H.
      constructor; [unfold in_range; simpl; lra | exact H'].
Qed.

(** X7.  [validate_coords] returns the coordinates unchanged when there are
    at least two of them and every one lies in [-180, 180] x [-90, 90]; in
    every other case it raises. *)
Theorem X7_validate_coords_accepts_in_range (coords : list point) :
  ((2 <= List.length coords)%nat /\ Forall in_range coords ->
   validate_coords coords = Return coords) /\
  (~ ((2 <= List.length coords)%nat /\ Forall in_range coords) ->
   validate_coords coords = Raise ValidationError) /\
  (forall out, validate_coords coords = Return out -> out = coords).
Proof.
  unfold validate_coords.
  destruct (check_coords_spec coords) as [Hok Hbad].
  destruct (List.length coords <? 2)%nat eqn:Hlen.
  - apply Nat.ltb_lt in Hlen.
    split; [intros [H _]; lia |].
    split; [reflexivity | discriminate].
  - apply Nat.ltb_ge in Hlen.
    split; [intros [_ H]; now rewrite (Hok H) |].
    split.
    + intros H; rewrite Hbad; [reflexivity |].
      intros H'; apply H; split; assumption.
    + intros out H.
      destruct (check_coords coords) as [[] | e |]; simpl in H;
        try discriminate.
      now injection H as <-.
Qed.

(** ** Guardrail verdicts *)

Lemma dedupe_polyline (pts : list point) :
  polyline_length_m (dedupe pts) = polyline_length_m pts.
Proof.
  destruct pts as [| a rest]; [reflexivity | apply dedupe_after_polyline].
Qed.

Lemma pairs_nonempty_length (pts : list point) :
  adjacent_pairs pts <> [] -> (2 <= List.length pts)%nat /\ pts <> [].
Proof.
  destruct pts as [| a [| b rest]]; simpl; intros H;
    try contradiction; split; [lia | discriminate].
Qed.

Lemma length_two_pairs (pts : list point) :
  (2 <= List.length pts)%nat -> pts <> [].
Proof. destruct pts; simpl; [lia | discriminate]. Qed.

(** The verdict of the segment loop is that of the first offending pair. *)
Lemma check_segments_raise (rest : list point) :
  forall (prev : point) (e : error),
    check_segments prev rest = Raise e <->
    exists pre a b post,
      pairs_from prev rest = pre ++ (a, b) :: post /\
      Forall (fun ab => 0 < dist (fst ab) (snd ab) <= MAX_SEGMENT_M) pre /\
      ((e = DuplicatePointAdjacent /\ dist a b = 0) \/
       (e = SegmentTooLong /\ MAX_SEGMENT_M < dist a b)).
Proof.
  induction rest as [| q rest IH]; intros prev e; simpl.
  - split; [discriminate |].
    intros (pre & a & b & post & H & _); destruct pre; discriminate.
  - pose proof (dist_nonneg prev q) as Hnn.
    assert (Hhead : forall pre a b post,
               (prev, q) :: pairs_from q rest = pre ++ (a, b) :: post ->
               Forall (fun ab => 0 < dist (fst ab) (snd ab) <= MAX_SEGMENT_M)
                      pre ->
               (pre = [] /\ a = prev /\ b = q) \/
               (0 < dist prev q <= MAX_SEGMENT_M /\
                exists pre', pre = (prev, q) :: pre' /\
                             pairs_from q rest = pre' ++ (a, b) :: post /\
                             Forall (fun ab => 0 < dist (fst ab) (snd ab)
                                               <= MAX_SEGMENT_M) pre')).
    { intros pre a b post Hp Hpre.
      destruct pre as [| x pre]; simpl in Hp.
      - left; injection Hp as -> -> _; auto.
      - right; injection Hp as <- Hp'.
        inversion Hpre; subst; simpl in *; eauto. }
    destruct (Rle_dec (dist prev q) 0) as [H0 | H0].
    + split.
      * intros H; injection H as <-.
        exists [], prev, q, (pairs_from q rest).
        split; [reflexivity |].
        split; [constructor | left; split; [reflexivity | lra]].
      * intros (pre & a & b & post & Hp & Hpre & Hbad).
        destruct (Hhead _ _ _ _ Hp Hpre) as [(_ & -> & ->) | [Hc _]]; [| lra].
        destruct Hbad as [[-> _] | [_ Hb]]; [reflexivity |].
        unfold MAX_SEGMENT_M in Hb; lra.
    + destruct (Rgt_dec (dist prev q) MAX_SEGMENT_M) as [H1 | H1].
      * split.
        -- intros H; injection H as <-.
           exists [], prev, q, (pairs_from q rest).
           split; [reflexivity |].
           split; [constructor | right; split; [reflexivity | lra]].
        -- intros (pre & a & b & post & Hp & Hpre & Hbad).
           destruct (Hhead _ _ _ _ Hp Hpre) as [(_ & -> & ->) | [Hc _]];
             [| lra].
           destruct Hbad as [[_ Hb] | [-> _]]; [lra | reflexivity].
      * rewrite IH; split.
        -- intros (pre & a & b & post & Hp & Hpre & Hbad).
           exists ((prev, q) :: pre), a, b, post.
           split; [simpl; now rewrite Hp |].
           split; [constructor; [simpl; lra | exact Hpre] | exact Hbad].
        -- intros (pre & a & b & post & Hp & Hpre & Hbad).
           destruct (Hhead _ _ _ _ Hp Hpre)
             as [(_ & -> & ->) | (_ & pre' & _ & Hp' & Hpre')].
           ++ destruct Hbad as [[_ Hb] | [_ Hb]]; lra.
           ++ exists pre', a, b, post; auto.
Qed.

Lemma dedupe_after_nil (rest : list point) (a : point) :
  dedupe_after a rest = [] <-> Forall (fun q => q = a) rest.
Proof.
  induction rest as [| p rest IH]; simpl.
  - split; [constructor | reflexivity].
  - destruct (point_eq_dec p a) as [-> | Hne].
    + rewrite IH; split; intros H; [constructor; auto | now inversion H].
    + split; [discriminate | intros H; inversion H; contradiction].
Qed.

(** X9.  Degenerate inputs: validation fails with [IndexError] exactly on the
    empty list and reports a collapsed route exactly when the list is not
    empty and all its points are equal. *)
Theorem X9_validation_degenerate_inputs (pts : list point) :
  (validate_route_guardrails pts = Raise IndexError <-> pts = []) /\
  (validate_route_guardrails pts = Raise RouteTooSparse <->
   pts <> [] /\ forall p q, In p pts -> In q pts -> p = q).
Proof.
  assert (Hother : forall a rest e,
             dedupe_after a rest <> [] ->
             validate_route_guardrails (a :: rest) = Raise e ->
             e <> IndexError /\ e <> RouteTooSparse).
  { intros a rest e Hd H; unfold validate_route_guardrails in H.
    change (dedupe (a :: rest)) with (a :: dedupe_after a rest) in H.
    destruct (dedupe_after a rest) as [| d ds] eqn:Hdd; [contradiction |].
    simpl List.length in H; cbn [Nat.ltb Nat.leb] in H.
    destruct (check_segments a (d :: ds)) as [[] | e' |] eqn:Hc;
      cbn [bind] in H.
    - destruct (Rlt_dec _ MIN_ROUTE_M); [injection H as <-; split; discriminate |].
      destruct (Rgt_dec _ MAX_ROUTE_M); [injection H as <-; split; discriminate |].
      discriminate.
    - injection H as <-.
      apply check_segments_raise in Hc.
      destruct Hc as (_ & _ & _ & _ & _ & _ & [[-> _] | [-> _]]);
        split; discriminate.
    - discriminate. }
  destruct pts as [| a rest].
  - split; [split; reflexivity |].
    split; [discriminate | intros [H _]; contradiction].
  - destruct (dedupe_after a rest) as [| d ds] eqn:Hdd.
    + assert (Hv : validate_route_guardrails (a :: rest) = Raise RouteTooSparse).
      { unfold validate_route_guardrails.
        change (dedupe (a :: rest)) with (a :: dedupe_after a rest).
        now rewrite Hdd. }
      apply dedupe_after_nil in Hdd; rewrite Forall_forall in Hdd.
      rewrite Hv; split; [split; discriminate |].
      split; [| reflexivity].
      intros _; split; [discriminate |].
      intros p q [<- | Hp] [<- | Hq]; auto.
      * symmetry; auto.
      * rewrite (Hdd p Hp), (Hdd q Hq); reflexivity.
    + assert (Hne : dedupe_after a rest <> []) by (rewrite Hdd; discriminate).
      split; split; intros H.
      * destruct (Hother a rest _ Hne H) as [Hc _]; contradiction.
      * discriminate.
      * destruct (Hother a rest _ Hne H) as [_ Hc]; contradiction.
      * exfalso; apply Hne; apply dedupe_after_nil.
        destruct H as [_ H]; rewrite Forall_forall.
        intros q Hq; apply H; [now right | now left].
Qed.

Lemma dedupe_after_repeat (xs : list point) :
  forall (prev p : point) (ys : list point),
    dedupe_after prev (xs ++ p :: p :: ys) = dedupe_after prev (xs ++ p :: ys).
Proof.
  induction xs as [| x xs IH]; intros prev p ys.
  - cbn [app dedupe_after].
    destruct (point_eq_dec p prev) as [-> | Hne].
    + reflexivity.
    + destruct (point_eq_dec p p); [reflexivity | contradiction].
  - cbn [app dedupe_after].
    destruct (point_eq_dec x prev); now rewrite IH.
Qed.

(** X11.  Repeating a point of the route in place changes neither the
    de-duplicated route nor the verdict of the validation. *)
Theorem X11_validation_ignores_repeats (xs ys : list point) (p : point) :
  dedupe (xs ++ p :: p :: ys) = dedupe (xs ++ p :: ys) /\
  validate_route_guardrails (xs ++ p :: p :: ys)
  = validate_route_guardrails (xs ++ p :: ys).
Proof.
  assert (Hd : dedupe (xs ++ p :: p :: ys) = dedupe (xs ++ p :: ys)).
  { destruct xs as [| x xs].
    - cbn [app dedupe]; now rewrite dedupe_after_eq.
    - cbn [app dedupe]; now rewrite dedupe_after_repeat. }
  split; [exact Hd |].
  rewrite <- (validate_dedupe (xs ++ p :: p :: ys)), Hd.
  apply validate_dedupe.
Qed.

(** ** The spacing selector, again *)

Lemma spacing_or_default_some (s : R) : s <> 0 -> spacing_or_default (Some s) = s.
Proof.
  intros H; unfold spacing_or_default.
  destruct (Req_dec_T s 0); [contradiction | reflexivity].
Qed.

(** Where it returns, the selector only ever widens. *)
Lemma selected_spacing_widens (total : R) (req : option R) :
  0 < total ->
  0 < spacing_or_default req ->
  0 < selected_spacing total req /\
  spacing_or_default req <= selected_spacing total req /\
  (selected_spacing total req = spacing_or_default req \/
   selected_spacing total req = total / 2499) /\
  total / selected_spacing total req <= 2499.
Proof.
  intros Ht Hs.
  destruct (Zfloor_bound (total / spacing_or_default req)) as [Hlo Hhi].
  destruct (Z_le_gt_dec (naive_estimate total (spacing_or_default req)) MAX_POINTS)
    as [Hle | Hgt].
  - rewrite (pick_spacing_kept total req Hle).
    split; [exact Hs | split; [lra | split; [now left |]]].
    unfold naive_estimate, MAX_POINTS in Hle.
    assert (Hz : (Zfloor (total / spacing_or_default req) + 1 <= 2499)%Z)
      by lia.
    apply IZR_le in Hz; rewrite plus_IZR in Hz.
    generalize dependent (spacing_or_default req); intros s0 Hs Hlo Hhi Hz.
    lra.
  - rewrite (pick_spacing_widened total req Ht ltac:(lia)).
    unfold naive_estimate, MAX_POINTS in Hgt.
    assert (Hz : (2499 <= Zfloor (total / spacing_or_default req))%Z) by lia.
    apply IZR_le in Hz.
    generalize dependent (spacing_or_default req); intros s0 Hs Hlo Hhi _ Hz.
    assert (Hq : 2499 <= total / s0) by lra.
    assert (Hw : s0 <= total / 2499).
    { apply (Rmult_le_compat_r s0) in Hq; [| lra].
      replace (total / s0 * s0) with total in Hq by (field; lra).
      lra. }
    split; [lra | split; [exact Hw | split; [now right |]]].
    replace (total / (total / 2499)) with 2499 by (field; lra).
    lra.
Qed.

(** X12.  The selector only ever widens: for a route of positive length and
    a positive requested (or default) spacing, a spacing it returns is
    positive, is not below the requested one, and is either the requested one
    or [total / 2499]; it returns whenever the estimate is computed, and it
    raises nothing but the [OverflowError] of the estimate. *)
Theorem X12_pick_spacing_only_widens (total : R) (req : option R) :
  0 < total ->
  0 < spacing_or_default req ->
  (forall s, pick_spacing_m total req = Return s ->
             0 < s /\ spacing_or_default req <= s /\
             (s = spacing_or_default req \/ s = total / 2499)) /\
  (forall est, est_points total (spacing_or_default req) = Return est ->
               exists s, pick_spacing_m total req = Return s) /\
  (forall e, pick_spacing_m total req = Raise e ->
             e = OverflowError /\
             est_points total (spacing_or_default req) = Raise OverflowError).
Proof.
  intros Ht Hs; split; [| split].
  - intros s H; destruct (pick_spacing_inv _ _ _ H) as [-> _].
    destruct (selected_spacing_widens total req Ht Hs) as (H1 & H2 & H3 & _).
    auto.
  - intros est H; destruct (est_points_inv _ _ _ H) as [Hf _].
    eexists; apply pick_spacing_returns; now right.
  - intros e H; destruct (pick_spacing_raise _ _ _ H) as (-> & _ & Hf).
    split; [reflexivity | exact (est_points_overflows _ _ Hf)].
Qed.

Lemma selected_spacing_idempotent (total : R) (req : option R) :
  selected_spacing total (Some (selected_spacing total req))
  = selected_spacing total req.
Proof.
  pose proof (spacing_or_default_nonzero req) as Hnz.
  remember (spacing_or_default req) as s0 eqn:Hs0.
  destruct (Rle_dec total 0) as [Ht | Ht].
  - assert (Hp : selected_spacing total req = s0).
    { unfold selected_spacing; rewrite <- Hs0.
      destruct (Rle_dec total 0); [reflexivity | contradiction]. }
    rewrite Hp; unfold selected_spacing.
    rewrite (spacing_or_default_some s0 Hnz).
    destruct (Rle_dec total 0); [reflexivity | contradiction].
  - destruct (Z_le_gt_dec (naive_estimate total s0) MAX_POINTS) as [Hle | Hgt].
    + assert (Hp : selected_spacing total req = s0).
      { rewrite pick_spacing_kept; [now rewrite Hs0 | now rewrite <- Hs0]. }
      rewrite Hp, pick_spacing_kept;
        rewrite (spacing_or_default_some s0 Hnz); [reflexivity | exact Hle].
    + assert (Hp : selected_spacing total req = total / 2499).
      { apply pick_spacing_widened; [lra | rewrite <- Hs0; lia]. }
      rewrite Hp; apply pick_spacing_widened; [lra |].
      rewrite spacing_or_default_some by (apply Rgt_not_eq; lra).
      unfold naive_estimate, MAX_POINTS.
      replace (total / (total / 2499)) with (IZR 2499) by (field; lra).
      rewrite (Zfloor_eq 2499); [lia | lra].
Qed.

Lemma selected_spacing_nonzero (total : R) (req : option R) :
  0 < total -> selected_spacing total req <> 0.
Proof.
  intros Ht; pose proof (spacing_or_default_nonzero req) as Hnz.
  destruct (Z_le_gt_dec (naive_estimate total (spacing_or_default req))
                        MAX_POINTS) as [Hle | Hgt].
  - now rewrite pick_spacing_kept.
  - rewrite pick_spacing_widened by (lra || lia).
    apply Rgt_not_eq, Rdiv_lt_0_compat; lra.
Qed.

(** A selected spacing is one at which the estimate does not overflow. *)
Lemma selected_spacing_finite (total : R) (req : option R) :
  0 < total ->
  finite_quotient total (spacing_or_default req) ->
  finite_quotient total (selected_spacing total req).
Proof.
  intros Ht Hf.
  destruct (Z_le_gt_dec (naive_estimate total (spacing_or_default req))
                        MAX_POINTS) as [Hle | Hgt].
  - now rewrite pick_spacing_kept.
  - rewrite pick_spacing_widened by (lra || lia).
    replace (total / 2499) with (total / 2499) by reflexivity.
    apply finite_quotient_below.
    + replace (total / (total / 2499)) with 2499 by (field; lra); lra.
    + replace (total / (total / 2499)) with 2499 by (field; lra).
      apply IZR_lt; vm_compute; reflexivity.
Qed.

(** X13.  Selecting again with the returned spacing as the request gives the
    same outcome: the same spacing, or the same error. *)
Theorem X13_pick_spacing_idempotent (total : R) (req : option R) :
  (s <- pick_spacing_m total req ;; pick_spacing_m total (Some s))
  = pick_spacing_m total req.
Proof.
  destruct (pick_spacing_m total req) as [s | e |] eqn:H; cbn [bind];
    try reflexivity.
  destruct (pick_spacing_inv _ _ _ H) as [-> Hok].
  rewrite <- (selected_spacing_idempotent total req) at 2.
  apply pick_spacing_returns.
  destruct (Rle_dec total 0) as [Hle | Hpos]; [now left | right].
  destruct Hok as [Hle | Hf]; [contradiction |].
  rewrite spacing_or_default_some
    by (apply selected_spacing_nonzero; lra).
  apply selected_spacing_finite; [lra | exact Hf].
Qed.

(** ** Evenly spaced samples *)

Lemma steps_targets (spacing total : R) (n : nat) :
  forall k : nat,
    steps (INR k * spacing)
          (map (fun j => spacing + INR j * spacing) (seq k n) ++ [total])
    = repeat spacing n ++ [total - INR (k + n) * spacing].
Proof.
  induction n as [| n IH]; intros k; cbn [steps map seq app repeat].
  - now rewrite Nat.add_0_r.
  - f_equal; [lra |].
    replace (spacing + INR k * spacing) with (INR (S k) * spacing)
      by (rewrite S_INR; lra).
    rewrite IH.
    replace (S k + n)%nat with (k + S n)%nat by lia; reflexivity.
Qed.

Lemma emit_seg_nonempty (sl : segment) (ts : list R) :
  forall rest start lc out,
    out <> [] ->
    map s_seg_dist (emit sl rest start lc out ts)
    = map s_seg_dist out ++ steps lc ts.
Proof.
  induction ts as [| t ts IH]; intros rest start lc out Hne; simpl.
  - now rewrite app_nil_r.
  - destruct (advance rest start t) as [rest1 start1].
    destruct (locate sl rest1 start1 t) as [lo la].
    rewrite IH by (destruct out; discriminate).
    rewrite map_app, <- app_assoc; simpl.
    destruct out; [contradiction | reflexivity].
Qed.

Lemma emit_seg_first (sl : segment) (t : R) (ts : list R) rest start lc :
  map s_seg_dist (emit sl rest start lc [] (t :: ts)) = 0 :: steps t ts.
Proof.
  simpl.
  destruct (advance rest start t) as [rest1 start1].
  destruct (locate sl rest1 start1 t) as [lo la].
  rewrite emit_seg_nonempty by discriminate; reflexivity.
Qed.

(** The shape of a returned resampling: [n] full steps and a last one. *)
Lemma resample_shape (fuel : nat) (pts : list point) (spacing : R)
  (samples : list sample) :
  let total := sum_list (map seg_len (segments pts)) in
  0 < total ->
  resample_even_spacing fuel pts spacing = Return samples ->
  exists n : nat,
    map s_cum_dist samples
    = (0 :: map (fun j => INR (S j) * spacing) (seq 0 n)) ++ [total] /\
    map s_seg_dist samples
    = (0 :: repeat spacing n) ++ [total - INR n * spacing] /\
    INR n * spacing < total <= INR (S n) * spacing /\
    0 < spacing.
Proof.
  intros total Htot H.
  destruct (resample_inv _ _ _ _ H) as (ts & s0 & segs' & _ & _ & Hts & ->).
  fold total in Hts.
  destruct (build_targets_spec _ _ _ _ Htot Hts)
    as (n & -> & Hbelow & Hstop & Hpos).
  exists n.
  assert (Hn : INR n * spacing < total).
  { destruct n as [| n]; [simpl; lra |].
    specialize (Hbelow n ltac:(lia)); rewrite S_INR; lra. }
  assert (Hsp : 0 < spacing).
  { destruct n as [| n]; [simpl in Hstop; lra | apply Hpos; lia]. }
  split; [| split; [| split; [split |]]].
  - rewrite emit_cum; cbn [map app]; do 2 f_equal.
    apply map_ext; intros j; rewrite S_INR; lra.
  - cbn [app]; rewrite emit_seg_first; f_equal.
    replace 0 with (INR 0 * spacing) at 1 by (simpl; lra).
    now rewrite steps_targets.
  - exact Hn.
  - rewrite S_INR; lra.
  - exact Hsp.
Qed.

(** ** The first sample *)

(** X17.  The first sample of a validated route sits on its first point,
    with cumulative and segment distance 0. *)
Theorem X17_first_sample_is_first_point (fuel : nat) (pts : list point)
  (spacing : R) (samples : list sample) :
  validate_route_guardrails pts = Return tt ->
  resample_even_spacing fuel pts spacing = Return samples ->
  exists smp more,
    samples = smp :: more /\
    hd_error pts = Some (s_lon smp, s_lat smp) /\
    s_cum_dist smp = 0 /\
    s_seg_dist smp = 0.
Proof.
  intros Hv H.
  destruct (validated_segments pts Hv) as (a & rest & Hp & Hch & Hok & _ & Htot).
  destruct (resample_inv _ _ _ _ H) as (ts & s0 & segs' & Hsegs & _ & Hts & ->).
  unfold MIN_ROUTE_M in Htot.
  assert (Hpos : 0 < sum_list (map seg_len (segments pts))) by lra.
  destruct (build_targets_spec _ _ _ _ Hpos Hts) as (n & -> & _).
  rewrite Hsegs in Hch, Hok |- *.
  destruct Hch as [Ha _].
  apply Forall_inv in Hok; destruct Hok as [Hnn Hz].
  rewrite Hp; cbn [app emit advance hd_error].
  destruct (Rlt_dec (0 + seg_len s0) 0) as [Hc | _]; [lra |].
  cbn [locate].
  assert (Hloc : (if Req_dec_T (seg_len s0) 0 then (b_lon s0, b_lat s0)
                  else (a_lon s0 + (0 - 0) / seg_len s0 * (b_lon s0 - a_lon s0),
                        a_lat s0 + (0 - 0) / seg_len s0 * (b_lat s0 - a_lat s0)))
                 = a).
  { rewrite <- Ha; unfold seg_a.
    destruct (Req_dec_T (seg_len s0) 0) as [H0 | H0].
    - symmetry; apply (Hz H0).
    - replace ((0 - 0) / seg_len s0) with 0 by (field; exact H0).
      f_equal; lra. }
  rewrite Hloc; destruct a as [alo ala].
  match goal with
  | |- context [emit ?sl ?r ?st ?lc ?out ?ts] =>
      destruct (emit_prefix sl ts r st lc out) as [more Hm]; rewrite Hm
  end.
  eexists; exists more; split; [reflexivity |].
  simpl; auto.
Qed.

(* ================================================================== *)
(** ** Returned routes *)
(* ================================================================== *)

Lemma pick_spacing_steps (total : R) (req : option R) :
  0 < total ->
  0 < selected_spacing total req ->
  total / selected_spacing total req <= 2499.
Proof.
  intros Ht Hp.
  destruct (Z_le_gt_dec (naive_estimate total (spacing_or_default req)) MAX_POINTS)
    as [Hle | Hgt].
  - rewrite (pick_spacing_kept total req Hle) in *.
    destruct (Zfloor_bound (total / spacing_or_default req)) as [_ Hhi].
    unfold naive_estimate, MAX_POINTS in Hle.
    assert (Hz : (Zfloor (total / spacing_or_default req) + 1 <= 2499)%Z)
      by lia.
    apply IZR_le in Hz; rewrite plus_IZR in Hz.
    generalize dependent (spacing_or_default req); intros s0 _ Hhi Hz.
    lra.
  - rewrite (pick_spacing_widened total req Ht ltac:(lia)).
    replace (total / (total / 2499)) with 2499 by (field; lra).
    lra.
Qed.

Lemma contiguous_nth (pts : list NormalizedPoint) :
  forall idx k p,
    contiguous_from idx pts = true ->
    nth_error pts k = Some p ->
    i p = (idx + k)%nat.
Proof.
  induction pts as [| q pts IH]; intros idx k p Hc Hn.
  - destruct k; discriminate.
  - simpl in Hc; apply andb_prop in Hc; destruct Hc as [Hq Hc].
    apply Nat.eqb_eq in Hq.
    destruct k as [| k]; simpl in Hn.
    + injection Hn as <-; lia.
    + rewrite (IH (S idx) k p Hc Hn); lia.
Qed.

Lemma skipn_nth_cons {A : Type} (l : list A) :
  forall (idx : nat) (x : A),
    nth_error l idx = Some x -> skipn idx l = x :: skipn (S idx) l.
Proof.
  induction l as [| b bs IHb]; intros idx x Hb;
    [destruct idx; discriminate |].
  destruct idx as [| idx]; simpl in *.
  - now injection Hb as ->.
  - apply IHb; exact Hb.
Qed.

Lemma build_points_seg (samples : list sample) (bearings : list R) :
  forall (idx : nat) (pts : list NormalizedPoint),
    build_points idx samples bearings = Return pts ->
    map seg_dist_m pts = map s_seg_dist samples /\
    map bearing pts = firstn (List.length samples) (skipn idx bearings).
Proof.
  induction samples as [| s samples IH]; intros idx pts H; simpl in H.
  - injection H as <-; split; reflexivity.
  - destruct (nth_error bearings idx) as [brg |] eqn:Hb; [| discriminate].
    destruct (new_NormalizedPoint idx _ _ _ _ brg) as [p | e |] eqn:Hp;
      simpl in H; try discriminate.
    destruct (build_points (S idx) samples bearings) as [ps | e |] eqn:Hps;
      simpl in H; try discriminate.
    injection H as <-.
    destruct (new_point_inv _ _ _ _ _ _ _ Hp) as (-> & _).
    destruct (IH _ _ Hps) as [H1 H2].
    rewrite (skipn_nth_cons bearings idx brg Hb).
    cbn [map seg_dist_m bearing List.length firstn].
    now rewrite H1, H2.
Qed.

Lemma bearings_of_snoc (samples : list sample) :
  bearings_of samples
  = bearings_loop samples ++ [last (bearings_loop samples) 0].
Proof.
  unfold bearings_of; destruct (bearings_loop samples); reflexivity.
Qed.

Lemma bearings_loop_forward (samples : list sample) :
  forall pts : list NormalizedPoint,
    map (fun p => (lon p, lat p)) pts
    = map (fun s => (s_lon s, s_lat s)) samples ->
    bearings_loop samples = forward_bearings pts.
Proof.
  induction samples as [| s1 samples IH]; intros pts H.
  - destruct pts; [reflexivity | discriminate].
  - destruct pts as [| p1 pts]; [discriminate |].
    simpl in H; injection H as Hlo Hla Hrest.
    destruct samples as [| s2 samples'].
    + destruct pts; [reflexivity | discriminate].
    + destruct pts as [| p2 pts']; [discriminate |].
      change (bearings_loop (s1 :: s2 :: samples'))
        with (bearing_deg_true (s_lon s1) (s_lat s1) (s_lon s2) (s_lat s2)
                :: bearings_loop (s2 :: samples')).
      change (forward_bearings (p1 :: p2 :: pts'))
        with (bearing_deg_true (lon p1) (lat p1) (lon p2) (lat p2)
                :: forward_bearings (p2 :: pts')).
      rewrite (IH (p2 :: pts') Hrest).
      simpl in Hrest; injection Hrest as Hlo2 Hla2 _.
      now rewrite Hlo, Hla, Hlo2, Hla2.
Qed.

Lemma validate_raise_cases (pts : list point) (e : error) :
  validate_route_guardrails pts = Raise e ->
  (e = IndexError /\ pts = []) \/
  (pts <> [] /\
   (e = RouteTooSparse \/ e = DuplicatePointAdjacent \/ e = SegmentTooLong \/
    e = RouteTooShort \/ e = RouteTooLong)).
Proof.
  unfold validate_route_guardrails; intros H.
  destruct pts as [| a rest]; [injection H as <-; now left |].
  right; split; [discriminate |].
  destruct (List.length (dedupe (a :: rest)) <? 2)%nat;
    [injection H as <-; now left |].
  change (dedupe (a :: rest)) with (a :: dedupe_after a rest) in H.
  destruct (check_segments a (dedupe_after a rest)) as [[] | e' |] eqn:Hc;
    cbn [bind] in H; try discriminate.
  - destruct (Rlt_dec _ MIN_ROUTE_M); [injection H as <-; tauto |].
    destruct (Rgt_dec _ MAX_ROUTE_M); [injection H as <-; tauto | discriminate].
  - injection H as <-.
    apply check_segments_raise in Hc.
    destruct Hc as (_ & _ & _ & _ & _ & _ & [[-> _] | [-> _]]); tauto.
Qed.

Lemma check_segments_never_diverges (rest : list point) :
  forall prev, check_segments prev rest <> Diverge.
Proof.
  induction rest as [| q rest IH]; intros prev; simpl; [discriminate |].
  destruct (Rle_dec _ 0); [discriminate |].
  destruct (Rgt_dec _ MAX_SEGMENT_M); [discriminate | apply IH].
Qed.

Lemma validate_never_diverges (pts : list point) :
  validate_route_guardrails pts <> Diverge.
Proof.
  unfold validate_route_guardrails.
  destruct pts as [| a rest]; [discriminate |].
  destruct (List.length (dedupe (a :: rest)) <? 2)%nat; [discriminate |].
  change (dedupe (a :: rest)) with (a :: dedupe_after a rest).
  destruct (check_segments a (dedupe_after a rest)) as [[] | e' |] eqn:Hc;
    cbn [bind]; try discriminate.
  - destruct (Rlt_dec _ MIN_ROUTE_M); [discriminate |].
    destruct (Rgt_dec _ MAX_ROUTE_M); discriminate.
  - exfalso; exact (check_segments_never_diverges _ _ Hc).
Qed.

Lemma resample_no_index_error (fuel : nat) (pts : list point) (spacing : R) :
  resample_even_spacing fuel pts spacing <> Raise IndexError.
Proof.
  unfold resample_even_spacing, build_targets.
  destruct (Req_dec_T _ 0) as [H0 | H0]; [discriminate |].
  destruct (targets_loop fuel spacing _ spacing [0]) as [ts | e' |] eqn:Hts;
    cbn [bind]; try discriminate.
  - destruct (segments pts) eqn:Hs; [| discriminate].
    exfalso; apply H0; reflexivity.
  - exfalso; eapply targets_loop_no_raise; exact Hts.
Qed.

Lemma negative_spacing_kept (total : R) (req : option R) :
  0 < total ->
  spacing_or_default req < 0 ->
  selected_spacing total req = spacing_or_default req.
Proof.
  intros Ht Hneg.
  destruct (Z_le_gt_dec (naive_estimate total (spacing_or_default req)) MAX_POINTS)
    as [Hle | Hgt]; [exact (pick_spacing_kept total req Hle) |].
  pose proof (est_above_cap_spacing_pos total req Ht ltac:(lia)); lra.
Qed.

Lemma check_coords_inv (coords : list point) :
  check_coords coords = Return tt -> Forall in_range coords.
Proof.
  induction coords as [| [lo la] coords IH]; simpl; intros H.
  - constructor.
  - pass_checks H.
    constructor; [unfold in_range; simpl; lra | exact (IH H)].
Qed.

Lemma validate_coords_inv (coords out : list point) :
  validate_coords coords = Return out ->
  out = coords /\ (2 <= List.length coords)%nat /\ Forall in_range coords.
Proof.
  unfold validate_coords; intros H.
  destruct (List.length coords <? 2)%nat eqn:Hlen; [discriminate |].
  apply Nat.ltb_ge in Hlen.
  destruct (check_coords coords) as [[] | e |] eqn:Hc; simpl in H;
    try discriminate.
  injection H as <-; split; [reflexivity | split; [exact Hlen |]].
  exact (check_coords_inv coords Hc).
Qed.

(* ================================================================== *)
(** ** The orchestrator and the endpoint *)
(* ================================================================== *)

Section RouteProperties.

Variable float_repr : R -> string.
Variable int_repr : Z -> string.
Variable encode_str : string -> string.
Variable sha256_hexdigest : string -> string.

Local Abbreviation normalize :=
  (normalize_raw_route float_repr int_repr encode_str sha256_hexdigest).

Local Abbreviation create :=
  (create_route float_repr int_repr encode_str sha256_hexdigest).

(** Every part of a returned [NormalizedRoute]. *)
Lemma normalize_parts (fuel : nat) (rid : string) (raw : RawRouteFeature)
  (req : option R) (route : NormalizedRoute) :
  normalize fuel rid raw req = Return route ->
  exists samples pts bb,
    resample_even_spacing fuel (coordinates (geometry raw))
      (selected_spacing (polyline_length_m (coordinates (geometry raw))) req)
    = Return samples /\
    build_points 0 samples (bearings_of samples) = Return pts /\
    bbox_wgs84 (map (fun p => (lon p, lat p)) pts) = Return bb /\
    route_id route = rid /\
    point_count (normalized route) = List.length pts /\
    body_bbox (normalized route) = bb /\
    points (normalized route) = pts.
Proof.
  unfold normalize_raw_route; intros H.
  destruct (validate_route_guardrails _) as [[] | e |]; simpl in H;
    try discriminate.
  destruct (pick_spacing_m _ req) as [sp | e |] eqn:Hpick; simpl in H;
    try discriminate.
  destruct (pick_spacing_inv _ _ _ Hpick) as [-> _].
  destruct (resample_even_spacing fuel _ _) as [samples | e |] eqn:Hsamples;
    simpl in H; try discriminate.
  destruct (build_points 0 samples _) as [pts | e |] eqn:Hpts; simpl in H;
    try discriminate.
  destruct (bbox_wgs84 _) as [bb | e |] eqn:Hbb; simpl in H; try discriminate.
  destruct (rev pts) as [| p_last r] eqn:Hrev; [discriminate |].
  destruct (new_NormalizedRouteBody _ _ _ _ _) as [body | e |] eqn:Hbody;
    simpl in H; try discriminate.
  injection H as <-; simpl.
  exists samples, pts, bb.
  unfold new_NormalizedRouteBody in Hbody; pass_checks Hbody.
  injection Hbody as <-; simpl.
  repeat split; assumption.
Qed.

(** Once the resampler has returned, so does the pipeline: no later check
    fires. *)
Lemma normalize_of_resample (fuel : nat) (rid : string)
  (raw : RawRouteFeature) (req : option R) (sp : R) (samples : list sample) :
  validate_route_guardrails (coordinates (geometry raw)) = Return tt ->
  pick_spacing_m (polyline_length_m (coordinates (geometry raw))) req
  = Return sp ->
  resample_even_spacing fuel (coordinates (geometry raw)) sp = Return samples ->
  exists route, normalize fuel rid raw req = Return route.
Proof.
  intros Hv Hpick Hsamples.
  set (pts0 := coordinates (geometry raw)) in *.
  pose proof (validate_total pts0 Hv) as Htot; unfold MIN_ROUTE_M in Htot.
  assert (Hpos : 0 < sum_list (map seg_len (segments pts0))) by lra.
  unfold normalize_raw_route; fold pts0; rewrite Hv; cbn [bind].
  rewrite Hpick; cbn [bind]; rewrite Hsamples; cbn [bind].
  destruct (resample_shape _ _ _ _ Hpos Hsamples) as (_ & _ & _ & _ & Hsp).
  destruct (resample_nonneg _ _ _ _ Hpos Hsamples) as (Hc & Hs & Hlen).
  destruct (build_points_returns samples (bearings_of samples) Hc Hs
              (bearings_of_range samples) 0%nat)
    as [pts Hpts]; [apply bearings_of_length |].
  destruct (build_points_inv _ _ _ _ Hpts) as (Hcum & Hll & Hcont & _ & _).
  assert (Hlenp : List.length pts = List.length samples).
  { rewrite <- (length_map cum_dist_m), Hcum, length_map; reflexivity. }
  rewrite Hpts; cbn [bind].
  destruct pts as [| p1 pts']; [simpl in Hlenp; lia |].
  simpl bbox_wgs84; cbn [bind].
  destruct (rev (p1 :: pts')) as [| p_last r] eqn:Hrev.
  { apply (f_equal (@List.length _)) in Hrev.
    rewrite length_rev in Hrev; discriminate. }
  assert (Hlast : 0 <= cum_dist_m p_last).
  { assert (Hin : In p_last (p1 :: pts')).
    { apply in_rev; rewrite Hrev; now left. }
    assert (Hall : Forall (fun x => 0 <= x) (map cum_dist_m (p1 :: pts'))).
    { rewrite Hcum; apply Forall_map; exact Hc. }
    rewrite Forall_map, Forall_forall in Hall; apply Hall; exact Hin. }
  unfold new_NormalizedRouteBody.
  destruct (Rlt_dec 0 sp); [| contradiction].
  destruct (Rle_dec 0 (cum_dist_m p_last)); [| contradiction].
  rewrite Nat.eqb_refl, Hcont.
  assert (Hge : (2 <=? List.length (p1 :: pts'))%nat = true)
    by (apply Nat.leb_le; lia).
  rewrite Hge; simpl; eauto.
Qed.

(** What the pipeline can raise: what validation raises, or after a passed
    validation what the spacing selector raises. *)
Lemma normalize_raises (fuel : nat) (rid : string) (raw : RawRouteFeature)
  (req : option R) (e : error) :
  normalize fuel rid raw req = Raise e ->
  validate_route_guardrails (coordinates (geometry raw)) = Raise e \/
  (validate_route_guardrails (coordinates (geometry raw)) = Return tt /\
   pick_spacing_m (polyline_length_m (coordinates (geometry raw))) req
   = Raise e).
Proof.
  intros H.
  destruct (validate_route_guardrails (coordinates (geometry raw)))
    as [[] | e' |] eqn:Hv.
  - right; split; [reflexivity |].
    destruct (pick_spacing_m (polyline_length_m (coordinates (geometry raw)))
                req) as [sp | e' |] eqn:Hpick.
    + exfalso.
      destruct (resample_even_spacing fuel (coordinates (geometry raw)) sp)
        as [samples | e' |] eqn:Hs.
      * destruct (normalize_of_resample fuel rid raw req sp samples Hv Hpick Hs)
          as [route Hr].
        rewrite Hr in H; discriminate.
      * pose proof (validate_total _ Hv) as Htot; unfold MIN_ROUTE_M in Htot.
        destruct (resample_raise _ _ _ _ Hs) as [[_ H0] | ->]; [lra |].
        exact (resample_no_index_error _ _ _ Hs).
      * unfold normalize_raw_route in H.
        rewrite Hv in H; cbn [bind] in H.
        rewrite Hpick in H; cbn [bind] in H.
        rewrite Hs in H; discriminate.
    + unfold normalize_raw_route in H.
      rewrite Hv in H; cbn [bind] in H.
      rewrite Hpick in H; cbn [bind] in H.
      now injection H as <-.
    + exfalso; exact (pick_spacing_never_diverges _ _ Hpick).
  - left; unfold normalize_raw_route in H; rewrite Hv in H; cbn [bind] in H.
    now injection H as <-.
  - exfalso; exact (validate_never_diverges _ Hv).
Qed.

(** A returned spacing is at least [total / 2499]. *)
Lemma selected_spacing_cap (total : R) (req : option R) :
  0 < total ->
  0 < selected_spacing total req ->
  total / 2499 <= selected_spacing total req.
Proof.
  intros Ht Hs.
  pose proof (pick_spacing_steps total req Ht Hs) as Hq.
  apply (Rmult_le_compat_r (selected_spacing total req)) in Hq; [| lra].
  replace (total / selected_spacing total req * selected_spacing total req)
    with total in Hq by (field; lra).
  lra.
Qed.

(** In the pipeline the target loop stops within 2500 rounds. *)
Lemma normalize_returns_within (fuel : nat) (rid : string)
  (raw : RawRouteFeature) (req : option R) :
  validate_route_guardrails (coordinates (geometry raw)) = Return tt ->
  0 < spacing_or_default req ->
  finite_quotient (polyline_length_m (coordinates (geometry raw)))
                  (spacing_or_default req) ->
  (2500 <= fuel)%nat ->
  exists route, normalize fuel rid raw req = Return route.
Proof.
  intros Hv Hreq Hfin Hfuel.
  pose proof (validate_total _ Hv) as Htot; unfold MIN_ROUTE_M in Htot.
  assert (Hpos : 0 < sum_list (map seg_len
                                 (segments (coordinates (geometry raw)))))
    by lra.
  assert (Hpick := pick_spacing_returns
                     (polyline_length_m (coordinates (geometry raw))) req
                     (or_intror Hfin)).
  assert (Hsp : 0 < selected_spacing
                      (polyline_length_m (coordinates (geometry raw))) req).
  { apply pick_spacing_pos; [rewrite polyline_length_segments |]; assumption. }
  assert (Hpos' : 0 < polyline_length_m (coordinates (geometry raw)))
    by (rewrite polyline_length_segments; exact Hpos).
  pose proof (selected_spacing_cap _ req Hpos' Hsp) as Hcap.
  rewrite polyline_length_segments in Hcap at 1.
  destruct (resample_returns_capped _ _ Hpos Hcap fuel Hfuel)
    as (samples & Hs & _).
  exact (normalize_of_resample fuel rid raw req _ samples Hv Hpick Hs).
Qed.


(** X19.  In a returned route [point_count] is the number of points, at
    least 2 and at most 2501, and the point at position [k] carries the
    index [k]. *)
Theorem X19_route_point_count_and_indices (fuel : nat) (rid : string)
  (raw : RawRouteFeature) (req : option R) (route : NormalizedRoute) :
  normalize fuel rid raw req = Return route ->
  point_count (normalized route) = List.length (points (normalized route)) /\
  (2 <= point_count (normalized route) <= 2501)%nat /\
  (forall k p, nth_error (points (normalized route)) k = Some p -> i p = k).
Proof.
  intros H.
  destruct (normalize_inv _ _ _ _ _ _ _ _ _ H)
    as (Hv & samples & pts & p_last & bb & Hs & Hp & Hlast & Hbody).
  rewrite Hbody; simpl.
  pose proof (validate_total _ Hv) as Htot; unfold MIN_ROUTE_M in Htot.
  assert (Hpos : 0 < sum_list (map seg_len
                                 (segments (coordinates (geometry raw)))))
    by lra.
  destruct (build_points_inv _ _ _ _ Hp) as (Hcum & _ & Hcont & _).
  destruct (resample_shape _ _ _ _ Hpos Hs) as (n & Hc & _ & [Hlo Hhi] & Hsp).
  rewrite <- Hcum in Hc.
  apply (f_equal (@List.length R)) in Hc.
  rewrite length_map, length_app in Hc; simpl in Hc.
  rewrite length_map, length_seq in Hc.
  rewrite Hc.
  rewrite <- polyline_length_segments in Hpos, Hlo.
  pose proof (pick_spacing_steps _ req Hpos Hsp) as Hsteps.
  clear Hs Hbody Htot Hhi.
  remember (selected_spacing (polyline_length_m (coordinates (geometry raw)))
              req) as spacing eqn:Esp; clear Esp.
  remember (polyline_length_m (coordinates (geometry raw))) as total eqn:Et.
  clear Et.
  assert (Hq : total / spacing * spacing = total) by (field; lra).
  assert (Hn : (n < 2499)%nat).
  { assert (Hr : INR n < 2499).
    { apply Rmult_lt_reg_r with spacing; [exact Hsp |].
      assert (total / spacing * spacing <= 2499 * spacing)
        by (apply Rmult_le_compat_r; lra).
      lra. }
    rewrite INR_IZR_INZ in Hr; apply lt_IZR in Hr; lia. }
  split; [reflexivity | split; [lia |]].
  intros k p Hk; exact (contiguous_nth pts 0 k p Hcont Hk).
Qed.

(** X20.  The bearing of every point of a returned route but the last is the
    initial bearing from it to the next point, and the last point repeats the
    bearing of the one before it. *)
Theorem X20_route_bearings_point_forward (fuel : nat) (rid : string)
  (raw : RawRouteFeature) (req : option R) (route : NormalizedRoute) :
  normalize fuel rid raw req = Return route ->
  map bearing (points (normalized route))
  = forward_bearings (points (normalized route))
    ++ [last (forward_bearings (points (normalized route))) 0].
Proof.
  intros H.
  destruct (normalize_inv _ _ _ _ _ _ _ _ _ H)
    as (Hv & samples & pts & p_last & bb & Hs & Hp & _ & Hbody).
  rewrite Hbody; simpl.
  pose proof (validate_total _ Hv) as Htot; unfold MIN_ROUTE_M in Htot.
  assert (Hpos : 0 < sum_list (map seg_len
                                 (segments (coordinates (geometry raw)))))
    by lra.
  destruct (resample_nonneg _ _ _ _ Hpos Hs) as (_ & _ & Hlen).
  destruct (build_points_inv _ _ _ _ Hp) as (_ & Hll & _).
  destruct (build_points_seg _ _ _ _ Hp) as (_ & Hb).
  rewrite Hb; cbn [skipn].
  rewrite bearings_of_snoc, (bearings_loop_forward samples pts Hll).
  apply firstn_all2.
  rewrite length_app, <- (bearings_loop_forward samples pts Hll),
    bearings_loop_length; simpl; lia.
Qed.

(** X21.  The bounding box of a returned route is the box of its own points:
    it contains every one of them, and each of its four bounds is the
    longitude or latitude of one of them. *)
Theorem X21_route_bbox_of_points (fuel : nat) (rid : string)
  (raw : RawRouteFeature) (req : option R) (route : NormalizedRoute) :
  normalize fuel rid raw req = Return route ->
  let body := normalized route in
  Forall (fun p => in_box (body_bbox body) (lon p) (lat p)) (points body) /\
  In (min_lon (body_bbox body)) (map lon (points body)) /\
  In (max_lon (body_bbox body)) (map lon (points body)) /\
  In (min_lat (body_bbox body)) (map lat (points body)) /\
  In (max_lat (body_bbox body)) (map lat (points body)).
Proof.
  intros H; cbv zeta.
  destruct (normalize_parts _ _ _ _ _ H)
    as (samples & pts & bb & _ & _ & Hbb & _ & _ & Ebb & Epts).
  rewrite Ebb, Epts; clear Ebb Epts.
  destruct pts as [| p1 pts']; [discriminate Hbb |].
  destruct (bbox_spec (lon p1, lat p1) (map (fun p => (lon p, lat p)) pts'))
    as (bb' & Hbb' & Hall & Hmin_lo & Hmax_lo & Hmin_la & Hmax_la).
  change ((lon p1, lat p1) :: map (fun p => (lon p, lat p)) pts')
    with (map (fun p => (lon p, lat p)) (p1 :: pts')) in *.
  rewrite Hbb in Hbb'; injection Hbb' as <-.
  rewrite map_map in Hmin_lo, Hmax_lo, Hmin_la, Hmax_la.
  split; [| repeat split; assumption].
  apply Forall_forall; intros p Hp.
  apply (Hall (lon p, lat p)).
  apply (in_map (fun p => (lon p, lat p))); exact Hp.
Qed.


(** X23.  On raw coordinates that pass validation, and with a requested (or
    default) spacing at which the estimate is computed: if the spacing is
    positive the pipeline returns a route carrying the given id, its target
    loop stopping within 2500 rounds; if it is negative the target loop never
    stops. *)
Theorem X23_returns_iff_spacing_positive (rid : string)
  (raw : RawRouteFeature) (req : option R) (est : Z) :
  validate_route_guardrails (coordinates (geometry raw)) = Return tt ->
  est_points (polyline_length_m (coordinates (geometry raw)))
             (spacing_or_default req) = Return est ->
  (0 < spacing_or_default req ->
   forall fuel, (2500 <= fuel)%nat ->
     exists route, normalize fuel rid raw req = Return route /\
                   route_id route = rid) /\
  (spacing_or_default req < 0 ->
   forall fuel, normalize fuel rid raw req = Diverge).
Proof.
  intros Hv Hest; destruct (est_points_inv _ _ _ Hest) as [Hfin _]; split.
  - intros Hreq fuel Hfuel.
    destruct (normalize_returns_within fuel rid raw req Hv Hreq Hfin Hfuel)
      as [route Hr].
    exists route; split; [exact Hr |].
    destruct (normalize_parts _ _ _ _ _ Hr)
      as (samples & pts & bb & _ & _ & _ & Hid & _).
    exact Hid.
  - intros Hneg fuel.
    pose proof (validate_total _ Hv) as Htot; unfold MIN_ROUTE_M in Htot.
    assert (Hpos : 0 < sum_list (map seg_len
                                   (segments (coordinates (geometry raw)))))
      by lra.
    unfold normalize_raw_route; rewrite Hv; cbn [bind].
    rewrite pick_spacing_returns by (now right); cbn [bind].
    rewrite resample_diverges; [reflexivity | exact Hpos |].
    rewrite negative_spacing_kept;
      [lra | rewrite polyline_length_segments; exact Hpos | exact Hneg].
Qed.

(** X25.  The endpoint, on a body whose coordinates passed the model
    validator: if the guardrails pass it answers with the fresh id and a
    route carrying that id, normalized at the default spacing of 250 m; if
    they raise it answers 400 with that error as detail; no exception gets
    past its handler, and a 400 always carries the error the guardrail
    validation raised. *)
Theorem X25_create_route_answers (uuid4 : string) (raw : RawRouteFeature)
  (cs : list point) :
  let coords := coordinates (geometry raw) in
  validate_coords coords = Return cs ->
  (validate_route_guardrails coords = Return tt ->
   forall fuel, (2500 <= fuel)%nat ->
     exists route,
       create fuel uuid4 raw = Created uuid4 route /\
       route_id route = uuid4 /\
       spacing_m (normalized route) = DEFAULT_SPACING_M) /\
  (forall e, validate_route_guardrails coords = Raise e ->
             forall fuel, create fuel uuid4 raw = HTTPException 400 e) /\
  (forall fuel e, create fuel uuid4 raw <> Uncaught e) /\
  (forall fuel sc e, create fuel uuid4 raw = HTTPException sc e ->
                     sc = 400%nat /\
                     validate_route_guardrails coords = Raise e).
Proof.
  intros coords Hvc.
  destruct (validate_coords_inv _ _ Hvc) as (_ & Hlen & _).
  assert (Hne : coords <> []).
  { intros E; rewrite E in Hlen; simpl in Hlen; lia. }
  assert (Hfrom : forall fuel e,
             normalize fuel uuid4 raw None = Raise e ->
             validate_route_guardrails coords = Raise e).
  { intros fuel e H.
    destruct (normalize_raises _ _ _ _ _ H) as [Hc | [Hv Hpick]];
      [exact Hc | exfalso].
    destruct (pick_spacing_raise _ _ _ Hpick) as (_ & _ & Hf).
    exact (Hf (default_finite _ Hv)). }
  assert (Hcaught : forall fuel e,
             normalize fuel uuid4 raw None = Raise e -> is_ValueError e = true).
  { intros fuel e H; apply Hfrom in H.
    destruct (validate_raise_cases _ _ H) as [[_ E] | [_ Hc]];
      [contradiction |].
    destruct Hc as [-> | [-> | [-> | [-> | ->]]]]; reflexivity. }
  split; [| split; [| split]].
  - intros Hv fuel Hfuel.
    destruct (normalize_returns_within fuel uuid4 raw None Hv
                sample_default_spacing (default_finite _ Hv) Hfuel)
      as [route Hr].
    exists route; unfold create_route; rewrite Hr.
    destruct (normalize_parts _ _ _ _ _ Hr)
      as (samples & pts & bb & _ & _ & _ & Hid & _).
    destruct (normalize_picks _ _ _ _ _ _ _ _ _ Hr) as [_ Hsp].
    split; [reflexivity | split; [exact Hid |]].
    rewrite Hsp; exact (default_spacing_kept _ Hv).
  - intros e He fuel.
    assert (Hr : normalize fuel uuid4 raw None = Raise e)
      by (unfold normalize_raw_route; fold coords; now rewrite He).
    unfold create_route; rewrite Hr, (Hcaught fuel e Hr); reflexivity.
  - intros fuel e; unfold create_route.
    destruct (normalize fuel uuid4 raw None) as [route | e' |] eqn:Hr;
      try discriminate.
    rewrite (Hcaught fuel e' Hr); discriminate.
  - intros fuel sc e; unfold create_route.
    destruct (normalize fuel uuid4 raw None) as [route | e' |] eqn:Hr;
      try discriminate.
    rewrite (Hcaught fuel e' Hr); intros Hx; injection Hx as <- <-.
    split; [reflexivity | exact (Hfrom _ _ Hr)].
Qed.

End RouteProperties.

(* ================================================================== *)
(** ** The further properties at sample inputs *)
(* ================================================================== *)

Lemma sample_coords_valid : validate_coords sample_points = Return sample_points.
Proof.
  unfold validate_coords; cbn [List.length sample_points Nat.ltb Nat.leb].
  destruct (check_coords_spec sample_points) as [Hok _].
  rewrite Hok; [reflexivity |].
  unfold sample_points, in_range.
  repeat constructor; simpl; lra.
Qed.

Lemma sample_default_est_points :
  est_points (polyline_length_m sample_points) (spacing_or_default None)
  = Return (naive_estimate (polyline_length_m sample_points)
                           (spacing_or_default None)).
Proof. exact (est_points_returns _ _ sample_default_finite). Qed.

Lemma km_default_est_points :
  est_points 1000 (spacing_or_default None) = Return 6%Z.
Proof.
  rewrite est_points_returns.
  - unfold naive_estimate; cbn [spacing_or_default]; unfold DEFAULT_SPACING_M.
    replace (1000 / 250) with (IZR 4) by (simpl; lra).
    rewrite (Zfloor_eq 4); [reflexivity | simpl; lra].
  - cbn [spacing_or_default]; unfold DEFAULT_SPACING_M.
    apply finite_quotient_below; [lra |].
    apply Rlt_le_trans with (IZR 5); [simpl; lra |].
    apply IZR_le; vm_compute; discriminate.
Qed.


(** X12 at a length of 1 km and the default spacing. *)
Lemma X12_witness :
  0 < 1000 /\
  0 < spacing_or_default None /\
  exists s, pick_spacing_m 1000 None = Return s /\
            spacing_or_default None <= s.
Proof.
  assert (H : 0 < 1000) by lra.
  destruct (X12_pick_spacing_only_widens 1000 None H sample_default_spacing)
    as (Hret & Hex & _).
  destruct (Hex _ km_default_est_points) as [s Hs].
  split; [exact H | split; [exact sample_default_spacing |]].
  exists s; split; [exact Hs | exact (proj1 (proj2 (Hret s Hs)))].
Defined.

(** X17 at the sample route with a spacing of 250 m. *)
Lemma X17_witness :
  validate_route_guardrails sample_points = Return tt /\
  exists fuel samples,
    resample_even_spacing fuel sample_points 250 = Return samples /\
    exists smp more,
      samples = smp :: more /\
      hd_error sample_points = Some (s_lon smp, s_lat smp) /\
      s_cum_dist smp = 0 /\
      s_seg_dist smp = 0.
Proof.
  assert (Hs : 0 < 250) by lra.
  destruct (resample_returns sample_points 250 sample_total_pos Hs)
    as [fuel Hf].
  destruct (Hf fuel (Nat.le_refl fuel)) as [samples Hr].
  split; [exact sample_valid |].
  exists fuel, samples; split; [exact Hr |].
  exact (X17_first_sample_is_first_point fuel sample_points 250 samples
           sample_valid Hr).
Defined.


(** X19 at the sample route. *)
Lemma X19_witness :
  exists fuel route,
    normalize_raw_route no_text no_text same_text same_text fuel "r1"
      (sample_raw sample_points) None = Return route /\
    point_count (normalized route) = List.length (points (normalized route)) /\
    (2 <= point_count (normalized route) <= 2501)%nat.
Proof.
  destruct (normalize_returns no_text no_text same_text same_text "r1"
              (sample_raw sample_points) None sample_valid
              sample_default_spacing sample_default_finite) as [fuel Hf].
  destruct (Hf fuel (Nat.le_refl fuel)) as [route Hr].
  destruct (X19_route_point_count_and_indices no_text no_text same_text
              same_text fuel "r1" (sample_raw sample_points) None route Hr)
    as (Hc & Hb & _).
  exists fuel, route; split; [exact Hr | split; [exact Hc | exact Hb]].
Defined.

(** X20 at the sample route. *)
Lemma X20_witness :
  exists fuel route,
    normalize_raw_route no_text no_text same_text same_text fuel "r1"
      (sample_raw sample_points) None = Return route /\
    map bearing (points (normalized route))
    = forward_bearings (points (normalized route))
      ++ [last (forward_bearings (points (normalized route))) 0].
Proof.
  destruct (normalize_returns no_text no_text same_text same_text "r1"
              (sample_raw sample_points) None sample_valid
              sample_default_spacing sample_default_finite) as [fuel Hf].
  destruct (Hf fuel (Nat.le_refl fuel)) as [route Hr].
  exists fuel, route; split; [exact Hr |].
  exact (X20_route_bearings_point_forward no_text no_text same_text same_text
           fuel "r1" (sample_raw sample_points) None route Hr).
Defined.

(** X21 at the sample route. *)
Lemma X21_witness :
  exists fuel route,
    normalize_raw_route no_text no_text same_text same_text fuel "r1"
      (sample_raw sample_points) None = Return route /\
    Forall (fun p => in_box (body_bbox (normalized route)) (lon p) (lat p))
           (points (normalized route)).
Proof.
  destruct (normalize_returns no_text no_text same_text same_text "r1"
              (sample_raw sample_points) None sample_valid
              sample_default_spacing sample_default_finite) as [fuel Hf].
  destruct (Hf fuel (Nat.le_refl fuel)) as [route Hr].
  destruct (X21_route_bbox_of_points no_text no_text same_text same_text
              fuel "r1" (sample_raw sample_points) None route Hr)
    as (Hbox & _).
  exists fuel, route; split; [exact Hr | exact Hbox].
Defined.

(** X23 at the sample route with the default spacing. *)
Lemma X23_witness :
  validate_route_guardrails sample_points = Return tt /\
  0 < spacing_or_default None /\
  exists route,
    normalize_raw_route no_text no_text same_text same_text 2500 "r1"
      (sample_raw sample_points) None = Return route /\
    route_id route = "r1"%string.
Proof.
  split; [exact sample_valid | split; [exact sample_default_spacing |]].
  exact (proj1 (X23_returns_iff_spacing_positive no_text no_text same_text
                  same_text "r1" (sample_raw sample_points) None _
                  sample_valid sample_default_est_points)
           sample_default_spacing 2500%nat (Nat.le_refl 2500)).
Defined.

(** X25 at the sample route: the endpoint answers with a route. *)
Lemma X25_witness :
  validate_coords sample_points = Return sample_points /\
  exists route,
    create_route no_text no_text same_text same_text 2500 "r1"
      (sample_raw sample_points) = Created "r1" route /\
    route_id route = "r1"%string.
Proof.
  split; [exact sample_coords_valid |].
  destruct (proj1 (X25_create_route_answers no_text no_text same_text
                     same_text "r1" (sample_raw sample_points) sample_points
                     sample_coords_valid) sample_valid 2500%nat
              (Nat.le_refl 2500)) as (route & Hc & Hid & _).
  exists route; split; [exact Hc | exact Hid].
Defined.
